(** * tiny-project: the thread pool (threadpool.cpp) and the JSON node (json.cpp)

    A shallow embedding of the two translation units.

    - [SafeQueue]: [struct safe_queue<T>], a [std::queue<T>] behind a
      [shared_mutex].  Every member function takes the lock for its whole
      body, so each one is an atomic function on the underlying sequence.
    - [Pool]: [class ThreadPool] with its nested [worker], as an interleaving
      semantics.  Every thread has a program counter named after the source
      line it is about to execute; [exec] performs one atomic action of the
      thread a scheduler label selects.
    - [Json]: [json::Node] with its two indexing operators and [push].
    - [JsonParser], [JsonGenerator]: the recursive descent of
      [json::JsonParser] over the characters of the text, with its cursor,
      and the text [json::JsonGenerator] writes for a node.  [std::stod]
      and [std::to_string] of a [double] are left open.
    - [JsonMain]: the statement [x[key].push(rhs)] of [main]. *)

From stdpp Require Import base option list strings gmap relations.
From Stdlib Require Import ZArith Floats.PrimFloat Ascii.
From Stdlib Require DecimalString DecimalN DecimalZ.

(* ===================================================================== *)
(** ** safe_queue (threadpool.cpp, lines 16-40) *)
(* ===================================================================== *)

Module SafeQueue.
Section safe_queue.
Context {T : Type}.

(** [queue<T> q]: the front of the queue is the head of the list. *)
Definition safe_queue := list T.

(** line 20: [auto empty()] *)
Definition empty (q : safe_queue) : bool :=
  match q with [] => true | _ :: _ => false end.

(** line 24: [auto size()] *)
Definition size (q : safe_queue) : nat := length q.

(** line 28: [auto push(T& t)]; [q.push(t)] appends at the back. *)
Definition push (t : T) (q : safe_queue) : safe_queue := q ++ [t].

(** line 32: [auto pop(T& t)].  The out-parameter [t] is threaded through:
    the result is the returned flag, the value of [t] after the call and
    the queue after the call. *)
Definition pop (t : T) (q : safe_queue) : bool * T * safe_queue :=
  match q with
  | [] => (false, t, q)
  | front :: q' => (true, front, q')
  end.

(** A client of one queue: a sequence of calls. *)
Inductive call := Push (t : T) | Pop.

(** Runs the calls in order.  Returns the values handed out by the
    successful pops (oldest first) and the final queue. *)
Fixpoint run (cs : list call) (t : T) (q : safe_queue) : list T * safe_queue :=
  match cs with
  | [] => ([], q)
  | Push x :: cs' => run cs' t (push x q)
  | Pop :: cs' =>
      let '(flag, t', q') := pop t q in
      let '(out, qf) := run cs' t' q' in
      (if flag then t' :: out else out, qf)
  end.

(** The arguments of the pushes, in call order. *)
Definition pushed (cs : list call) : list T :=
  omap (λ c, match c with Push x => Some x | Pop => None end) cs.

End safe_queue.
Global Arguments safe_queue : clear implicits.
Global Arguments call : clear implicits.
End SafeQueue.

(* ===================================================================== *)
(** ** ThreadPool (threadpool.cpp, lines 42-105) *)
(* ===================================================================== *)

(** The pool as a transition system.

    - Threads interleave; each step is one statement of the source, or one
      half of [cv.wait] (evaluate the predicate; release the mutex and
      block).  Memory is sequentially consistent: a step sees the last
      value written.
    - One thread owns the pool, as in [main] (lines 108-121): it makes
      its submissions one after the other and then destroys the pool.
    - A callable is the outcome of calling it; what it does besides
      returning or throwing is outside the pool.
    - [std::packaged_task], [std::future] and [std::condition_variable]
      behave as the C++ standard says; spurious wake-ups are possible.
    - Line 70 asks the vector for [n] copies of one [std::thread]; the
      model has the [n] workers this stands for. *)

Module Pool.
Section pool.

(** [submit] is a template: [V] collects the return types of the submitted
    callables, [E] the exceptions they may throw; [void] is the value of a
    callable returning [void]. *)
Context {V E : Type}.
Context (void : V).

(** What calling [f(args...)] does: return a value or throw. *)
Inductive outcome := Returned (v : V) | Raised (e : E).

(** line 80: [function<return_type()> func], the bound nullary callable. *)
Definition callable := unit → outcome.

(** line 84: a [std::packaged_task] on the heap behind [task_ptr], with the
    shared state its future reads: empty until the task has run. *)
Record packaged_task := {
  fn : callable;
  shared_state : option outcome
}.

Definition make_task (f : callable) : packaged_task :=
  {| fn := f; shared_state := None |}.

(** Exceptions of the standard library that can leave a [function<void()>]. *)
Inductive std_exception :=
  | bad_function_call
  | promise_already_satisfied
  | no_state.

Inductive completion := Done | Threw (what : std_exception).

(** [std::function<void()>]: default-constructed (line 57) or the closure
    of line 85, which captures [task_ptr] and nothing else.  A [task_ptr] is
    the index of its task in the heap. *)
Inductive function := EmptyFunction | WrapperFunc (task_ptr : nat).

(** line 86, [std::packaged_task::operator()] through [task_ptr]: calls the stored
    callable, catches whatever it throws, and stores the value or the
    exception in the shared state; a second call throws [future_error]. *)
Definition invoke (task_ptr : nat) (heap : list packaged_task)
    : completion * list packaged_task :=
  match heap !! task_ptr with
  | None => (Threw no_state, heap)
  | Some t =>
      match shared_state t with
      | Some _ => (Threw promise_already_satisfied, heap)
      | None =>
          (Done, <[task_ptr := {| fn := fn t; shared_state := Some (fn t ()) |}]> heap)
      end
  end.

(** line 60: [func()]. *)
Definition call_function (func : function) (heap : list packaged_task)
    : completion * list packaged_task :=
  match func with
  | EmptyFunction => (Threw bad_function_call, heap)
  | WrapperFunc task_ptr => invoke task_ptr heap
  end.

(** [std::future::get] on the future of [task_ptr]: [None] while it would
    block, afterwards the stored value, or the stored exception rethrown. *)
Definition future_get (task_ptr : nat) (heap : list packaged_task) : option outcome :=
  t ← heap !! task_ptr; shared_state t.

(** line 96: the sentinel's callable, [[]() {}]. *)
Definition noop : callable := λ _, Returned void.

(** *** Threads *)

Inductive thread_id := MainThread | WorkerThread (w : nat).

Global Instance thread_id_eq_dec : EqDecision thread_id.
Proof. solve_decision. Defined.

(** Program counter of [worker::operator()], lines 48-62. *)
Inductive worker_pc :=
  | WCheck                  (* line 49: while (!pool->is_shut_down) *)
  | WAcquire                (* line 51: unique_lock lock(pool->_m), or re-locking inside wait *)
  | WPred                   (* line 53: the wait predicate, lock held *)
  | WWait                   (* line 52: predicate was false, about to block, lock held *)
  | WBlocked                (* inside cv.wait, lock released *)
  | WRelease                (* line 56: end of the block, lock released here *)
  | WPop                    (* line 58: pool->q.pop(func) *)
  | WRun (func : function)  (* line 60: func() *)
  | WStopped                (* line 62: left the loop *)
  | WCrashed (what : std_exception).  (* an exception left the thread function *)

(** Who called [submit], and what it goes back to. *)
Inductive caller :=
  | FromMain (rest : list callable)  (* main, lines 111-120, with the submissions still to make *)
  | FromDtor.                        (* ~ThreadPool, line 96 *)

(** Program counter of the thread that owns the pool: [main] (lines
    108-121) submits its callables in turn and leaves the scope, which
    runs [~ThreadPool] (lines 95-104). *)
Inductive main_pc :=
  | MainLoop (rest : list callable)
  | SubmitMake (f : callable) (ret : caller)       (* lines 80-87 *)
  | SubmitPush (task_ptr : nat) (ret : caller)     (* line 88: q.push(wrapper_func) *)
  | SubmitNotify (task_ptr : nat) (ret : caller)   (* line 89: cv.notify_one() *)
  | SubmitReturn (task_ptr : nat) (ret : caller)   (* line 93: return task_ptr->get_future() *)
  | DtorGet (f : nat)                              (* line 97: f.get() *)
  | DtorSetFlag                                    (* line 98: is_shut_down = true *)
  | DtorNotifyAll                                  (* line 99: cv.notify_all() *)
  | DtorJoin (i : nat)                             (* lines 100-103 *)
  | Destroyed                                      (* line 104: members are destroyed *)
  | Aborted.                                       (* an exception left the destructor *)

(** Where a read of [is_shut_down] stands in the source. *)
Inductive site := LoopHead | WaitPred.

(** Observable actions, in the order they happened. *)
Inductive event :=
  | EvPush (task_ptr : nat)
  | EvNotifyOne
  | EvGet (task_ptr : nat)
  | EvWriteFlag (locked : bool)
  | EvNotifyAll
  | EvJoin (w : nat)
  | EvDestroy
  | EvReadFlag (w : nat) (where_ : site) (locked : bool) (v : bool)
  | EvPopJob (w : nat) (func : function)
  | EvPopEmpty (w : nat)
  | EvRun (w : nat) (func : function)
  | EvExit (w : nat).

(** [class ThreadPool], lines 65-69, with the heap of tasks, the program
    counters of its threads and the history.  The threads waiting on [cv]
    are the workers at [WBlocked]. *)
Record ThreadPool := {
  is_shut_down : bool;
  q : SafeQueue.safe_queue function;
  threads : list worker_pc;
  _m : option thread_id;
  heap : list packaged_task;
  main : main_pc;
  trace : list event
}.

Definition set_flag (b : bool) (s : ThreadPool) : ThreadPool :=
  {| is_shut_down := b; q := q s; threads := threads s; _m := _m s;
     heap := heap s; main := main s; trace := trace s |}.
Definition set_q (x : SafeQueue.safe_queue function) (s : ThreadPool) : ThreadPool :=
  {| is_shut_down := is_shut_down s; q := x; threads := threads s; _m := _m s;
     heap := heap s; main := main s; trace := trace s |}.
Definition set_threads (x : list worker_pc) (s : ThreadPool) : ThreadPool :=
  {| is_shut_down := is_shut_down s; q := q s; threads := x; _m := _m s;
     heap := heap s; main := main s; trace := trace s |}.
Definition set_m (x : option thread_id) (s : ThreadPool) : ThreadPool :=
  {| is_shut_down := is_shut_down s; q := q s; threads := threads s; _m := x;
     heap := heap s; main := main s; trace := trace s |}.
Definition set_heap (x : list packaged_task) (s : ThreadPool) : ThreadPool :=
  {| is_shut_down := is_shut_down s; q := q s; threads := threads s; _m := _m s;
     heap := x; main := main s; trace := trace s |}.
Definition set_main (x : main_pc) (s : ThreadPool) : ThreadPool :=
  {| is_shut_down := is_shut_down s; q := q s; threads := threads s; _m := _m s;
     heap := heap s; main := x; trace := trace s |}.
Definition log (ev : event) (s : ThreadPool) : ThreadPool :=
  {| is_shut_down := is_shut_down s; q := q s; threads := threads s; _m := _m s;
     heap := heap s; main := main s; trace := trace s ++ [ev] |}.
Definition goto (w : nat) (pc : worker_pc) (s : ThreadPool) : ThreadPool :=
  set_threads (<[w := pc]> (threads s)) s.

(** Whether thread [t] owns the mutex [_m] of the pool. *)
Definition holds (s : ThreadPool) (t : thread_id) : bool :=
  bool_decide (_m s = Some t).

(** line 70: [ThreadPool(int n)]: [is_shut_down] is declared first and so
    initialised first, then [n] workers start at the top of their loop.
    [prog] is what [main] is going to submit. *)
Definition ThreadPool_ctor (n : nat) (prog : list callable) : ThreadPool :=
  {| is_shut_down := false; q := []; threads := replicate n WCheck; _m := None;
     heap := []; main := MainLoop prog; trace := [] |}.

(** *** The condition variable *)

Definition is_blocked (pc : worker_pc) : bool :=
  match pc with WBlocked => true | _ => false end.

(** [cv.notify_one()]: with nobody waiting nothing happens (the
    notification is not kept); otherwise one waiting thread, the one the
    scheduler picks, leaves the wait and goes on to re-lock the mutex. *)
Definition notify_one (pick : nat) (ths : list worker_pc) : option (list worker_pc) :=
  if forallb (λ pc, negb (is_blocked pc)) ths then Some ths
  else match ths !! pick with
       | Some WBlocked => Some (<[pick := WAcquire]> ths)
       | _ => None
       end.

(** [cv.notify_all()]: every waiting thread leaves the wait. *)
Definition notify_all (ths : list worker_pc) : list worker_pc :=
  (λ pc, if is_blocked pc then WAcquire else pc) <$> ths.

(** *** One atomic action of a worker, lines 48-62 *)

Definition worker_step (w : nat) (s : ThreadPool) : option ThreadPool :=
  pc ← threads s !! w;
  match pc with
  | WCheck =>
      let v := is_shut_down s in
      let s := log (EvReadFlag w LoopHead (holds s (WorkerThread w)) v) s in
      if v then Some (goto w WStopped (log (EvExit w) s))
      else Some (goto w WAcquire s)
  | WAcquire =>
      match _m s with
      | None => Some (goto w WPred (set_m (Some (WorkerThread w)) s))
      | Some _ => None
      end
  | WPred =>
      let v := is_shut_down s in
      let s' := log (EvReadFlag w WaitPred (holds s (WorkerThread w)) v) s in
      if v || negb (SafeQueue.empty (q s)) then Some (goto w WRelease s')
      else Some (goto w WWait s')
  | WWait => Some (goto w WBlocked (set_m None s))
  | WBlocked => None
  | WRelease => Some (goto w WPop (set_m None s))
  | WPop =>
      let '(flag, func, q') := SafeQueue.pop EmptyFunction (q s) in
      if flag then Some (goto w (WRun func) (log (EvPopJob w func) (set_q q' s)))
      else Some (goto w WCheck (log (EvPopEmpty w) (set_q q' s)))
  | WRun func =>
      match call_function func (heap s) with
      | (Done, heap') => Some (goto w WCheck (log (EvRun w func) (set_heap heap' s)))
      | (Threw what, heap') => Some (goto w (WCrashed what) (set_heap heap' s))
      end
  | WStopped => None
  | WCrashed _ => None
  end.

(** A thread blocked in [cv.wait] may wake up without a notification. *)
Definition spurious_wakeup (w : nat) (s : ThreadPool) : option ThreadPool :=
  match threads s !! w with
  | Some WBlocked => Some (goto w WAcquire s)
  | _ => None
  end.

(** *** One atomic action of the owning thread: main, submit, ~ThreadPool *)

Definition main_step (pick : nat) (s : ThreadPool) : option ThreadPool :=
  match main s with
  | MainLoop (f :: rest) => Some (set_main (SubmitMake f (FromMain rest)) s)
  | MainLoop [] => Some (set_main (SubmitMake noop FromDtor) s)
  | SubmitMake f ret =>
      Some (set_main (SubmitPush (length (heap s)) ret)
              (set_heap (heap s ++ [make_task f]) s))
  | SubmitPush task_ptr ret =>
      Some (set_main (SubmitNotify task_ptr ret)
              (log (EvPush task_ptr)
                 (set_q (SafeQueue.push (WrapperFunc task_ptr) (q s)) s)))
  | SubmitNotify task_ptr ret =>
      ths ← notify_one pick (threads s);
      Some (set_main (SubmitReturn task_ptr ret) (log EvNotifyOne (set_threads ths s)))
  | SubmitReturn task_ptr (FromMain rest) => Some (set_main (MainLoop rest) s)
  | SubmitReturn task_ptr FromDtor => Some (set_main (DtorGet task_ptr) s)
  | DtorGet f =>
      match future_get f (heap s) with
      | None => None
      | Some (Returned _) => Some (set_main DtorSetFlag (log (EvGet f) s))
      | Some (Raised _) => Some (set_main Aborted (log (EvGet f) s))
      end
  | DtorSetFlag =>
      Some (set_main DtorNotifyAll
              (log (EvWriteFlag (holds s MainThread)) (set_flag true s)))
  | DtorNotifyAll =>
      Some (set_main (DtorJoin 0) (log EvNotifyAll (set_threads (notify_all (threads s)) s)))
  | DtorJoin i =>
      match threads s !! i with
      | None => Some (set_main Destroyed (log EvDestroy s))
      | Some WStopped => Some (set_main (DtorJoin (S i)) (log (EvJoin i) s))
      | Some _ => None
      end
  | Destroyed => None
  | Aborted => None
  end.

(** Where [submit] returns to, with the handle of task [task_ptr]. *)
Definition resume (ret : caller) (task_ptr : nat) : main_pc :=
  match ret with
  | FromMain rest => MainLoop rest
  | FromDtor => DtorGet task_ptr
  end.

(** *** Interleavings *)

(** The scheduler's choice: which thread moves.  [pick] is the waiting
    worker a [notify_one] wakes, when the owner is about to notify. *)
Inductive label := Main (pick : nat) | Worker (w : nat) | Spurious (w : nat).

Definition exec (l : label) (s : ThreadPool) : option ThreadPool :=
  match l with
  | Main pick => main_step pick s
  | Worker w => worker_step w s
  | Spurious w => spurious_wakeup w s
  end.

Definition step (s s' : ThreadPool) : Prop := ∃ l, exec l s = Some s'.

(** The states a pool of [n] workers goes through while [main] submits
    [prog] and then destroys the pool. *)
Definition reachable (n : nat) (prog : list callable) (s : ThreadPool) : Prop :=
  rtc step (ThreadPool_ctor n prog) s.

(** *** The atomic actions, one by one

    The same transitions as [exec], as a relation with one rule for each
    action and outcome, for reasoning by cases. *)
Inductive action (s : ThreadPool) : ThreadPool → Prop :=
  | a_call_submit f rest :
      main s = MainLoop (f :: rest) →
      action s (set_main (SubmitMake f (FromMain rest)) s)
  | a_enter_dtor :
      main s = MainLoop [] →
      action s (set_main (SubmitMake noop FromDtor) s)
  | a_make f ret :
      main s = SubmitMake f ret →
      action s (set_main (SubmitPush (length (heap s)) ret)
                  (set_heap (heap s ++ [make_task f]) s))
  | a_push task_ptr ret :
      main s = SubmitPush task_ptr ret →
      action s (set_main (SubmitNotify task_ptr ret)
                  (log (EvPush task_ptr)
                     (set_q (SafeQueue.push (WrapperFunc task_ptr) (q s)) s)))
  | a_notify_nobody task_ptr ret :
      main s = SubmitNotify task_ptr ret →
      (∀ w, threads s !! w ≠ Some WBlocked) →
      action s (set_main (SubmitReturn task_ptr ret)
                  (log EvNotifyOne (set_threads (threads s) s)))
  | a_notify_wake task_ptr ret w :
      main s = SubmitNotify task_ptr ret →
      threads s !! w = Some WBlocked →
      action s (set_main (SubmitReturn task_ptr ret)
                  (log EvNotifyOne (set_threads (<[w := WAcquire]> (threads s)) s)))
  | a_return_main task_ptr rest :
      main s = SubmitReturn task_ptr (FromMain rest) →
      action s (set_main (MainLoop rest) s)
  | a_return_dtor task_ptr :
      main s = SubmitReturn task_ptr FromDtor →
      action s (set_main (DtorGet task_ptr) s)
  | a_get_value f v :
      main s = DtorGet f →
      future_get f (heap s) = Some (Returned v) →
      action s (set_main DtorSetFlag (log (EvGet f) s))
  | a_get_rethrow f e :
      main s = DtorGet f →
      future_get f (heap s) = Some (Raised e) →
      action s (set_main Aborted (log (EvGet f) s))
  | a_set_flag :
      main s = DtorSetFlag →
      action s (set_main DtorNotifyAll
                  (log (EvWriteFlag (holds s MainThread)) (set_flag true s)))
  | a_notify_all :
      main s = DtorNotifyAll →
      action s (set_main (DtorJoin 0)
                  (log EvNotifyAll (set_threads (notify_all (threads s)) s)))
  | a_join i :
      main s = DtorJoin i →
      threads s !! i = Some WStopped →
      action s (set_main (DtorJoin (S i)) (log (EvJoin i) s))
  | a_destroy i :
      main s = DtorJoin i →
      threads s !! i = None →
      action s (set_main Destroyed (log EvDestroy s))
  | a_check_exit w :
      threads s !! w = Some WCheck →
      is_shut_down s = true →
      action s (goto w WStopped
                  (log (EvExit w)
                     (log (EvReadFlag w LoopHead (holds s (WorkerThread w)) true) s)))
  | a_check_enter w :
      threads s !! w = Some WCheck →
      is_shut_down s = false →
      action s (goto w WAcquire
                  (log (EvReadFlag w LoopHead (holds s (WorkerThread w)) false) s))
  | a_acquire w :
      threads s !! w = Some WAcquire →
      _m s = None →
      action s (goto w WPred (set_m (Some (WorkerThread w)) s))
  | a_pred_true w :
      threads s !! w = Some WPred →
      is_shut_down s || negb (SafeQueue.empty (q s)) = true →
      action s (goto w WRelease
                  (log (EvReadFlag w WaitPred (holds s (WorkerThread w)) (is_shut_down s)) s))
  | a_pred_false w :
      threads s !! w = Some WPred →
      is_shut_down s || negb (SafeQueue.empty (q s)) = false →
      action s (goto w WWait
                  (log (EvReadFlag w WaitPred (holds s (WorkerThread w)) (is_shut_down s)) s))
  | a_wait w :
      threads s !! w = Some WWait →
      action s (goto w WBlocked (set_m None s))
  | a_release w :
      threads s !! w = Some WRelease →
      action s (goto w WPop (set_m None s))
  | a_pop_job w func q' :
      threads s !! w = Some WPop →
      q s = func :: q' →
      action s (goto w (WRun func) (log (EvPopJob w func) (set_q q' s)))
  | a_pop_empty w :
      threads s !! w = Some WPop →
      q s = [] →
      action s (goto w WCheck (log (EvPopEmpty w) (set_q [] s)))
  | a_run_done w func heap' :
      threads s !! w = Some (WRun func) →
      call_function func (heap s) = (Done, heap') →
      action s (goto w WCheck (log (EvRun w func) (set_heap heap' s)))
  | a_run_threw w func what heap' :
      threads s !! w = Some (WRun func) →
      call_function func (heap s) = (Threw what, heap') →
      action s (goto w (WCrashed what) (set_heap heap' s))
  | a_spurious w :
      threads s !! w = Some WBlocked →
      action s (goto w WAcquire s).


(** Runs a schedule. *)
Fixpoint run (ls : list label) (s : ThreadPool) : option ThreadPool :=
  match ls with
  | [] => Some s
  | l :: ls' => s' ← exec l s; run ls' s'
  end.

(** *** Vocabulary of the proofs

    Program-counter classes, the lists of events a run is compared with,
    and the invariants of the reachable states. *)

Implicit Types (s : ThreadPool) (w p n : nat) (pc : worker_pc).

(** The worker is between the lock and the unlock of [_m]. *)
Definition locked_pc pc : bool :=
  match pc with WPred | WWait | WRelease => true | _ => false end.

(** The pool has [n] threads, and the owner of [_m] is the one worker
    between its lock and its unlock. *)
Definition lock_inv n s : Prop :=
  length (threads s) = n
  ∧ (∀ w pc, threads s !! w = Some pc → locked_pc pc = true → _m s = Some (WorkerThread w))
  ∧ (∀ t, _m s = Some t → ∃ w pc, t = WorkerThread w ∧ threads s !! w = Some pc ∧ locked_pc pc = true).

(** The callables [main] still has to hand to [submit], the sentinel last. *)
Definition todo (pc : main_pc) : list callable :=
  match pc with
  | MainLoop rest => rest ++ [noop]
  | SubmitMake f (FromMain rest) => f :: rest ++ [noop]
  | SubmitMake f FromDtor => [f]
  | SubmitPush _ (FromMain rest)
  | SubmitNotify _ (FromMain rest)
  | SubmitReturn _ (FromMain rest) => rest ++ [noop]
  | _ => []
  end.

(** The task the owner is submitting, or waiting for. *)
Definition current_task (pc : main_pc) : option nat :=
  match pc with
  | SubmitPush p _ | SubmitNotify p _ | SubmitReturn p _ | DtorGet p => Some p
  | _ => None
  end.

(** The tasks made so far and the callables still to submit make up the
    program; the owner's current task is the newest; a shared state holds
    what its callable does. *)
Definition heap_inv (prog : list callable) s : Prop :=
  (fn <$> heap s) ++ todo (main s) = prog ++ [noop]
  ∧ (∀ p, current_task (main s) = Some p → S p = length (heap s))
  ∧ (∀ p t o, heap s !! p = Some t → shared_state t = Some o → o = fn t ()).

(** The shared state of task [p] is still empty. *)
Definition pending (h : list packaged_task) p : Prop :=
  ∃ t, h !! p = Some t ∧ shared_state t = None.

(** Task pointers below [issued s] are those already pushed. *)
Definition issued s : nat :=
  match main s with
  | SubmitPush p _ => p
  | _ => length (heap s)
  end.

(** A job in flight wraps a pushed task that has not run. *)
Definition good_job s (func : function) : Prop :=
  ∃ p, func = WrapperFunc p ∧ p < issued s ∧ pending (heap s) p.

(** Every job sits in the queue or in one worker's hands, once, and has
    not run. *)
Definition jobs_inv s : Prop :=
  (∀ func, func ∈ q s → good_job s func)
  ∧ (∀ w func, threads s !! w = Some (WRun func) → good_job s func ∧ func ∉ q s)
  ∧ NoDup (q s)
  ∧ (∀ w w' func, threads s !! w = Some (WRun func) →
       threads s !! w' = Some (WRun func) → w = w')
  ∧ (∀ p ret, main s = SubmitPush p ret → pending (heap s) p).

(** The worker holds a popped job. *)
Definition is_run pc : bool :=
  match pc with WRun _ => true | _ => false end.

(** The owner has returned from [f.get()] at line 97. *)
Definition past_get (pc : main_pc) : bool :=
  match pc with
  | DtorSetFlag | DtorNotifyAll | DtorJoin _ | Destroyed => true
  | _ => false
  end.

(** Once the sentinel is pushed it is the last job of the queue until a
    worker takes it, and nothing is pushed after it. *)
Definition drain_inv s : Prop :=
  match main s with
  | SubmitNotify p FromDtor | SubmitReturn p FromDtor | DtorGet p =>
      q s = [] ∨ last (q s) = Some (WrapperFunc p)
  | DtorSetFlag | DtorNotifyAll | DtorJoin _ | Destroyed | Aborted => q s = []
  | _ => True
  end.

(** The flag is written once, at line 98, and never cleared. *)
Definition flag_pc (pc : main_pc) : bool :=
  match pc with
  | DtorNotifyAll | DtorJoin _ | Destroyed => true
  | _ => false
  end.

(** A stopped worker has read the flag as set at the head of its loop. *)
Definition stopped_inv s : Prop :=
  ∀ w, threads s !! w = Some WStopped →
    is_shut_down s = true ∧ ∃ locked, EvReadFlag w LoopHead locked true ∈ trace s.

(** What the join loop of lines 100-103 has established. *)
Definition joined_inv s : Prop :=
  match main s with
  | DtorJoin i => ∀ w, w < i → threads s !! w = Some WStopped
  | Destroyed => ∀ w pc, threads s !! w = Some pc → pc = WStopped
  | _ => True
  end.

(** The events of the owning thread. *)
Definition is_main_event (ev : event) : bool :=
  match ev with
  | EvPush _ | EvNotifyOne | EvGet _ | EvWriteFlag _ | EvNotifyAll
  | EvJoin _ | EvDestroy => true
  | _ => false
  end.

(** The actions of the owning thread, in order. *)
Definition main_events (tr : list event) : list event :=
  filter (λ ev, is_main_event ev) tr.

(** What one call of [submit] for task [p] does to the pool. *)
Definition submit_events (p : nat) : list event := [EvPush p; EvNotifyOne].

(** [k] calls of [submit], for the tasks [h], [h+1], ... *)
Fixpoint client_events (h k : nat) : list event :=
  match k with
  | 0 => []
  | S k' => submit_events h ++ client_events (S h) k'
  end.

(** The joins of workers [i], [i+1], ..., [k] of them. *)
Definition joins (i k : nat) : list event := EvJoin <$> seq i k.

(** [~ThreadPool] after the sentinel's [submit], for a pool of [n]
    workers whose sentinel is task [p]. *)
Definition dtor_tail (n p : nat) : list event :=
  [EvGet p; EvWriteFlag false; EvNotifyAll] ++ joins 0 n ++ [EvDestroy].

(** All of [~ThreadPool]. *)
Definition teardown_events (n p : nat) : list event :=
  submit_events p ++ dtor_tail n p.

(** Everything the owner of a pool of [n] workers does when [main] makes
    [k] submissions. *)
Definition program_events (n k : nat) : list event :=
  client_events 0 k ++ teardown_events n k.

(** What the owner still has to do, from its program counter. *)
Definition rest_events (n h : nat) (pc : main_pc) : list event :=
  match pc with
  | MainLoop rest =>
      client_events h (length rest) ++ teardown_events n (h + length rest)
  | SubmitMake _ (FromMain rest) =>
      client_events h (S (length rest)) ++ teardown_events n (h + S (length rest))
  | SubmitMake _ FromDtor => teardown_events n h
  | SubmitPush p (FromMain rest) =>
      [EvPush p; EvNotifyOne] ++ client_events (S p) (length rest)
        ++ teardown_events n (S p + length rest)
  | SubmitPush p FromDtor => [EvPush p; EvNotifyOne] ++ dtor_tail n p
  | SubmitNotify p (FromMain rest) =>
      [EvNotifyOne] ++ client_events (S p) (length rest)
        ++ teardown_events n (S p + length rest)
  | SubmitNotify p FromDtor => [EvNotifyOne] ++ dtor_tail n p
  | SubmitReturn p (FromMain rest) =>
      client_events (S p) (length rest) ++ teardown_events n (S p + length rest)
  | SubmitReturn p FromDtor => dtor_tail n p
  | DtorGet p => dtor_tail n p
  | DtorSetFlag | Aborted => [EvWriteFlag false; EvNotifyAll] ++ joins 0 n ++ [EvDestroy]
  | DtorNotifyAll => [EvNotifyAll] ++ joins 0 n ++ [EvDestroy]
  | DtorJoin i => joins i (n - i) ++ [EvDestroy]
  | Destroyed => []
  end.

(** What the owner has done, then what it still has to do, is its
    whole program. *)
Definition main_trace_inv n (prog : list callable) s : Prop :=
  main_events (trace s) ++ rest_events n (length (heap s)) (main s)
  = program_events n (length prog).

(** Every read of [is_shut_down] in the wait predicate is made with the
    pool's mutex held by the reader; every read at the head of the loop,
    and the write of line 98, is made without it. *)
Definition flag_access_ok (ev : event) : Prop :=
  match ev with
  | EvReadFlag w WaitPred locked _ => locked = true
  | EvReadFlag w LoopHead locked _ => locked = false
  | EvWriteFlag locked => locked = false
  | _ => True
  end.

(** The jobs pushed, in the order of the pushes. *)
Definition pushed_jobs (tr : list event) : list function :=
  omap (λ ev, match ev with EvPush p => Some (WrapperFunc p) | _ => None end) tr.

(** The jobs the workers took from the queue, in the order they took them. *)
Definition popped_jobs (tr : list event) : list function :=
  omap (λ ev, match ev with EvPopJob _ func => Some func | _ => None end) tr.

(** The owner is inside [submit]. *)
Definition in_submit (pc : main_pc) : bool :=
  match pc with
  | SubmitMake _ _ | SubmitPush _ _ | SubmitNotify _ _ | SubmitReturn _ _ => true
  | _ => false
  end.

(** C3 as the specification words it: a worker has stopped only if the
    flag is set and one of its pops came back empty. *)
Definition stopped_after_empty_pop s w : Prop :=
  threads s !! w = Some WStopped →
  is_shut_down s = true ∧ EvPopEmpty w ∈ trace s.

(** C4 as the specification words it: an access to the flag is made with
    the mutex of the condition variable held. *)
Definition flag_access_locked (ev : event) : Prop :=
  match ev with
  | EvReadFlag _ _ locked _ | EvWriteFlag locked => locked = true
  | _ => True
  end.

End pool.
End Pool.

(* ===================================================================== *)
(** ** json::Node (json.cpp, lines 13-44) *)
(* ===================================================================== *)

Module Json.

(** lines 13-24: [struct Node] has the single member [Value value], a
    [std::variant] over the seven alternatives; a node is identified with
    the alternative it holds.  [Int] is [int64_t], [Float] is [double],
    [Array] is [std::vector<Node>], [Object] is [std::map<std::string, Node>]. *)
#[local] Unset Elimination Schemes.
Inductive Node :=
  | Null
  | Bool (b : bool)
  | Int (i : Z)
  | Float (f : float)
  | String (s : string)
  | Array (a : list Node)
  | Object (o : gmap string Node).
#[local] Set Elimination Schemes.

(** What the three member functions throw: [std::runtime_error] with its
    message, or the [std::out_of_range] of [std::vector::at]. *)
Inductive exception :=
  | runtime_error (what : string)
  | out_of_range.

Inductive result (A : Type) :=
  | Ok (a : A)
  | Throw (e : exception).
Global Arguments Ok {A} a.
Global Arguments Throw {A} e.

(** line 24: [Node()], the value-initialised node. *)
Definition Node_default : Node := Null.

(** lines 25-30: [auto& operator[](const std::string& key)].
    [std::map::operator[]] inserts a value-initialised [Node()] under a key
    it does not hold.  The result is the receiver after the call and the
    node the returned reference points to. *)
Definition index_key (key : string) (n : Node) : result (Node * Node) :=
  match n with
  | Object object =>
      match object !! key with
      | Some v => Ok (Object object, v)
      | None => Ok (Object (<[key := Node_default]> object), Node_default)
      end
  | _ => Throw (runtime_error "not an object")
  end.

(** lines 31-36: [auto operator[](size_t index)], a copy of [array->at(index)]. *)
Definition index_at (index : nat) (n : Node) : result Node :=
  match n with
  | Array array =>
      match array !! index with
      | Some v => Ok v
      | None => Throw out_of_range
      end
  | _ => Throw (runtime_error "not an array")
  end.

(** lines 37-43: [void push(const Node& rhs)]; the result is the receiver
    after the call. *)
Definition push (rhs : Node) (n : Node) : result Node :=
  match n with
  | Array array => Ok (Array (array ++ [rhs]))
  | _ => Throw (runtime_error "not an array push")
  end.

Definition is_array (n : Node) : bool :=
  match n with Array _ => true | _ => false end.
Definition is_object (n : Node) : bool :=
  match n with Object _ => true | _ => false end.
Definition is_ok {A} (r : result A) : bool :=
  match r with Ok _ => true | Throw _ => false end.

End Json.


(* ===================================================================== *)
(** ** json::JsonParser (json.cpp, lines 46-202) *)
(* ===================================================================== *)

(** The text is a [std::string_view], here the list of its characters;
    [pos] is the parser's cursor.  A read of [json_str[pos]] at or past the
    end of the view has no defined behaviour and ends the run as
    [PastEnd].  The recursion of [parse_value] through the two loops is
    bounded by a counter, which [parser] sets high enough for any text. *)

Module JsonParser.
Import Json.

(** What leaves the parser as an exception: [std::optional::value] on an
    empty optional, and [std::string_view::substr] from past the end. *)
Inductive exception :=
  | bad_optional_access
  | out_of_range.

(** How a member function ends: it returns an optional value with the
    cursor where it left it, it throws, it reads past the end of the
    text, or the counter has run out. *)
Inductive res :=
  | Ret (value : option Node) (pos : nat)
  | Throw (e : exception)
  | PastEnd
  | NoFuel.

(** The double quote, character 34. *)
Definition quote : ascii := ascii_of_nat 34.

(** [std::isspace] and [std::isdigit] in the C locale. *)
Definition isspace (c : ascii) : bool :=
  let n := nat_of_ascii c in (n =? 32) || ((9 <=? n) && (n <=? 13)).

Definition isdigit (c : ascii) : bool :=
  let n := nat_of_ascii c in (48 <=? n) && (n <=? 57).

(** The number of leading characters of [l] that satisfy [f]: how far a
    loop [while (i < size && f(json_str[i])) i++] moves [i]. *)
Fixpoint span (f : ascii → bool) (l : list ascii) : nat :=
  match l with
  | c :: l' => if f c then S (span f l') else 0
  | [] => 0
  end.

(** [json_str.substr(pos, n)], which throws when [pos > size]. *)
Definition substr (json_str : list ascii) (pos n : nat) : option (list ascii) :=
  if decide (length json_str < pos) then None
  else Some (take n (drop pos json_str)).

(** [pos < json_str.size() && json_str[pos] == c] *)
Definition at_char (c : ascii) (json_str : list ascii) (pos : nat) : bool :=
  match json_str !! pos with
  | Some c' => Ascii.eqb c' c
  | None => false
  end.

(** [pos < json_str.size() && json_str[pos] != c] *)
Definition before_char (c : ascii) (json_str : list ascii) (pos : nat) : bool :=
  match json_str !! pos with
  | Some c' => negb (Ascii.eqb c' c)
  | None => false
  end.

(** lines 50-54 *)
Definition parse_whitespace (json_str : list ascii) (pos : nat) : nat :=
  pos + span isspace (drop pos json_str).

(** A keyword parser, lines 56-78: [parse_null], [parse_true], [parse_false]. *)
Definition parse_word (word : string) (value : Node)
    (json_str : list ascii) (pos : nat) : res :=
  match substr json_str pos (String.length word) with
  | None => Throw out_of_range
  | Some w =>
      if decide (w = String.list_ascii_of_string word)
      then Ret (Some value) (pos + String.length word)
      else Ret None pos
  end.

Definition parse_null := parse_word "null" Null.
Definition parse_true := parse_word "true" (Bool true).
Definition parse_false := parse_word "false" (Bool false).

(** line 82: the characters [parse_number] collects. *)
Definition is_num_char (c : ascii) : bool :=
  isdigit c || Ascii.eqb c "e" || Ascii.eqb c ".".

(** line 90: [is_Float] *)
Definition is_Float (number : list ascii) : bool :=
  existsb (λ c, Ascii.eqb c ".") number || existsb (λ c, Ascii.eqb c "e") number.

(** [std::stoi] on a string of digits, the only strings line 104 passes:
    [None] when it throws, on the empty string ([invalid_argument]) and on
    a value that does not fit [int] ([out_of_range]). *)
Definition stoi (number : list ascii) : option Z :=
  d ← DecimalString.NilZero.uint_of_string (String.string_of_list_ascii number);
  let v := Z.of_N (N.of_uint d) in
  if decide (v ≤ 2147483647)%Z then Some v else None.

Section with_stod.

(** [std::stod], with [None] when it throws. *)
Context (stod : list ascii → option float).

(** lines 80-111 *)
Definition parse_number (json_str : list ascii) (pos : nat) : res :=
  let endpos := pos + span is_num_char (drop pos json_str) in
  match substr json_str pos (endpos - pos) with
  | None => Throw out_of_range
  | Some number =>
      if is_Float number then
        match stod number with
        | Some ret => Ret (Some (Float ret)) endpos
        | None => Ret None endpos
        end
      else
        match stoi number with
        | Some ret => Ret (Some (Int ret)) endpos
        | None => Ret None endpos
        end
  end.

(** The index of the first double quote of [l]. *)
Fixpoint find_quote (l : list ascii) : option nat :=
  match l with
  | c :: l' => if Ascii.eqb c quote then Some 0 else S <$> find_quote l'
  | [] => None
  end.

(** lines 113-122.  The loop of line 116 tests [pos], not [endpos],
    against the size: with the cursor inside the text it reads on until
    it meets a quote, past the end if there is none. *)
Definition parse_string (json_str : list ascii) (pos : nat) : res :=
  let pos := S pos in
  let scan :=
    if decide (pos < length json_str)
    then find_quote (drop pos json_str)
    else Some 0 in
  match scan with
  | None => PastEnd
  | Some k =>
      let endpos := pos + k in
      match substr json_str pos (endpos - pos) with
      | None => Throw out_of_range
      | Some str => Ret (Some (String (String.string_of_list_ascii str))) (endpos + 1)
      end
  end.

(** lines 130-134, 145-152 and 155-159: skip blanks, one separator if there is
    one, and blanks again. *)
Definition skip_separator (c : ascii) (json_str : list ascii) (pos : nat) : nat :=
  let pos := parse_whitespace json_str pos in
  let pos := if at_char c json_str pos then S pos else pos in
  parse_whitespace json_str pos.

(** lines 166-184 [parse_value], with the loops of [parse_array] (lines
    127-135) and [parse_object] (lines 143-160). *)
Fixpoint parse_value (fuel : nat) (json_str : list ascii) (pos : nat) {struct fuel} : res :=
  match fuel with
  | 0 => NoFuel
  | S fuel =>
      let pos := parse_whitespace json_str pos in
      match json_str !! pos with
      | None => PastEnd
      | Some c =>
          if Ascii.eqb c "n" then parse_null json_str pos
          else if Ascii.eqb c "t" then parse_true json_str pos
          else if Ascii.eqb c "f" then parse_false json_str pos
          else if Ascii.eqb c quote then parse_string json_str pos
          else if Ascii.eqb c "[" then array_loop fuel json_str [] (S pos)
          else if Ascii.eqb c "{" then object_loop fuel json_str ∅ (S pos)
          else parse_number json_str pos
      end
  end
with array_loop (fuel : nat) (json_str : list ascii) (arr : list Node) (pos : nat)
    {struct fuel} : res :=
  match fuel with
  | 0 => NoFuel
  | S fuel =>
      if before_char "]" json_str pos then
        match parse_value fuel json_str pos with
        | Ret None _ => Throw bad_optional_access
        | Ret (Some value) pos =>
            array_loop fuel json_str (arr ++ [value]) (skip_separator "," json_str pos)
        | Throw e => Throw e
        | PastEnd => PastEnd
        | NoFuel => NoFuel
        end
      else Ret (Some (Array arr)) (S pos)
  end
with object_loop (fuel : nat) (json_str : list ascii) (obj : gmap string Node) (pos : nat)
    {struct fuel} : res :=
  match fuel with
  | 0 => NoFuel
  | S fuel =>
      if before_char "}" json_str pos then
        match parse_value fuel json_str pos with
        | Ret None _ => Throw bad_optional_access
        | Ret (Some (String key)) pos =>
            let pos := skip_separator ":" json_str pos in
            match parse_value fuel json_str pos with
            | Ret None _ => Throw bad_optional_access
            | Ret (Some val) pos =>
                object_loop fuel json_str (<[key := val]> obj)
                  (skip_separator "," json_str pos)
            | Throw e => Throw e
            | PastEnd => PastEnd
            | NoFuel => NoFuel
            end
        | Ret (Some _) pos => Ret None (parse_whitespace json_str pos)
        | Throw e => Throw e
        | PastEnd => PastEnd
        | NoFuel => NoFuel
        end
      else Ret (Some (Object obj)) (S pos)
  end.

(** lines 124-138 and 140-164, entered with the cursor on the bracket. *)
Definition parse_array (fuel : nat) (json_str : list ascii) (pos : nat) : res :=
  array_loop fuel json_str [] (S pos).

Definition parse_object (fuel : nat) (json_str : list ascii) (pos : nat) : res :=
  object_loop fuel json_str ∅ (S pos).

(** lines 186-193 *)
Definition parse (fuel : nat) (json_str : list ascii) : res :=
  parse_value fuel json_str (parse_whitespace json_str 0).

(** lines 199-202.  The counter is one no text exhausts. *)
Definition parser (json_str : list ascii) : res :=
  parse (2 * length json_str + 2) json_str.

End with_stod.
End JsonParser.

(* ===================================================================== *)
(** ** json::JsonGenerator (json.cpp, lines 205-273) *)
(* ===================================================================== *)

Module JsonGenerator.
Import Json.

(** [std::to_string] of an [int64_t]: its decimal digits, after a minus
    sign when it is negative. *)
Definition to_string (i : Z) : list ascii :=
  String.list_ascii_of_string (DecimalString.NilZero.string_of_int (Z.to_int i)).

(** lines 236-241: the string between two quotes, as it is. *)
Definition generate_string (str : string) : list ascii :=
  JsonParser.quote :: String.list_ascii_of_string str ++ [JsonParser.quote].

(** [json_str.pop_back()] *)
Definition pop_back (json_str : list ascii) : list ascii := removelast json_str.

(** lines 242-253, on the texts of the elements. *)
Definition generate_array_of (parts : list (list ascii)) : list ascii :=
  let json_str := foldl (λ json_str part, (json_str ++ part) ++ [","%char]) ["["%char] parts in
  let json_str := match parts with [] => json_str | _ => pop_back json_str end in
  json_str ++ ["]"%char].

(** lines 254-267, on the keys and the texts of their nodes. *)
Definition generate_object_of (entries : list (string * list ascii)) : list ascii :=
  let json_str :=
    foldl (λ json_str entry,
             (((json_str ++ generate_string entry.1) ++ [":"%char]) ++ entry.2) ++ [","%char])
          ["{"%char] entries in
  let json_str := match entries with [] => json_str | _ => pop_back json_str end in
  json_str ++ ["}"%char].

(** A [std::map<std::string, _>] is walked in the order of its keys,
    which compares strings character by character. *)
Fixpoint insert_entry {A} (e : string * A) (l : list (string * A)) : list (string * A) :=
  match l with
  | [] => [e]
  | e' :: l' => if String.leb e.1 e'.1 then e :: l else e' :: insert_entry e l'
  end.

Definition sorted_entries {A} (m : gmap string A) : list (string * A) :=
  foldr insert_entry [] (map_to_list m).

Section with_to_string.

(** [std::to_string] of a [double]. *)
Context (to_string_double : float → list ascii).

(** lines 207-235 *)
Fixpoint generate (node : Node) : list ascii :=
  match node with
  | Null => String.list_ascii_of_string "null"
  | Bool arg => String.list_ascii_of_string (if arg then "true" else "false")
  | Int arg => to_string arg
  | Float arg => to_string_double arg
  | String arg => generate_string arg
  | Array arg => generate_array_of (generate <$> arg)
  | Object arg => generate_object_of (sorted_entries (generate <$> arg))
  end.

Definition generate_array (array : list Node) : list ascii :=
  generate_array_of (generate <$> array).

Definition generate_object (object : gmap string Node) : list ascii :=
  generate_object_of (sorted_entries (generate <$> object)).

End with_to_string.
End JsonGenerator.

(* ===================================================================== *)
(** ** main of json.cpp, lines 293-294 *)
(* ===================================================================== *)

Module JsonMain.
Import Json.

(** [x[key].push(rhs)]: [push] works on the node the reference returned by
    the index points to, inside [x].  The result is [x] after the
    statement and what the statement threw, if it threw. *)
Definition push_at_key (key : string) (rhs : Node) (x : Node) : Node * option exception :=
  match index_key key x with
  | Throw e => (x, Some e)
  | Ok (x', referent) =>
      match push rhs referent with
      | Throw e => (x', Some e)
      | Ok referent' =>
          match x' with
          | Object object => (Object (<[key := referent']> object), None)
          | _ => (x', None)
          end
      end
  end.

End JsonMain.

(** ** Vocabulary of the proofs about the text *)

Module JsonText.
Import Json.

(** A string without a double quote. *)
Definition quote_free (str : string) : bool :=
  forallb (λ c, negb (Ascii.eqb c JsonParser.quote)) (String.list_ascii_of_string str).

(** The nodes whose text the parser reads back: no [double], integers
    from 0 to [INT_MAX], and no double quote inside a string or a key. *)
Fixpoint readable (node : Node) : bool :=
  match node with
  | Null | Bool _ => true
  | Int i => bool_decide (0 ≤ i ≤ 2147483647)%Z
  | Float _ => false
  | String str => quote_free str
  | Array array => forallb readable array
  | Object object =>
      bool_decide (map_Forall (λ key ok, quote_free key = true ∧ ok = true)
                              (readable <$> object))
  end.

(** A text of blanks. *)
Definition blank (text : list ascii) : bool := forallb JsonParser.isspace text.

(** The texts [parts] with [sep] between one and the next. *)
Fixpoint join (sep : list ascii) (parts : list (list ascii)) : list ascii :=
  match parts with
  | [] => []
  | [part] => part
  | part :: parts => part ++ sep ++ join sep parts
  end.

(** What stands between two texts: the character [c], or nothing in its
    place, with [pad] on either side. *)
Definition separator (c : ascii) (mark : bool) (pad : list ascii) : list ascii :=
  pad ++ (if mark then [c] else []) ++ pad.

(** The text of a key with its value, [col] between them. *)
Definition entry_text (col : list ascii) (entry : string * list ascii) : list ascii :=
  JsonGenerator.generate_string entry.1 ++ col ++ entry.2.

(** A text that does not go on with a character of a number. *)
Definition ends_number (post : list ascii) : bool :=
  match post with
  | c :: _ => negb (JsonParser.is_num_char c)
  | [] => true
  end.

(** A text that starts with a character that is no blank, no comma and
    no colon and closes neither an array nor an object, as the text of
    every value does. *)
Definition opens_value (text : list ascii) : bool :=
  match text with
  | c :: _ =>
      negb (JsonParser.isspace c) && negb (Ascii.eqb c "]") && negb (Ascii.eqb c "}")
      && negb (Ascii.eqb c ",") && negb (Ascii.eqb c ":")
  | [] => false
  end.

(** A text that is at its end or goes on with the character [close]. *)
Definition closed_by (close : ascii) (tail : list ascii) : bool :=
  match tail with
  | c :: _ => Ascii.eqb c close
  | [] => true
  end.

(** What a loop has before it: nothing but [tail] when no part is left,
    and else the parts, joined, with [pad] before [tail]. *)
Definition body (sep pad : list ascii) (parts : list (list ascii))
    (tail : list ascii) : list ascii :=
  match parts with
  | [] => tail
  | _ => join sep parts ++ pad ++ tail
  end.

(** What follows the first of the parts [part :: parts] of a [body]. *)
Definition after_part (sep pad : list ascii) (parts : list (list ascii))
    (tail : list ascii) : list ascii :=
  match parts with
  | [] => pad ++ tail
  | _ => sep ++ body sep pad parts tail
  end.

(** [parse_value] reads [text] as [node], whatever is around the text:
    with the cursor at the start of the text it returns [node] and leaves
    the cursor at the end of the text. *)
Definition reads (stod : list ascii → option float)
    (text : list ascii) (node : Node) : Prop :=
  ∀ pre post, ends_number post = true →
    ∃ fuel,
      JsonParser.parse_value stod fuel (pre ++ text ++ post) (length pre)
      = JsonParser.Ret (Some node) (length (pre ++ text)).

(** ** Texts with blanks

    The text of a node as [generate] writes it, but with the blanks [pad]
    inside the brackets and around every comma and colon, and with or
    without the commas and the colons themselves. *)
Section spaced.
Context (pad : list ascii) (commas colons : bool).
Context (to_string_double : float → list ascii).

Definition spaced_array_of (parts : list (list ascii)) : list ascii :=
  "["%char :: match parts with
              | [] => ["]"%char]
              | _ => pad ++ body (separator "," commas pad) pad parts ["]"%char]
              end.

Definition spaced_object_of (entries : list (string * list ascii)) : list ascii :=
  "{"%char :: match entries with
              | [] => ["}"%char]
              | _ => pad ++ body (separator "," commas pad) pad
                            (entry_text (separator ":" colons pad) <$> entries)
                            ["}"%char]
              end.

Fixpoint spaced (node : Node) : list ascii :=
  match node with
  | Array array => spaced_array_of (spaced <$> array)
  | Object object =>
      spaced_object_of (JsonGenerator.sorted_entries (spaced <$> object))
  | _ => JsonGenerator.generate to_string_double node
  end.

End spaced.

(** The blanks [pad] keep two values apart where there is no comma. *)
Definition well_spaced (pad : list ascii) (commas : bool) : bool :=
  blank pad && (commas || match pad with [] => false | _ => true end).

(** The number of constructors of a node. *)
Fixpoint node_size (node : Node) : nat :=
  match node with
  | Array array => S (foldr (λ n acc, n + acc) 0 (node_size <$> array))
  | Object object => S (map_fold (λ _ n acc, n + acc) 0 (node_size <$> object))
  | _ => 1
  end.

End JsonText.

(* ===================================================================== *)
(** * Runs *)
(* ===================================================================== *)

Section runs.
Import Pool.
Open Scope string_scope.

(** A pool of one worker and a [main] that submits nothing: the worker
    takes the sentinel, runs it, and finds the flag set when it comes back
    to the head of its loop. *)
Definition short_schedule : list label :=
  [ Main 0; Main 0; Main 0; Main 0; Main 0;   (* ~ThreadPool: submit of the sentinel *)
    Worker 0; Worker 0; Worker 0; Worker 0;   (* line 49, lock, predicate, unlock *)
    Worker 0; Worker 0;                       (* pop the sentinel, run it *)
    Main 0; Main 0;                           (* f.get() returns, is_shut_down = true *)
    Worker 0;                                 (* line 49 again: leave the loop *)
    Main 0; Main 0; Main 0 ].                 (* notify_all, join, destroy *)

Definition short_start : ThreadPool (V:=nat) (E:=string) := ThreadPool_ctor 1 [].

Definition short_final : ThreadPool (V:=nat) (E:=string) :=
  Eval vm_compute in default short_start (run 0 short_schedule short_start).

(** A pool of two workers; [main] submits a callable that returns 7 and
    one that throws. *)
Definition demo_prog : list (callable (V:=nat) (E:=string)) :=
  [ (λ _, Returned 7); (λ _, Raised "boom") ].

Definition demo_schedule : list label :=
  [ Worker 0; Worker 0; Worker 0; Worker 0;            (* worker 0 goes to sleep *)
    Worker 1; Worker 1; Worker 1; Worker 1;            (* worker 1 goes to sleep *)
    Main 0; Main 0; Main 0; Main 0; Main 0;            (* submit task 0, waking worker 0 *)
    Worker 0; Worker 0; Worker 0; Worker 0; Worker 0;  (* worker 0 runs task 0 *)
    Main 0; Main 0; Main 0; Main 1; Main 0;            (* submit task 1, waking worker 1 *)
    Worker 1; Worker 1; Worker 1; Worker 1; Worker 1;  (* worker 1 runs task 1 *)
    Main 0; Main 0; Main 0; Main 0; Main 0;            (* the destructor submits the sentinel *)
    Worker 0; Worker 0; Worker 0; Worker 0; Worker 0; Worker 0; (* worker 0 runs it *)
    Worker 1; Worker 1; Worker 1; Worker 1;            (* worker 1 goes to sleep *)
    Main 0; Main 0; Main 0;                            (* get, flag, notify_all *)
    Worker 0;                                          (* worker 0 leaves *)
    Worker 1; Worker 1; Worker 1; Worker 1; Worker 1;  (* worker 1 pops nothing, leaves *)
    Main 0; Main 0; Main 0 ].                          (* join, join, destroy *)

Definition demo_start : ThreadPool (V:=nat) (E:=string) := ThreadPool_ctor 2 demo_prog.

Definition demo_final : ThreadPool (V:=nat) (E:=string) :=
  Eval vm_compute in default demo_start (run 0 demo_schedule demo_start).

(** The same run, stopped where [main] enters its first [submit]; where
    it is about to signal the first job with both workers asleep; and
    where worker 1 holds the job that throws. *)
Definition demo_submitting : ThreadPool (V:=nat) (E:=string) :=
  Eval vm_compute in default demo_start (run 0 (take 9 demo_schedule) demo_start).

Definition demo_notifying : ThreadPool (V:=nat) (E:=string) :=
  Eval vm_compute in default demo_start (run 0 (take 11 demo_schedule) demo_start).

Definition demo_notified : ThreadPool (V:=nat) (E:=string) :=
  Eval vm_compute in default demo_start (run 0 (take 12 demo_schedule) demo_start).

Definition demo_running : ThreadPool (V:=nat) (E:=string) :=
  Eval vm_compute in default demo_start (run 0 (take 27 demo_schedule) demo_start).

(** Worker 0 has found nothing to do and is about to block, the mutex
    still in its hands. *)
Definition demo_locked : ThreadPool (V:=nat) (E:=string) :=
  Eval vm_compute in default demo_start (run 0 (take 3 demo_schedule) demo_start).

(** One worker, no submission from [main]: the worker finds the queue
    empty in the wait predicate; before it blocks, the destructor pushes
    the sentinel and notifies nobody; then the worker blocks. *)
Definition lost_schedule : list label :=
  [ Worker 0; Worker 0; Worker 0;               (* line 49, lock, predicate: false *)
    Main 0; Main 0; Main 0; Main 0; Main 0;     (* submit of the sentinel *)
    Worker 0 ].                                 (* the worker blocks *)

End runs.

(** A node as [main] of json.cpp works on: an object with an array under
    a key. *)
Definition sample_node : Json.Node :=
  Json.Object
    (list_to_map
       [ ("configurations"%string, Json.Array [Json.Bool true; Json.Null; Json.Int 7]);
         ("version"%string, Json.String "1.0") ]).
(* ===================================================================== *)
(** * Properties of safe_queue *)
(* ===================================================================== *)

Section safe_queue_facts.
Context {T : Type}.
Implicit Types (q : list T) (t : T).

Lemma run_spec (cs : list (SafeQueue.call T)) : ∀ t q,
  (SafeQueue.run cs t q).1 ++ (SafeQueue.run cs t q).2 = q ++ SafeQueue.pushed cs.
Proof.
  induction cs as [|[x|] cs IH]; intros t q; cbn [SafeQueue.run].
  - cbn. by rewrite app_nil_r.
  - rewrite IH. unfold SafeQueue.push. by rewrite <- app_assoc.
  - destruct q as [|front q']; cbn [SafeQueue.pop].
    + specialize (IH t []). destruct (SafeQueue.run cs t []) as [out qf]. exact IH.
    + specialize (IH front q').
      destruct (SafeQueue.run cs front q') as [out qf]. cbn in *. by f_equal.
Qed.

End safe_queue_facts.

(* ===================================================================== *)
(** * Properties of the pool *)
(* ===================================================================== *)

Import Pool.

Section pool_facts.
Context {V E : Type} (void : V).
Abbreviation ThreadPool := (ThreadPool (V:=V) (E:=E)).
Implicit Types (s : ThreadPool) (w p n : nat) (pc : worker_pc).
Implicit Types (h : list (packaged_task (V:=V) (E:=E))).

Lemma reachable_ind (P : ThreadPool → Prop) n prog :
  P (ThreadPool_ctor n prog) →
  (∀ s l s', reachable void n prog s → P s → exec void l s = Some s' → P s') →
  ∀ s, reachable void n prog s → P s.
Proof.
  intros H0 Hstep. apply (rtc_ind_r P); [done|].
  intros s1 s2 Hr [l Hl] IH. by eapply Hstep.
Qed.

Lemma run_reachable ls n prog s s' :
  reachable void n prog s → run void ls s = Some s' → reachable void n prog s'.
Proof.
  revert s. induction ls as [|l ls IH]; intros s Hr; cbn.
  - by intros [= <-].
  - destruct (exec void l s) as [s1|] eqn:Hl; [|done]. cbn. apply IH.
    eapply rtc_r; [exact Hr|]. by exists l.
Qed.

Lemma notify_one_cases pick ths ths' :
  notify_one pick ths = Some ths' →
  (ths' = ths ∧ ∀ w, ths !! w ≠ Some WBlocked)
  ∨ (ths !! pick = Some WBlocked ∧ ths' = <[pick := WAcquire]> ths).
Proof.
  unfold notify_one. destruct (forallb _ ths) eqn:Hall.
  - intros [= <-]. left. split; [done|]. intros w Hw.
    rewrite forallb_forall in Hall. apply list_elem_of_lookup_2, list_elem_of_In in Hw.
    by apply Hall in Hw.
  - destruct (ths !! pick) as [[]|] eqn:Hp; try done. intros [= <-]. by right.
Qed.

Lemma exec_action l s s' : exec void l s = Some s' → action void s s'.
Proof.
  destruct l as [pick|w|w]; cbn [exec].
  - unfold main_step.
    destruct (main s) as [[|f rest]|f ret|p ret|p ret|p [rest|]|f| | |i| |] eqn:Hmain;
      try (intros [= <-]; by econstructor).
    + destruct (notify_one pick (threads s)) as [ths|] eqn:Hn; [|done].
      cbn. intros [= <-].
      apply notify_one_cases in Hn as [[-> Hno]|[Hp ->]]; by econstructor.
    + destruct (future_get f (heap s)) as [[v|e]|] eqn:Hg; [| |done];
        intros [= <-]; by econstructor.
    + destruct (threads s !! i) as [[]|] eqn:Hi; try done;
        intros [= <-]; by econstructor.
  - unfold worker_step. destruct (threads s !! w) as [pc|] eqn:Hpc; [|done]. cbn.
    destruct pc; try done.
    + destruct (is_shut_down s) eqn:Hf; intros [= <-]; by econstructor.
    + destruct (_m s) eqn:Hm; [done|]. intros [= <-]. by econstructor.
    + destruct (is_shut_down s || negb (SafeQueue.empty (q s))) eqn:Hb;
        intros [= <-]; by econstructor.
    + intros [= <-]. by econstructor.
    + intros [= <-]. by econstructor.
    + destruct (q s) as [|func q'] eqn:Hq; cbn; intros [= <-]; by econstructor.
    + destruct (call_function func (heap s)) as [[|what] heap'] eqn:Hc;
        intros [= <-]; by econstructor.
  - unfold spurious_wakeup.
    destruct (threads s !! w) as [[]|] eqn:Hpc; try done.
    intros [= <-]. by econstructor.
Qed.

Lemma notify_all_lookup ths w pc :
  notify_all ths !! w = Some pc →
  ths !! w = Some pc ∨ (ths !! w = Some WBlocked ∧ pc = WAcquire).
Proof.
  unfold notify_all. rewrite list_lookup_fmap.
  destruct (ths !! w) as [pc0|]; [|done]. cbn. intros [= <-].
  destruct pc0; cbn; auto.
Qed.

Lemma nobody_blocked (ths : list worker_pc) :
  (∀ w, ths !! w ≠ Some WBlocked) → forallb (λ pc, negb (is_blocked pc)) ths = true.
Proof.
  intros Hno. apply forallb_forall. intros pc Hin%list_elem_of_In.
  apply list_elem_of_lookup in Hin as [w Hw]. destruct pc; try done.
  by apply Hno in Hw.
Qed.

(** The rules are exactly the steps of [exec]. *)
Lemma action_exec s s' : action void s s' → ∃ l, exec void l s = Some s'.
Proof.
  intros Hact.
  destruct Hact as [ f rest Hm | Hm | f ret Hm | p ret Hm | p ret Hm Hno | p ret w' Hm Hw'
                   | p rest Hm | p Hm | f v Hm Hg | f e Hm Hg | Hm | Hm | i Hm Hi | i Hm Hi
                   | w' Hw' Hf | w' Hw' Hf | w' Hw' Hl | w' Hw' Hb | w' Hw' Hb | w' Hw' | w' Hw'
                   | w' func q' Hw' Hqe | w' Hw' Hqe | w' func h' Hw' Hc | w' func what h' Hw' Hc
                   | w' Hw' ].
  all: try (exists (Main 0); cbn [exec]; unfold main_step; rewrite Hm;
            rewrite ?Hg, ?Hi; reflexivity).
  all: try (exists (Worker w'); cbn [exec]; unfold worker_step; rewrite Hw'; cbn;
            rewrite ?Hf, ?Hl, ?Hb, ?Hqe, ?Hc; reflexivity).
  - exists (Main 0). cbn [exec]. unfold main_step, notify_one. rewrite Hm.
    by rewrite (nobody_blocked _ Hno).
  - exists (Main w'). cbn [exec]. unfold main_step, notify_one. rewrite Hm.
    destruct (forallb _ (threads s)) eqn:Hall.
    + rewrite forallb_forall in Hall.
      apply list_elem_of_lookup_2, list_elem_of_In, Hall in Hw'. done.
    + by rewrite Hw'.
  - exists (Spurious w'). cbn [exec]. unfold spurious_wakeup. by rewrite Hw'.
Qed.

Lemma length_notify_all ths : length (notify_all ths) = length ths.
Proof. unfold notify_all. by rewrite length_fmap. Qed.

Lemma reachable_action_ind (P : ThreadPool → Prop) n prog :
  P (ThreadPool_ctor n prog) →
  (∀ s s', reachable void n prog s → P s → action void s s' → P s') →
  ∀ s, reachable void n prog s → P s.
Proof.
  intros H0 Hstep. apply reachable_ind; [done|].
  intros s l s' Hr HP Hex. eapply Hstep; eauto using exec_action.
Qed.

Lemma goto_lookup (ths : list (worker_pc)) w pc w0 pc0 :
  <[w:=pc]> ths !! w0 = Some pc0 →
  (w0 = w ∧ pc0 = pc) ∨ (w0 ≠ w ∧ ths !! w0 = Some pc0).
Proof.
  intros [(-> & -> & _)|[Hne Hl]]%list_lookup_insert_Some; [by left|right; done].
Qed.

Lemma lookup_goto_eq (ths : list worker_pc) w pc pc' :
  ths !! w = Some pc → <[w:=pc']> ths !! w = Some pc'.
Proof. intros Hl. apply list_lookup_insert_eq. by eapply lookup_lt_Some. Qed.

Lemma lookup_goto_ne (ths : list worker_pc) w w0 pc' :
  w0 ≠ w → <[w:=pc']> ths !! w0 = ths !! w0.
Proof. intros Hne. by apply list_lookup_insert_ne. Qed.

Lemma notify_all_locked ths w pc :
  ths !! w = Some pc → locked_pc pc = true → notify_all ths !! w = Some pc.
Proof.
  intros Hl Hlk. unfold notify_all. rewrite list_lookup_fmap, Hl. by destruct pc.
Qed.

Ltac lookups :=
  repeat match goal with
  | H : <[_:=_]> _ !! _ = Some _ |- _ => apply goto_lookup in H as [[-> ->]|[? H]]
  | H : notify_all _ !! _ = Some _ |- _ => apply notify_all_lookup in H as [H|[H ->]]
  end.

Lemma lock_inv_reachable n prog s : reachable void n prog s → lock_inv n s.
Proof.
  apply (reachable_action_ind (lock_inv n)).
  - split_and!; cbn; [by rewrite length_replicate| |done].
    intros w pc [-> _]%lookup_replicate. done.
  - intros s1 s2 _ (Hlen & Hown & Hm) Hact.
    destruct Hact; (split_and!; cbn; [by rewrite ?length_insert, ?length_notify_all | |]).
    all: try done.
    all: try (intros w0 pc0 Hl Hlk; lookups; try done;
              try (by eapply Hown);
              try (apply Hown in Hl; [|done]; congruence);
              match goal with
              | Hw : threads _ !! ?w = Some _, Hw0 : threads _ !! ?w0 = Some _, Hne : ?w0 ≠ ?w |- _ =>
                  apply Hown in Hw; [|done]; apply Hown in Hw0; [|done]; congruence
              end).
    all: intros t Ht; try done; try (injection Ht as <-; eexists _, _; split; [done|];
                           split; [by eapply lookup_goto_eq|done]).
    all: destruct (Hm t Ht) as (w1 & pc1 & -> & Hl1 & Hlk1).
    all: try (eexists _, _; split; [done|]; split; [by apply notify_all_locked|done]).
    all: match goal with
         | Hw : threads _ !! ?w = Some ?c |- _ =>
             assert_fails (is_var c);
             destruct (decide (w1 = w)) as [->|Hne];
             [ rewrite Hw in Hl1; injection Hl1 as <-; cbn in Hlk1;
               first [ done
                     | eexists _, _; split; [done|]; split; [by eapply lookup_goto_eq|done] ]
             | exists w1, pc1; split; [done|]; split; [by rewrite lookup_goto_ne|done] ]
         end.
Qed.

(** Case analysis on an action, with the names used throughout: [w'] is the
    worker that moves, [Hw'] its program counter, [Hm] the owner's. *)
Ltac action_cases Hact :=
  destruct Hact as [ f rest Hm | Hm | f ret Hm | p ret Hm | p ret Hm Hno | p ret w' Hm Hw'
                   | p rest Hm | p Hm | f v Hm Hg | f e Hm Hg | Hm | Hm | i Hm Hi | i Hm Hi
                   | w' Hw' Hf | w' Hw' Hf | w' Hw' Hl | w' Hw' Hb | w' Hw' Hb | w' Hw' | w' Hw'
                   | w' func q' Hw' Hqe | w' Hw' Hqe | w' func h' Hw' Hc | w' func what h' Hw' Hc
                   | w' Hw' ].


(** ** The heap of tasks *)

Lemma call_function_done func (h h' : list (packaged_task (V:=V) (E:=E))) :
  call_function func h = (Done, h') →
  ∃ p t, func = WrapperFunc p ∧ h !! p = Some t ∧ shared_state t = None
         ∧ h' = <[p := {| fn := fn t; shared_state := Some (fn t ()) |}]> h.
Proof.
  destruct func as [|p]; cbn; [done|]. unfold invoke.
  destruct (h !! p) as [t|] eqn:Hp; [|done].
  destruct (shared_state t) eqn:Hs; [done|]. intros [= <-]. by exists p, t.
Qed.

Lemma call_function_threw func (h h' : list (packaged_task (V:=V) (E:=E))) what :
  call_function func h = (Threw what, h') →
  h' = h ∧ ∀ p t, func = WrapperFunc p → h !! p = Some t → shared_state t ≠ None.
Proof.
  destruct func as [|p]; cbn; [by intros [= _ <-]|]. unfold invoke.
  destruct (h !! p) as [t|] eqn:Hp.
  - destruct (shared_state t) eqn:Hs; [|done]. intros [= _ <-].
    split; [done|]. intros ? ? [= <-]. rewrite Hp. intros [= <-]. by rewrite Hs.
  - intros [= _ <-]. split; [done|]. intros ? ? [= <-]. by rewrite Hp.
Qed.

Lemma heap_inv_reachable n prog s : reachable void n prog s → heap_inv void prog s.
Proof.
  apply (reachable_action_ind (heap_inv void prog)).
  - split_and!; cbn; done.
  - intros s1 s2 _ (Hfn & Hcur & Hout) Hact.
    destruct Hact as [ | | f ret Hm | | | | | | | | | | | | | | | | | | | |
                       | w func h' Hw Hc | w func what h' Hw Hc | ];
      try (split_and!; cbn; [ | | exact Hout ];
           [ first [ exact Hfn | by rewrite H in Hfn ]
           | first [ exact Hcur | intros p0 Hp0; apply Hcur; by rewrite H | done ] ]).
    + (* make *)
      rewrite Hm in Hfn, Hcur. split_and!; cbn.
      * rewrite fmap_app. cbn. rewrite <- app_assoc. by destruct ret.
      * intros p0 [= <-]. rewrite length_app. cbn. lia.
      * intros p0 t o [Hl|[_ Hl]]%lookup_app_Some; [by eapply Hout|].
        apply list_lookup_singleton_Some in Hl as [_ <-]. done.
    + (* run, done *)
      apply call_function_done in Hc as (p & t & -> & Hp & Hs & ->).
      split_and!; cbn.
      * rewrite list_fmap_insert. cbn. rewrite list_insert_id; [done|].
        by rewrite list_lookup_fmap, Hp.
      * by rewrite length_insert.
      * intros p0 t0 o [(-> & <- & _)|[Hne Hl]]%list_lookup_insert_Some; cbn.
        -- by intros [= <-].
        -- by eapply Hout.
    + (* run, threw *)
      apply call_function_threw in Hc as [-> _]. done.
Qed.


(** ** The jobs in flight *)

Lemma pending_app h t p : pending h p → pending (h ++ [t]) p.
Proof.
  intros (t0 & Hl & Hs). exists t0. split; [|done].
  by apply lookup_app_l_Some.
Qed.

Lemma pending_insert_ne h t p p0 : p ≠ p0 → pending h p → pending (<[p0 := t]> h) p.
Proof.
  intros Hne (t0 & Hl & Hs). exists t0. split; [|done].
  by rewrite list_lookup_insert_ne.
Qed.

Lemma pending_call_function func h p :
  pending h p → func = WrapperFunc p →
  ∃ t, h !! p = Some t ∧ shared_state t = None
       ∧ call_function func h
         = (Done, <[p := {| fn := fn t; shared_state := Some (fn t ()) |}]> h).
Proof.
  intros (t & Hl & Hs) ->. exists t. split_and!; [done..|].
  cbn. unfold invoke. by rewrite Hl, Hs.
Qed.

Lemma run_lookup_goto (ths : list worker_pc) w pc w0 func :
  is_run pc = false → <[w:=pc]> ths !! w0 = Some (WRun func) →
  w0 ≠ w ∧ ths !! w0 = Some (WRun func).
Proof. intros Hpc [[-> <-]|[Hne Hl]]%goto_lookup; [done|by split]. Qed.

Lemma run_lookup_notify_all ths w0 func :
  notify_all ths !! w0 = Some (WRun func) → ths !! w0 = Some (WRun func).
Proof. by intros [Hl|[_ ?]]%notify_all_lookup. Qed.

Lemma jobs_inv_frame s1 s2 :
  jobs_inv s1 →
  heap s2 = heap s1 → q s2 = q s1 → issued s2 = issued s1 →
  (∀ w func, threads s2 !! w = Some (WRun func) → threads s1 !! w = Some (WRun func)) →
  (∀ p ret, main s2 = SubmitPush p ret → ∃ ret', main s1 = SubmitPush p ret') →
  jobs_inv s2.
Proof.
  intros (Hq & Hrun & Hnd & Huniq & Hpush) Hh Hqq Hi Hth Hm.
  assert (Hgood : ∀ func, good_job s1 func → good_job s2 func).
  { intros func (p & -> & Hlt & Hp). exists p. by rewrite Hh, Hi. }
  split_and!.
  - intros func. rewrite Hqq. eauto.
  - intros w func Hw%Hth. rewrite Hqq. destruct (Hrun _ _ Hw). eauto.
  - by rewrite Hqq.
  - intros w w' func Hw%Hth Hw'%Hth. eauto.
  - intros p ret [ret' Hp]%Hm. rewrite Hh. eauto.
Qed.

Lemma jobs_inv_reachable n prog s : reachable void n prog s → jobs_inv s.
Proof.
  apply (reachable_action_ind jobs_inv).
  - split_and!; cbn.
    + by intros func ?%elem_of_nil.
    + by intros w func [? _]%lookup_replicate.
    + constructor.
    + by intros w w' func [? _]%lookup_replicate.
    + done.
  - intros s1 s2 Hr Hinv Hact.
    pose proof (heap_inv_reachable _ _ _ Hr) as (_ & Hcur & _).
    destruct Hact as [ f rest Hm | Hm | f ret Hm | p ret Hm | p ret Hm Hno | p ret w Hm Hw
                     | p rest Hm | p Hm | f v Hm Hg | f e Hm Hg | Hm | Hm | i Hm Hi | i Hm Hi
                     | w Hw Hf | w Hw Hf | w Hw Hl | w Hw Hb | w Hw Hb | w Hw | w Hw
                     | w func q' Hw Hqe | w Hw Hqe | w func h' Hw Hc | w func what h' Hw Hc
                     | w Hw ].
    all: try (apply (jobs_inv_frame s1);
              [ done | done | by cbn; rewrite ?Hqe
              | unfold issued; cbn; by try (rewrite Hm)
              | cbn; first [ done | by intros w0 func0 [_ ?]%run_lookup_goto
                           | by intros w0 func0 ?%run_lookup_notify_all ]
              | cbn; first [ done | by eauto ] ]).
    all: destruct Hinv as (Hq & Hrun & Hnd & Huniq & Hpush).
    + (* make *)
      assert (Hgood : ∀ func, good_job s1 func →
                good_job (set_main (SubmitPush (length (heap s1)) ret)
                            (set_heap (heap s1 ++ [make_task f]) s1)) func).
      { intros func (p & -> & Hlt & Hp). exists p. unfold issued in *. cbn.
        rewrite Hm in Hlt. eauto using pending_app. }
      split_and!; cbn.
      * eauto.
      * intros w func Hw. destruct (Hrun _ _ Hw). eauto.
      * done.
      * done.
      * intros p ret' [= <- _]. exists (make_task f). split; [|done].
        by apply list_lookup_middle.
    + (* push *)
      specialize (Hcur p). rewrite Hm in Hcur. specialize (Hcur eq_refl).
      assert (Hold : ∀ func, good_job s1 func → ∃ p', func = WrapperFunc p' ∧ p' < p
                       ∧ pending (heap s1) p').
      { intros func (p' & -> & Hlt & Hp). unfold issued in Hlt. rewrite Hm in Hlt. eauto. }
      assert (Hgood : ∀ func, good_job s1 func →
                good_job (set_main (SubmitNotify p ret)
                  (log (EvPush p)
                     (set_q (SafeQueue.push (WrapperFunc p) (q s1)) s1))) func).
      { intros func (p' & -> & Hlt & Hp)%Hold. exists p'. unfold issued. cbn.
        split_and!; [done|lia|done]. }
      unfold SafeQueue.push. split_and!; cbn.
      * intros func [Hin| ->%list_elem_of_singleton]%elem_of_app; [eauto|].
        exists p. unfold issued. cbn. split_and!; [done|lia|]. by eapply Hpush.
      * intros w func Hw. destruct (Hrun _ _ Hw) as [Hg Hnin]. split; [eauto|].
        apply Hold in Hg as (p' & -> & Hlt & _).
        intros [Hin|[= ->]%list_elem_of_singleton]%elem_of_app; [done|lia].
      * apply NoDup_app. split_and!; [done| |apply NoDup_singleton].
        intros func (p' & -> & Hlt & _)%Hq%Hold [= ->]%list_elem_of_singleton. lia.
      * done.
      * done.
    + (* pop, a job *)
      rewrite Hqe in Hq, Hrun, Hnd. apply NoDup_cons in Hnd as [Hnin Hnd].
      assert (Hgood : ∀ func0, good_job s1 func0 →
                good_job (goto w (WRun func) (log (EvPopJob w func) (set_q q' s1))) func0).
      { intros func0 (p & -> & Hlt & Hp). by exists p. }
      split_and!; cbn.
      * intros func0 Hin. apply Hgood, Hq. by right.
      * intros w0 func0 [[-> [= ->]]|[Hne Hl]]%goto_lookup.
        -- split; [|done]. apply Hgood, Hq. by left.
        -- destruct (Hrun _ _ Hl) as [Hg Hn]. split; [eauto|].
           intros Hin. apply Hn. by right.
      * done.
      * intros w0 w1 func0 [[-> Heq0]|[Hne0 Hl0]]%goto_lookup
          [[-> Heq1]|[Hne1 Hl1]]%goto_lookup; simplify_eq; try done.
        -- destruct (Hrun _ _ Hl1) as [_ Hn]. exfalso. apply Hn. by left.
        -- destruct (Hrun _ _ Hl0) as [_ Hn]. exfalso. apply Hn. by left.
        -- eauto.
      * eauto.
    + (* run, done *)
      apply call_function_done in Hc as (p & t & -> & Hp & Hs & ->).
      assert (Hgood : ∀ func0, good_job s1 func0 → func0 ≠ WrapperFunc p →
                good_job (goto w WCheck (log (EvRun w (WrapperFunc p))
                  (set_heap (<[p := {| fn := fn t; shared_state := Some (fn t ()) |}]> (heap s1)) s1)))
                  func0).
      { intros func0 (p0 & -> & Hlt & Hp0) Hne. exists p0. split_and!; [done| |].
        - unfold issued in *. cbn. by rewrite length_insert.
        - cbn. apply pending_insert_ne; [congruence|done]. }
      destruct (Hrun _ _ Hw) as [Hgp Hnp].
      split_and!; cbn.
      * intros func0 Hin. apply Hgood; [eauto|]. by intros ->.
      * intros w0 func0 [Hne Hl]%run_lookup_goto; [|done].
        destruct (Hrun _ _ Hl) as [Hg Hn]. split; [|done].
        apply Hgood; [done|]. intros ->. apply Hne. eauto.
      * done.
      * intros w0 w1 func0 [_ Hl0]%run_lookup_goto [_ Hl1]%run_lookup_goto; eauto.
      * intros p0 ret Hm. apply pending_insert_ne; [|eauto].
        destruct Hgp as (p' & [= <-] & Hlt & _). unfold issued in Hlt.
        rewrite Hm in Hlt. lia.
    + (* run, threw: the job was pending *)
      destruct (Hrun _ _ Hw) as [(p & -> & _ & Hp) _].
      destruct (pending_call_function _ _ _ Hp eq_refl) as (t & _ & _ & Hd).
      rewrite Hd in Hc. done.
Qed.

(** No exception ever leaves a worker: a job is run once, and a
    [packaged_task] keeps what its callable throws. *)
Lemma no_crash n prog s w what :
  reachable void n prog s → threads s !! w ≠ Some (WCrashed what).
Proof.
  intros Hr. revert w what. revert s Hr.
  apply (reachable_action_ind (λ s, ∀ w what, threads s !! w ≠ Some (WCrashed what))).
  - cbn. by intros w what [? _]%lookup_replicate.
  - intros s1 s2 Hr IH Hact w0 what0.
    pose proof (jobs_inv_reachable _ _ _ Hr) as (_ & Hrun & _).
    destruct Hact as [ | | | | | | | | | | | | | | | | | | | | | |
                     | | w func what h' Hw Hc | ]; cbn; try apply IH.
    all: try (intros [[_ ?]|[_ ?]]%goto_lookup; [done|by eapply IH]).
    + intros [?|[_ ?]]%notify_all_lookup; [by eapply IH|done].
    + destruct (Hrun _ _ Hw) as [(p & -> & _ & Hp) _].
      destruct (pending_call_function _ _ _ Hp eq_refl) as (t & _ & _ & Hd).
      rewrite Hd in Hc. done.
Qed.


(** ** Shutdown *)

Lemma last_cons_Some {A} (x y : A) l :
  last (x :: l) = Some y → l = [] ∨ last l = Some y.
Proof. destruct l; cbn; auto. Qed.

Lemma pending_future_get h p : pending h p → future_get p h = None.
Proof. intros (t & Hl & Hs). unfold future_get. by rewrite Hl. Qed.

Lemma drain_inv_reachable n prog s : reachable void n prog s → drain_inv s.
Proof.
  apply (reachable_action_ind drain_inv).
  - done.
  - intros s1 s2 Hr IH Hact.
    pose proof (jobs_inv_reachable _ _ _ Hr) as (Hq & _).
    unfold drain_inv in *.
    destruct Hact as [ f rest Hm | Hm | f ret Hm | p ret Hm | p ret Hm Hno | p ret w Hm Hw
                     | p rest Hm | p Hm | f v Hm Hg | f e Hm Hg | Hm | Hm | i Hm Hi | i Hm Hi
                     | w Hw Hf | w Hw Hf | w Hw Hl | w Hw Hb | w Hw Hb | w Hw | w Hw
                     | w func q' Hw Hqe | w Hw Hqe | w func h' Hw Hc | w func what h' Hw Hc
                     | w Hw ]; cbn.
    all: try (rewrite Hm in IH).
    all: try done.
    + (* push *) destruct ret; [done|]. right. unfold SafeQueue.push. by rewrite last_snoc.
    + (* get, a value *)
      destruct IH as [?|Hlast]; [done|]. exfalso.
      apply last_Some in Hlast as [l' Hl'].
      destruct (Hq (WrapperFunc f)) as (p & [= <-] & _ & Hp).
      { rewrite Hl'. apply elem_of_app. right. by left. }
      apply pending_future_get in Hp. by rewrite Hp in Hg.
    + (* get, rethrown *)
      destruct IH as [?|Hlast]; [done|]. exfalso.
      apply last_Some in Hlast as [l' Hl'].
      destruct (Hq (WrapperFunc f)) as (p & [= <-] & _ & Hp).
      { rewrite Hl'. apply elem_of_app. right. by left. }
      apply pending_future_get in Hp. by rewrite Hp in Hg.
    + (* pop, a job *)
      rewrite Hqe in IH.
      destruct (main s1) as [| | |? []|? []| | | | | |]; try done;
        destruct IH as [?|?%last_cons_Some]; done.
    + (* pop, empty *)
      destruct (main s1) as [| | |? []|? []| | | | | |]; auto.
Qed.

Lemma flag_reachable n prog s :
  reachable void n prog s → is_shut_down s = flag_pc (main s).
Proof.
  apply (reachable_action_ind (λ s, is_shut_down s = flag_pc (main s))).
  - done.
  - intros s1 s2 _ IH Hact.
    destruct Hact; cbn; try done; try (by rewrite H in IH).
Qed.

(** A worker that has left its loop stays where it is. *)
Lemma stopped_stable s s' w :
  action void s s' → threads s !! w = Some WStopped → threads s' !! w = Some WStopped.
Proof.
  intros Hact Hw. action_cases Hact; cbn; try done.
  all: try (destruct (decide (w = w')) as [->|Hne];
            [congruence|by rewrite lookup_goto_ne]).
  unfold notify_all. by rewrite list_lookup_fmap, Hw.
Qed.

Lemma flag_monotone s s' :
  action void s s' → is_shut_down s = true → is_shut_down s' = true.
Proof. intros Hact Hf. by destruct Hact. Qed.

Lemma trace_grows s s' ev :
  action void s s' → ev ∈ trace s → ev ∈ trace s'.
Proof.
  intros Hact Hin. destruct Hact; cbn; try done;
    repeat (apply elem_of_app; left); done.
Qed.

Lemma stopped_inv_reachable n prog s : reachable void n prog s → stopped_inv s.
Proof.
  apply (reachable_action_ind stopped_inv).
  - by intros w [? _]%lookup_replicate.
  - intros s1 s2 _ IH Hact w Hw.
    assert (Hold : threads s1 !! w = Some WStopped →
              is_shut_down s2 = true ∧ ∃ locked, EvReadFlag w LoopHead locked true ∈ trace s2).
    { intros [Hf [l Hl]]%IH. split; [by eapply flag_monotone|].
      exists l. by eapply trace_grows. }
    action_cases Hact; cbn in *; try (by apply Hold).
    all: try (apply goto_lookup in Hw as [[-> Heq]|[Hne Hw]]; [try done|by apply Hold]).
    + apply notify_all_lookup in Hw as [Hw|[_ ?]]; [by apply Hold|done].
    + split; [done|]. eexists. apply elem_of_app. left. apply elem_of_app. right. by left.
Qed.

Lemma joined_inv_reachable n prog s : reachable void n prog s → joined_inv s.
Proof.
  apply (reachable_action_ind joined_inv).
  - done.
  - intros s1 s2 _ IH Hact. unfold joined_inv in *.
    pose proof (λ w, stopped_stable s1 s2 w Hact) as Hst.
    action_cases Hact; cbn in *; try done.
    all: try (rewrite Hm in IH).
    all: try (destruct (main s1); try done;
              [ intros w Hlt; by apply Hst, IH
              | by specialize (IH _ _ Hw') ]).
    + (* notify_all *) intros w Hlt. lia.
    + (* join *)
      intros w Hlt. destruct (decide (w = i)) as [->|?]; [done|]. apply IH. lia.
    + (* the loop ends *)
      intros w pc Hl.
      assert (w < i) as Hlt.
      { apply lookup_ge_None in Hi. apply lookup_lt_Some in Hl. lia. }
      apply IH in Hlt. congruence.
Qed.


(** ** The history of the owning thread *)

Lemma main_events_snoc tr ev :
  main_events (tr ++ [ev])
  = main_events tr ++ (if is_main_event ev then [ev] else []).
Proof.
  unfold main_events. rewrite filter_app. f_equal.
  rewrite filter_cons, filter_nil. by destruct (is_main_event ev).
Qed.

Lemma main_never_holds n prog s :
  reachable void n prog s → holds s MainThread = false.
Proof.
  intros (_ & _ & Hm)%lock_inv_reachable. unfold holds.
  apply bool_decide_eq_false. intros (w & pc & ? & _)%Hm. done.
Qed.

Lemma main_trace_inv_reachable n prog s :
  reachable void n prog s → main_trace_inv n prog s.
Proof.
  apply (reachable_action_ind (main_trace_inv n prog)).
  - unfold main_trace_inv. cbn. done.
  - intros s1 s2 Hr IH Hact. unfold main_trace_inv in *.
    pose proof (heap_inv_reachable _ _ _ Hr) as (_ & Hcur & _).
    pose proof (lock_inv_reachable _ _ _ Hr) as (Hlen & _).
    pose proof (main_never_holds _ _ _ Hr) as Hholds.
    action_cases Hact; cbn [trace main heap set_main set_heap log set_q set_threads
                              set_flag set_m goto];
      rewrite ?main_events_snoc; cbn [is_main_event]; rewrite ?app_nil_r;
      try (rewrite Hm in IH, Hcur); try done.
    all: rewrite <- IH; cbn [rest_events].
    + (* the scope of main ends *) cbn. by rewrite Nat.add_0_r.
    + (* make *)
      destruct ret; [|done]. cbn. by rewrite Nat.add_succ_r.
    + (* push *) rewrite <- app_assoc. by destruct ret.
    + (* notify_one *) rewrite <- app_assoc. by destruct ret.
    + (* notify_one *) rewrite <- app_assoc. by destruct ret.
    + (* return to main *) by rewrite <- (Hcur p eq_refl).
    + (* get *) by rewrite <- app_assoc.
    + (* get *) by rewrite <- app_assoc.
    + (* the flag *) by rewrite Hholds, <- app_assoc.
    + (* notify_all *) by rewrite Nat.sub_0_r, <- app_assoc.
    + (* join *)
      apply lookup_lt_Some in Hi. rewrite <- app_assoc. f_equal.
      replace (n - i) with (S (n - S i)) by lia. done.
    + (* the loop ends *)
      apply lookup_ge_None in Hi. by replace (n - i) with 0 by lia.
    + (* run *)
      apply call_function_done in Hc as (p & t & -> & _ & _ & ->).
      by rewrite length_insert.
    + by apply call_function_threw in Hc as [-> _].
Qed.

(** The destructor's own [get] cannot rethrow: the sentinel does nothing. *)
Lemma never_aborted n prog s : reachable void n prog s → main s ≠ Aborted.
Proof.
  apply (reachable_action_ind (λ s, main s ≠ Aborted)).
  - done.
  - intros s1 s2 Hr IH Hact.
    pose proof (heap_inv_reachable _ _ _ Hr) as (Hfn & Hcur & Hout).
    action_cases Hact; cbn; try done.
    exfalso. rewrite Hm in Hfn, Hcur. cbn in Hfn. rewrite app_nil_r in Hfn.
    specialize (Hcur f eq_refl).
    unfold future_get in Hg. destruct (heap s1 !! f) as [t|] eqn:Hf; [|done].
    cbn in Hg. pose proof (Hout _ _ _ Hf Hg) as Ho.
    assert (fn t = noop void) as Hnoop; [|by rewrite Hnoop in Ho].
    assert ((fn <$> heap s1) !! f = Some (noop void)) as Hl.
    { rewrite Hfn. apply lookup_app_Some. right.
      assert (length prog = f) as <-.
      { apply (f_equal length) in Hfn. rewrite length_fmap, length_app in Hfn.
        cbn in Hfn. lia. }
      split; [done|]. by rewrite Nat.sub_diag. }
    rewrite list_lookup_fmap, Hf in Hl. by injection Hl.
Qed.

(** ** The history of the flag *)

Lemma flag_accesses n prog s :
  reachable void n prog s → ∀ ev, ev ∈ trace s → flag_access_ok ev.
Proof.
  apply (reachable_action_ind (λ s, ∀ ev, ev ∈ trace s → flag_access_ok ev)).
  - by intros ev ?%elem_of_nil.
  - intros s1 s2 Hr IH Hact ev.
    pose proof (lock_inv_reachable _ _ _ Hr) as (_ & Hown & Hmx).
    pose proof (main_never_holds _ _ _ Hr) as Hholds.
    assert (Hw : ∀ w, threads s1 !! w = Some WCheck → holds s1 (WorkerThread w) = false).
    { intros w Hw. unfold holds. apply bool_decide_eq_false.
      intros (w1 & pc & [= <-] & Hl & Hlk)%Hmx. by rewrite Hw in Hl; simplify_eq. }
    assert (Hp : ∀ w, threads s1 !! w = Some WPred → holds s1 (WorkerThread w) = true).
    { intros w Hl. unfold holds. apply bool_decide_eq_true. by eapply Hown. }
    action_cases Hact; cbn; try apply IH.
    all: rewrite ?elem_of_app, ?list_elem_of_singleton.
    all: intros Hin;
      first [ destruct Hin as [[Hin| ->]| ->] | destruct Hin as [Hin| ->] ];
      try (by apply IH); cbn; eauto.
Qed.

(** ** The history of the queue *)

Lemma dequeue_order n prog s :
  reachable void n prog s → popped_jobs (trace s) ++ q s = pushed_jobs (trace s).
Proof.
  apply (reachable_action_ind (λ s, popped_jobs (trace s) ++ q s = pushed_jobs (trace s))).
  - done.
  - intros s1 s2 _ IH Hact. unfold popped_jobs, pushed_jobs in *.
    action_cases Hact; cbn; rewrite ?omap_app; cbn; rewrite ?app_nil_r; try done.
    + unfold SafeQueue.push. rewrite <- IH. by rewrite <- app_assoc.
    + rewrite <- IH, Hqe, <- app_assoc. done.
    + rewrite <- IH, Hqe. by rewrite app_nil_r.
Qed.

(** ** The history of the jobs *)

(** A job that was run has left its outcome in the shared state. *)
Lemma run_recorded n prog s :
  reachable void n prog s →
  ∀ w func, EvRun w func ∈ trace s →
    ∃ p t, func = WrapperFunc p ∧ heap s !! p = Some t
           ∧ shared_state t = Some (fn t ()).
Proof.
  apply (reachable_action_ind (λ s, ∀ w func, EvRun w func ∈ trace s →
    ∃ p t, func = WrapperFunc p ∧ heap s !! p = Some t
           ∧ shared_state t = Some (fn t ()))).
  - by intros w func ?%elem_of_nil.
  - intros s1 s2 _ IH Hact w0 func0.
    action_cases Hact; cbn; try apply IH.
    all: rewrite ?elem_of_app, ?list_elem_of_singleton.
    all: try (intros [Hin|Hin]; [exact (IH _ _ Hin)|discriminate Hin]).
    all: try (intros [[Hin|Hin]|Hin]; [exact (IH _ _ Hin)|discriminate Hin..]).
    + (* make *)
      intros (p & t & -> & Hl & Hs)%IH. exists p, t.
      split_and!; [done| |done]. by apply lookup_app_l_Some.
    + (* run, done *)
      apply call_function_done in Hc as (p & t & -> & Hp & Hs & ->).
      intros [(p0 & t0 & -> & Hl & Hs0)%IH|[= -> ->]].
      * exists p0, t0. split_and!; [done| |done].
        rewrite list_lookup_insert_ne; [done|]. intros ->.
        rewrite Hp in Hl. injection Hl as <-. congruence.
      * exists p, {| fn := fn t; shared_state := Some (fn t ()) |}.
        split_and!; [done| |done].
        apply list_lookup_insert_eq. by eapply lookup_lt_Some.
    + (* run, threw *)
      apply call_function_threw in Hc as [-> _]. apply IH.
Qed.


(** ** What the owner can rely on once [f.get()] has returned *)

Lemma future_get_stable s s' k o :
  action void s s' → future_get k (heap s) = Some o → future_get k (heap s') = Some o.
Proof.
  intros Hact Hk. action_cases Hact; cbn; try done.
  - (* make *)
    unfold future_get in *. destruct (heap s !! k) as [t|] eqn:Hlk; [|done].
    by rewrite (lookup_app_l_Some _ _ _ _ Hlk).
  - (* run, done *)
    apply call_function_done in Hc as (p1 & t & -> & Hp & Hs & ->).
    unfold future_get in *. rewrite list_lookup_insert_ne; [done|].
    intros ->. rewrite Hp in Hk. cbn in Hk. congruence.
  - by apply call_function_threw in Hc as [-> _].
Qed.

Lemma sentinel_ready n prog s :
  reachable void n prog s → past_get (main s) = true →
  ∃ v, future_get (length prog) (heap s) = Some (Returned v).
Proof.
  apply (reachable_action_ind (λ s, past_get (main s) = true →
    ∃ v, future_get (length prog) (heap s) = Some (Returned v))).
  - done.
  - intros s1 s2 Hr IH Hact.
    pose proof (heap_inv_reachable _ _ _ Hr) as (Hfn & Hcur & _).
    pose proof (λ o, future_get_stable s1 s2 (length prog) o Hact) as Hst.
    action_cases Hact; cbn in *; try done.
    all: try (intros Hpg; destruct IH as [v0 Hv]; [by rewrite ?Hm|]; eauto).
    (* get *)
    intros _. rewrite Hm in Hfn, Hcur. cbn in Hfn. rewrite app_nil_r in Hfn.
    specialize (Hcur f eq_refl).
    assert (length prog = f) as ->; [|eauto].
    apply (f_equal length) in Hfn. rewrite length_fmap, length_app in Hfn.
    cbn in Hfn. lia.
Qed.

(** ** [submit] from the caller's side *)

Lemma some_blocked (ths : list worker_pc) :
  forallb (λ pc, negb (is_blocked pc)) ths = false → ∃ w, ths !! w = Some WBlocked.
Proof.
  induction ths as [|pc ths IH]; cbn; [done|].
  destruct pc; cbn; try (intros [w Hw]%IH; by exists (S w)).
  intros _. by exists 0.
Qed.

Lemma submit_returns s f ret :
  main s = SubmitMake f ret →
  ∃ pick s', run void [Main 0; Main 0; Main pick; Main 0] s = Some s'
    ∧ main s' = resume ret (length (heap s))
    ∧ q s' = SafeQueue.push (WrapperFunc (length (heap s))) (q s)
    ∧ heap s' = heap s ++ [make_task f]
    ∧ future_get (length (heap s)) (heap s') = None
    ∧ is_shut_down s' = is_shut_down s.
Proof.
  intros Hm.
  assert (∃ pick ths, notify_one pick (threads s) = Some ths) as (pick & ths & Hn).
  { unfold notify_one.
    destruct (forallb (λ pc, negb (is_blocked pc)) (threads s)) eqn:Hall.
    - by exists 0, (threads s).
    - destruct (some_blocked _ Hall) as [pick Hp]. exists pick. rewrite Hp. eauto. }
  exists pick. destruct ret as [rest|]; eexists.
  all: split;
    [ cbn [run exec]; unfold main_step; rewrite Hm; cbn; rewrite Hn; reflexivity |].
  all: cbn; split_and!; try done.
  all: unfold future_get; by rewrite list_lookup_middle.
Qed.

Lemma submit_step_enabled s :
  in_submit (main s) = true → ∃ pick s', main_step void pick s = Some s'.
Proof.
  unfold main_step. destruct (main s) as [| | |p ret|p []| | | | | |] eqn:Hm; try done.
  all: try solve [intros _; exists 0; eauto].
  intros _. unfold notify_one.
  destruct (forallb (λ pc, negb (is_blocked pc)) (threads s)) eqn:Hall.
  - exists 0. eauto.
  - destruct (some_blocked _ Hall) as [pick Hp]. exists pick. rewrite Hp. cbn. eauto.
Qed.

(** ** Which program counters a step can change *)

Lemma worker_step_threads w s s' :
  worker_step w s = Some s' → ∃ pc', threads s' = <[w := pc']> (threads s).
Proof.
  unfold worker_step. destruct (threads s !! w) as [pc|]; [|done]. cbn.
  destruct pc; try done.
  - destruct (is_shut_down s); intros [= <-]; by eexists.
  - destruct (_m s); [done|]. intros [= <-]. by eexists.
  - destruct (is_shut_down s || negb (SafeQueue.empty (q s))); intros [= <-]; by eexists.
  - intros [= <-]. by eexists.
  - intros [= <-]. by eexists.
  - destruct (q s); cbn; intros [= <-]; by eexists.
  - destruct (call_function func (heap s)) as [[] ?]; intros [= <-]; by eexists.
Qed.

Lemma main_step_threads pick s s' :
  main_step void pick s = Some s' →
  threads s' = threads s
  ∨ (threads s !! pick = Some WBlocked ∧ threads s' = <[pick := WAcquire]> (threads s))
  ∨ threads s' = notify_all (threads s).
Proof.
  unfold main_step.
  destruct (main s) as [[]| | | |? []|f| | |i| |]; try (intros [= <-]; by auto).
  - destruct (notify_one pick (threads s)) as [ths|] eqn:Hn; [|done].
    cbn. intros [= <-]. cbn.
    apply notify_one_cases in Hn as [[-> _]|[? ->]]; auto.
  - destruct (future_get f (heap s)) as [[]|]; intros [= <-]; auto.
  - destruct (threads s !! i) as [[]|]; intros [= <-]; auto.
Qed.

(** A thread that is not waiting on the condition variable is moved by
    its own steps only. *)
Lemma other_thread_keeps_pc l s s' w pc :
  exec void l s = Some s' → l ≠ Worker w →
  threads s !! w = Some pc → is_blocked pc = false →
  threads s' !! w = Some pc.
Proof.
  intros Hex Hne Hw Hnb. destruct l as [pick|w1|w1]; cbn [exec] in Hex.
  - apply main_step_threads in Hex as [->|[[Hp ->]| ->]]; [done| |].
    + rewrite lookup_goto_ne; [done|]. intros ->. rewrite Hw in Hp.
      injection Hp as ->. done.
    + unfold notify_all. rewrite list_lookup_fmap, Hw. cbn. by rewrite Hnb.
  - apply worker_step_threads in Hex as [pc' ->].
    rewrite lookup_goto_ne; [done|]. congruence.
  - unfold spurious_wakeup in Hex.
    destruct (threads s !! w1) as [[]|] eqn:Hw1; try done. injection Hex as <-. cbn.
    rewrite lookup_goto_ne; [done|]. intros ->. rewrite Hw in Hw1.
    injection Hw1 as ->. done.
Qed.

(** ** The claims about the pool *)

(** C1.  Teardown order.  In every state of every run of a pool of [n]
    workers whose [main] makes the submissions [prog]: what the owning
    thread has done so far is a prefix of one fixed sequence, in which the
    sentinel (task [length prog]) is pushed and signalled by [submit] like
    any other job, then its future is read, then the flag is written, then
    all workers are notified, then the workers are joined in order, and
    only then the members are destroyed.  Once [get] has returned the
    sentinel has run and the queue is empty; the flag is set only after
    that; and when the pool is destroyed the whole sequence has happened
    and every worker has left its loop. *)
Theorem teardown_order n prog s :
  reachable void n prog s →
  main_events (trace s) `prefix_of`
    client_events 0 (length prog)
      ++ [EvPush (length prog); EvNotifyOne; EvGet (length prog);
          EvWriteFlag false; EvNotifyAll]
      ++ (EvJoin <$> seq 0 n) ++ [EvDestroy]
  ∧ (past_get (main s) = true →
       (∃ v, future_get (length prog) (heap s) = Some (Returned v)) ∧ q s = [])
  ∧ (is_shut_down s = true → past_get (main s) = true)
  ∧ (main s = Destroyed →
       main_events (trace s) = program_events n (length prog)
       ∧ is_shut_down s = true
       ∧ ∀ w, w < n → threads s !! w = Some WStopped).
Proof.
  intros Hr.
  pose proof (main_trace_inv_reachable _ _ _ Hr) as Htr.
  pose proof (flag_reachable _ _ _ Hr) as Hflag.
  unfold main_trace_inv in Htr. split_and!.
  - exists (rest_events n (length (heap s)) (main s)). by rewrite Htr.
  - intros Hpg. split; [by apply (sentinel_ready n)|].
    pose proof (drain_inv_reachable _ _ _ Hr) as Hd. unfold drain_inv in Hd.
    by destruct (main s).
  - rewrite Hflag. by destruct (main s).
  - intros Hm. rewrite Hm in Htr, Hflag. cbn in Htr. rewrite app_nil_r in Htr.
    split_and!; [done..|].
    intros w Hw. pose proof (joined_inv_reachable _ _ _ Hr) as Hj.
    pose proof (lock_inv_reachable _ _ _ Hr) as (Hlen & _).
    unfold joined_inv in Hj. rewrite Hm in Hj.
    destruct (lookup_lt_is_Some_2 (threads s) w) as [pc Hpc]; [lia|].
    by rewrite (Hj _ _ Hpc) in Hpc.
Qed.

(** C3, as the code has it.  A worker is in its terminal state only when
    the flag is set, and it got there by reading the flag as set at the
    head of its loop (line 49), whatever its last [pop] returned; the
    queue is empty by then.  A worker that holds a popped job runs it on
    its next step, with the flag set or not: the outcome is stored in the
    job's shared state and the worker is back at the head of the loop; no
    step of another thread takes the job away from it. *)
Theorem worker_exit_and_popped_job n prog s w :
  reachable void n prog s →
  (threads s !! w = Some WStopped →
     is_shut_down s = true
     ∧ (∃ locked, EvReadFlag w LoopHead locked true ∈ trace s)
     ∧ q s = [])
  ∧ (∀ job, threads s !! w = Some (WRun job) →
       (∃ p t s', job = WrapperFunc p ∧ heap s !! p = Some t
          ∧ worker_step w s = Some s'
          ∧ threads s' !! w = Some WCheck
          ∧ future_get p (heap s') = Some (fn t ())
          ∧ EvRun w job ∈ trace s')
       ∧ (∀ l s', exec void l s = Some s' → l ≠ Worker w →
            threads s' !! w = Some (WRun job))).
Proof.
  intros Hr. split.
  - intros Hw. destruct (stopped_inv_reachable _ _ _ Hr _ Hw) as [Hflag Hread].
    split_and!; [done..|].
    pose proof (flag_reachable _ _ _ Hr) as Hpc. rewrite Hflag in Hpc.
    pose proof (drain_inv_reachable _ _ _ Hr) as Hd. unfold drain_inv in Hd.
    by destruct (main s).
  - intros job Hw. split.
    + pose proof (jobs_inv_reachable _ _ _ Hr) as (_ & Hrun & _).
      destruct (Hrun _ _ Hw) as [(p & -> & _ & Hp) _].
      destruct (pending_call_function _ _ _ Hp eq_refl) as (t & Hl & Hs & Hc).
      exists p, t. eexists. split_and!; [done|done| | | |].
      * unfold worker_step. rewrite Hw. cbn [mbind option_bind]. rewrite Hc. reflexivity.
      * cbn. by eapply lookup_goto_eq.
      * cbn. unfold future_get. rewrite list_lookup_insert_eq; [done|].
        by eapply lookup_lt_Some.
      * cbn. apply elem_of_app. right. by left.
    + intros l s' Hex Hne. by eapply other_thread_keeps_pc.
Qed.

(** C4, as the code has it.  In every run, each read of [is_shut_down]
    made inside the wait predicate (line 53) is made by a worker that
    holds the mutex [_m] the condition variable waits on; each read at the
    head of the worker loop (line 49) and the destructor's write (line 98)
    is made by a thread that does not hold it. *)
Theorem flag_lock_discipline n prog s ev :
  reachable void n prog s → ev ∈ trace s →
  match ev with
  | EvReadFlag w WaitPred locked _ => locked = true
  | EvReadFlag w LoopHead locked _ => locked = false
  | EvWriteFlag locked => locked = false
  | _ => True
  end.
Proof. intros Hr Hin. exact (flag_accesses _ _ _ Hr _ Hin). Qed.

(** C5.  Failures of a callable stay in the result handle.  In every run:
    a worker holding a job runs it, stores in the job's shared state what
    the callable did (its value, or the exception it raised) and is back
    at the head of its loop; whatever a future holds is what its callable
    did, so [get] rethrows exactly the exception raised; every job that
    was run has left its outcome there; no exception ever leaves a worker
    or the owner; and [submit] returns its handle normally, with the task
    not yet run, whatever the callable is going to do. *)
Theorem failure_stays_in_handle n prog s :
  reachable void n prog s →
  (∀ w p, threads s !! w = Some (WRun (WrapperFunc p)) →
     ∃ t s', heap s !! p = Some t ∧ worker_step w s = Some s'
       ∧ threads s' !! w = Some WCheck
       ∧ future_get p (heap s') = Some (fn t ()))
  ∧ (∀ p t o, heap s !! p = Some t → future_get p (heap s) = Some o → o = fn t ())
  ∧ (∀ w job, EvRun w job ∈ trace s →
       ∃ p t, job = WrapperFunc p ∧ heap s !! p = Some t
         ∧ future_get p (heap s) = Some (fn t ()))
  ∧ (∀ w what, threads s !! w ≠ Some (WCrashed what))
  ∧ main s ≠ Aborted
  ∧ (∀ f ret, main s = SubmitMake f ret →
       ∃ pick s', run void [Main 0; Main 0; Main pick; Main 0] s = Some s'
         ∧ main s' = resume ret (length (heap s))
         ∧ future_get (length (heap s)) (heap s') = None).
Proof.
  intros Hr. split_and!.
  - intros w p Hw.
    pose proof (jobs_inv_reachable _ _ _ Hr) as (_ & Hrun & _).
    destruct (Hrun _ _ Hw) as [(p' & [= <-] & _ & Hp) _].
    destruct (pending_call_function _ _ _ Hp eq_refl) as (t & Hl & Hs & Hc).
    exists t. eexists. split_and!; [done| | |].
    + unfold worker_step. rewrite Hw. cbn [mbind option_bind]. rewrite Hc. reflexivity.
    + cbn. by eapply lookup_goto_eq.
    + cbn. unfold future_get. rewrite list_lookup_insert_eq; [done|].
      by eapply lookup_lt_Some.
  - intros p t o Hl Hg.
    pose proof (heap_inv_reachable _ _ _ Hr) as (_ & _ & Hout).
    unfold future_get in Hg. rewrite Hl in Hg. by eapply Hout.
  - intros w job Hin.
    destruct (run_recorded _ _ _ Hr _ _ Hin) as (p & t & -> & Hl & Hs).
    exists p, t. split_and!; [done..|]. unfold future_get. by rewrite Hl.
  - intros w what. by eapply no_crash.
  - by eapply never_aborted.
  - intros f ret Hm.
    destruct (submit_returns _ _ _ Hm) as (pick & s' & Hrun & Hret & _ & _ & Hg & _).
    eauto.
Qed.

(** C7.  Wake-one on submit, wake-all on shutdown.  The step after every
    push, from [main] or from the destructor, is a [notify_one]: with no
    worker waiting it changes no thread, otherwise exactly one waiting
    worker, the one picked, leaves the wait and every other thread stays
    where it is.  The step after the write of the flag is a [notify_all]:
    every waiting worker leaves the wait. *)
Theorem wake_one_on_submit_wake_all_on_shutdown pick s s' :
  main_step void pick s = Some s' →
  (∀ p ret, main s = SubmitPush p ret → main s' = SubmitNotify p ret)
  ∧ (∀ p ret, main s = SubmitNotify p ret →
       main s' = SubmitReturn p ret
       ∧ EvNotifyOne ∈ trace s'
       ∧ ((∀ w, threads s !! w ≠ Some WBlocked) ∧ threads s' = threads s
          ∨ threads s !! pick = Some WBlocked
            ∧ threads s' = <[pick := WAcquire]> (threads s)))
  ∧ (main s = DtorSetFlag → main s' = DtorNotifyAll)
  ∧ (main s = DtorNotifyAll →
       main s' = DtorJoin 0
       ∧ EvNotifyAll ∈ trace s'
       ∧ (∀ w, threads s' !! w ≠ Some WBlocked)
       ∧ ∀ w pc, threads s !! w = Some pc →
           threads s' !! w = Some (if is_blocked pc then WAcquire else pc)).
Proof.
  unfold main_step. intros Hst. split_and!.
  - intros p ret Hm. rewrite Hm in Hst. by injection Hst as <-.
  - intros p ret Hm. rewrite Hm in Hst.
    destruct (notify_one pick (threads s)) as [ths|] eqn:Hn; [|done].
    cbn in Hst. injection Hst as <-. cbn. split_and!; [done| |].
    + apply elem_of_app. right. by left.
    + apply notify_one_cases in Hn as [[-> Hno]|[Hp ->]]; auto.
  - intros Hm. rewrite Hm in Hst. by injection Hst as <-.
  - intros Hm. rewrite Hm in Hst. injection Hst as <-. cbn. split_and!; [done| | |].
    + apply elem_of_app. right. by left.
    + intros w. unfold notify_all. rewrite list_lookup_fmap.
      destruct (threads s !! w) as [[]|]; cbn; congruence.
    + intros w pc Hw. unfold notify_all. by rewrite list_lookup_fmap, Hw.
Qed.

(** C8.  [submit] always succeeds and does not wait for the job.  [push]
    always lengthens the queue by the pushed job.  While the owner is
    inside [submit] it always has a step to take, whatever the workers
    are doing.  From its first line [submit] gets in four steps of its
    own back to its caller, with the job at the back of the queue and the
    handle of a task that has not run yet. *)
Theorem submit_always_succeeds s :
  in_submit (main s) = true →
  (∀ job, SafeQueue.push job (q s) = q s ++ [job])
  ∧ (∃ pick s', main_step void pick s = Some s')
  ∧ (∀ f ret, main s = SubmitMake f ret →
       ∃ pick s', run void [Main 0; Main 0; Main pick; Main 0] s = Some s'
         ∧ main s' = resume ret (length (heap s))
         ∧ q s' = q s ++ [WrapperFunc (length (heap s))]
         ∧ heap s' = heap s ++ [make_task f]
         ∧ future_get (length (heap s)) (heap s') = None).
Proof.
  intros Hin. split_and!.
  - done.
  - by apply submit_step_enabled.
  - intros f ret Hm.
    destruct (submit_returns _ _ _ Hm) as (pick & s' & Hrun & Hret & Hq & Hh & Hg & _).
    exists pick, s'. by split_and!.
Qed.

End pool_facts.

(* ===================================================================== *)
(** * The claims about safe_queue *)
(* ===================================================================== *)

(** C2.  The queue is first in, first out.  Whatever calls of [push] and
    [pop] a client makes, in whatever order, on whatever queue: the values
    its successful pops returned, followed by what is left in the queue,
    are the initial contents followed by the pushed values in the order
    of the pushes; a pop of a non-empty queue returns its oldest element
    and leaves the rest in order. *)
Theorem safe_queue_fifo {T : Type} (cs : list (SafeQueue.call T)) (t : T) (q : list T) :
  (SafeQueue.run cs t q).1 ++ (SafeQueue.run cs t q).2 = q ++ SafeQueue.pushed cs
  ∧ (SafeQueue.run cs t []).1 `prefix_of` SafeQueue.pushed cs
  ∧ ∀ front rest x, SafeQueue.pop t (SafeQueue.push x (front :: rest))
                    = (true, front, rest ++ [x]).
Proof.
  split_and!.
  - apply run_spec.
  - exists (SafeQueue.run cs t []).2. symmetry. apply (run_spec cs t []).
  - done.
Qed.

(** C6.  [pop] never waits.  On a non-empty queue it removes the head,
    hands it out through its out-parameter and returns [true]; on an empty
    queue it returns [false] at once and leaves the out-parameter and the
    queue as they were.  It is a total function of the queue alone. *)
Theorem pop_spec {T : Type} (t front : T) (q : list T) :
  SafeQueue.pop t (front :: q) = (true, front, q)
  ∧ SafeQueue.pop t [] = (false, t, [])
  ∧ (SafeQueue.pop t q).1.1 = negb (SafeQueue.empty q)
  ∧ SafeQueue.size (SafeQueue.pop t q).2 = pred (SafeQueue.size q).
Proof. split_and!; [done|done|by destruct q|by destruct q]. Qed.

(* ===================================================================== *)
(** * The claims about json::Node *)
(* ===================================================================== *)

(** C9.  Using a node as the wrong shape throws.  On a node that is not an
    array, indexing by a number and [push] throw a [runtime_error] with
    the messages of lines 35 and 42; on a node that is not an object,
    indexing by a key throws the one of line 29.  None of them returns a
    value. *)
Theorem wrong_shape_throws (n rhs : Json.Node) (key : string) (index : nat) :
  (Json.is_array n = false →
     Json.index_at index n = Json.Throw (Json.runtime_error "not an array")
     ∧ Json.push rhs n = Json.Throw (Json.runtime_error "not an array push"))
  ∧ (Json.is_object n = false →
     Json.index_key key n = Json.Throw (Json.runtime_error "not an object")).
Proof. split; intros Hn; destruct n; done. Qed.

(** C10.  Indexing an object by a key it does not hold writes to it.  The
    call does not throw; afterwards the object holds a null node under the
    key, which is the node the returned reference points to, and every
    other key holds what it held; the object has one entry more. *)
Theorem index_key_absent_inserts (object : gmap string Json.Node) (key : string) :
  object !! key = None →
  ∃ object',
    Json.index_key key (Json.Object object) = Json.Ok (Json.Object object', Json.Null)
    ∧ object' !! key = Some Json.Null
    ∧ (∀ k, k ≠ key → object' !! k = object !! k)
    ∧ size object' = S (size object)
    ∧ object' ≠ object.
Proof.
  intros Hk. exists (<[key := Json.Null]> object). split_and!.
  - unfold Json.index_key. by rewrite Hk.
  - apply lookup_insert_eq.
  - intros k Hne. by apply lookup_insert_ne.
  - by apply map_size_insert_None.
  - intros Heq. apply (f_equal (λ m, m !! key)) in Heq.
    rewrite lookup_insert_eq, Hk in Heq. done.
Qed.

(* ===================================================================== *)
(** * The runs, checked against the theorems *)
(* ===================================================================== *)

Lemma short_reachable : reachable 0 1 [] short_final.
Proof.
  apply (run_reachable 0 short_schedule 1 [] short_start); [apply rtc_refl|].
  vm_compute. reflexivity.
Qed.

Lemma demo_reachable_upto k s :
  run 0 (take k demo_schedule) demo_start = Some s → reachable 0 2 demo_prog s.
Proof. apply run_reachable, rtc_refl. Qed.

Lemma demo_reachable : reachable 0 2 demo_prog demo_final.
Proof. apply (demo_reachable_upto (length demo_schedule)). vm_compute. reflexivity. Qed.

(** C1 on the long run: the owner's history is the fixed sequence, and
    both workers have stopped when the pool is destroyed. *)
Lemma teardown_order_witness :
  main demo_final = Destroyed
  ∧ main_events (trace demo_final)
    = [EvPush 0; EvNotifyOne; EvPush 1; EvNotifyOne;
       EvPush 2; EvNotifyOne; EvGet 2; EvWriteFlag false; EvNotifyAll;
       EvJoin 0; EvJoin 1; EvDestroy]
  ∧ is_shut_down demo_final = true
  ∧ ∀ w, w < 2 → threads demo_final !! w = Some WStopped.
Proof.
  split; [reflexivity|].
  destruct (teardown_order 0 2 demo_prog demo_final) as (_ & _ & _ & Hd).
  - apply (demo_reachable_upto (length demo_schedule)). vm_compute. reflexivity.
  - destruct (Hd eq_refl) as (Hev & Hflag & Hst).
    split; [|split]; [rewrite Hev; reflexivity|exact Hflag|exact Hst].
Defined.

(** C3 as worded fails on the short run: its only worker has stopped, and
    no [pop] of it ever came back empty (its one [pop] returned the
    sentinel). *)
Lemma stopped_without_empty_pop :
  reachable 0 1 [] short_final
  ∧ threads short_final !! 0 = Some WStopped
  ∧ EvPopJob 0 (WrapperFunc 0) ∈ trace short_final
  ∧ ¬ stopped_after_empty_pop short_final 0.
Proof.
  split; [exact short_reachable|]. split; [reflexivity|]. split.
  - vm_compute. do 4 right. left.
  - intros Hc. destruct (Hc eq_refl) as [_ Hin]. vm_compute in Hin.
    repeat (apply elem_of_cons in Hin as [Hin|Hin]; [discriminate Hin|]).
    by apply elem_of_nil in Hin.
Qed.

(** C3 as amended, on the long run: worker 0 stopped after reading the
    flag as set, without ever popping nothing; and worker 1, holding the
    job that throws, runs it on its next step. *)
Lemma worker_exit_and_popped_job_witness :
  (is_shut_down demo_final = true
   ∧ (∃ locked, EvReadFlag 0 LoopHead locked true ∈ trace demo_final)
   ∧ q demo_final = [])
  ∧ ∃ p t s', WrapperFunc 1 = WrapperFunc p ∧ heap demo_running !! p = Some t
      ∧ worker_step 1 demo_running = Some s'
      ∧ threads s' !! 1 = Some WCheck
      ∧ future_get p (heap s') = Some (fn t ())
      ∧ EvRun 1 (WrapperFunc 1) ∈ trace s'.
Proof.
  split.
  - apply (worker_exit_and_popped_job 0 2 demo_prog demo_final 0); [|reflexivity].
    apply (demo_reachable_upto (length demo_schedule)). vm_compute. reflexivity.
  - apply (worker_exit_and_popped_job 0 2 demo_prog demo_running 1); [|reflexivity].
    apply (demo_reachable_upto 27). vm_compute. reflexivity.
Defined.

(** C4 as worded fails on the short run: the destructor wrote the flag,
    and the worker read it at the head of its loop, without the mutex. *)
Lemma flag_accessed_without_lock :
  reachable 0 1 [] short_final
  ∧ EvWriteFlag false ∈ trace short_final
  ∧ ¬ flag_access_locked (EvWriteFlag false)
  ∧ EvReadFlag 0 LoopHead false true ∈ trace short_final
  ∧ ¬ flag_access_locked (EvReadFlag 0 LoopHead false true).
Proof.
  split; [exact short_reachable|]. split_and!.
  - vm_compute. do 7 right. left.
  - cbn. discriminate.
  - vm_compute. do 8 right. left.
  - cbn. discriminate.
Qed.

(** C4 as amended, on the long run: worker 1 read the flag in the wait
    predicate with the mutex held, and the destructor wrote it without. *)
Lemma flag_lock_discipline_witness :
  (EvReadFlag 1 WaitPred true true ∈ trace demo_final ∧ true = true)
  ∧ (EvWriteFlag false ∈ trace demo_final ∧ false = false).
Proof.
  assert (Hr : reachable 0 2 demo_prog demo_final).
  { apply (demo_reachable_upto (length demo_schedule)). vm_compute. reflexivity. }
  assert (H1 : EvReadFlag 1 WaitPred true true ∈ trace demo_final).
  { vm_compute. do 27 right. left. }
  assert (H2 : EvWriteFlag false ∈ trace demo_final).
  { vm_compute. do 23 right. left. }
  split; (split; [assumption|]).
  - exact (flag_lock_discipline 0 2 demo_prog demo_final _ Hr H1).
  - exact (flag_lock_discipline 0 2 demo_prog demo_final _ Hr H2).
Defined.

(** C5 on the long run: worker 1 runs the callable that throws; the
    exception is in the future of task 1 and the worker is back at the
    head of its loop; at the end no worker has crashed and [get] on the
    handle rethrows it. *)
Lemma failure_stays_in_handle_witness :
  (∃ s', worker_step 1 demo_running = Some s'
     ∧ threads s' !! 1 = Some WCheck
     ∧ future_get 1 (heap s') = Some (Raised "boom"%string))
  ∧ future_get 1 (heap demo_final) = Some (Raised "boom"%string)
  ∧ (∀ w what, threads demo_final !! w ≠ Some (WCrashed what))
  ∧ main demo_final ≠ Aborted.
Proof.
  split; [|split].
  - destruct (failure_stays_in_handle 0 2 demo_prog demo_running) as (Hrun & _).
    + apply (demo_reachable_upto 27). vm_compute. reflexivity.
    + destruct (Hrun 1 1 eq_refl) as (t & s' & Ht & Hst & Hpc & Hg).
      exists s'. vm_compute in Ht. injection Ht as <-. by split_and!.
  - reflexivity.
  - destruct (failure_stays_in_handle 0 2 demo_prog demo_final)
      as (_ & _ & _ & Hnc & Hna & _); [|by split].
    apply (demo_reachable_upto (length demo_schedule)). vm_compute. reflexivity.
Defined.

(** C7 on the long run: with both workers waiting, the [notify_one] of
    the first [submit] wakes the picked worker 0 and leaves worker 1
    waiting. *)
Lemma wake_one_witness :
  main demo_notified = SubmitReturn 0 (FromMain [λ _, Raised "boom"%string])
  ∧ EvNotifyOne ∈ trace demo_notified
  ∧ threads demo_notifying = [WBlocked; WBlocked]
  ∧ threads demo_notified = [WAcquire; WBlocked].
Proof.
  destruct (wake_one_on_submit_wake_all_on_shutdown 0 0 demo_notifying demo_notified)
    as (_ & Hn & _); [vm_compute; reflexivity|].
  destruct (Hn 0 (FromMain [λ _, Raised "boom"%string]) eq_refl) as (Hm & Hev & _).
  split_and!; [exact Hm|exact Hev|reflexivity|reflexivity].
Defined.

(** C8 on the long run: the first [submit] of [main], called with both
    workers asleep, returns in four steps with task 0 queued and not run. *)
Lemma submit_always_succeeds_witness :
  ∃ pick s', run 0 [Main 0; Main 0; Main pick; Main 0] demo_submitting = Some s'
    ∧ main s' = MainLoop [λ _, Raised "boom"%string]
    ∧ q s' = [WrapperFunc 0]
    ∧ future_get 0 (heap s') = None.
Proof.
  destruct (submit_always_succeeds 0 demo_submitting eq_refl) as (_ & _ & Hs).
  destruct (Hs _ _ eq_refl) as (pick & s' & Hrun & Hm & Hq & _ & Hg).
  exists pick, s'. split_and!; [exact Hrun|exact Hm|exact Hq|exact Hg].
Defined.

(** C9 on an integer node. *)
Lemma wrong_shape_throws_witness :
  Json.index_at 2 (Json.Int 7) = Json.Throw (Json.runtime_error "not an array")
  ∧ Json.push Json.Null (Json.Int 7)
    = Json.Throw (Json.runtime_error "not an array push")
  ∧ Json.index_key "abc" (Json.Int 7) = Json.Throw (Json.runtime_error "not an object").
Proof.
  destruct (wrong_shape_throws (Json.Int 7) Json.Null "abc" 2) as [Ha Ho].
  destruct (Ha eq_refl) as [H1 H2]. split; [exact H1|]. split; [exact H2|].
  exact (Ho eq_refl).
Defined.

(** C10 on the object of one entry. *)
Lemma index_key_absent_inserts_witness :
  ∃ object',
    Json.index_key "version" (Json.Object {[ "lr"%string := Json.Int 5 ]})
    = Json.Ok (Json.Object object', Json.Null)
    ∧ object' !! "version"%string = Some Json.Null
    ∧ object' !! "lr"%string = Some (Json.Int 5)
    ∧ size object' = 2.
Proof.
  destruct (index_key_absent_inserts {[ "lr"%string := Json.Int 5 ]} "version")
    as (object' & Hi & Hk & Ho & Hs & _); [reflexivity|].
  exists object'. split_and!; [exact Hi|exact Hk| |].
  - rewrite Ho; [reflexivity|discriminate].
  - rewrite Hs. reflexivity.
Defined.

(** X1.  The pool hands its jobs to the workers in the order of the
    pushes: what the workers have popped is a prefix of what [submit] has
    pushed, and the rest is the queue. *)
Theorem jobs_dequeued_in_submission_order {V E : Type} (void : V) n prog
    (s : ThreadPool (V:=V) (E:=E)) :
  reachable void n prog s →
  popped_jobs (trace s) `prefix_of` pushed_jobs (trace s)
  ∧ popped_jobs (trace s) ++ q s = pushed_jobs (trace s).
Proof.
  intros Hr. pose proof (dequeue_order void _ _ _ Hr) as Heq.
  split; [|done]. exists (q s). by rewrite Heq.
Qed.

Lemma jobs_dequeued_in_submission_order_witness :
  popped_jobs (trace demo_final) = [WrapperFunc 0; WrapperFunc 1; WrapperFunc 2]
  ∧ pushed_jobs (trace demo_final) = [WrapperFunc 0; WrapperFunc 1; WrapperFunc 2].
Proof.
  destruct (jobs_dequeued_in_submission_order 0 2 demo_prog demo_final) as [_ Heq].
  - apply (demo_reachable_upto (length demo_schedule)). vm_compute. reflexivity.
  - split; [reflexivity|]. rewrite <- Heq. reflexivity.
Defined.

(** X2.  At most one worker is between the lock and the unlock of [_m],
    and it is the owner of the mutex. *)
Theorem mutex_excludes {V E : Type} (void : V) n prog
    (s : ThreadPool (V:=V) (E:=E)) w w' pc pc' :
  reachable void n prog s →
  threads s !! w = Some pc → locked_pc pc = true →
  threads s !! w' = Some pc' → locked_pc pc' = true →
  w = w' ∧ _m s = Some (WorkerThread w).
Proof.
  intros (_ & Hown & _)%lock_inv_reachable Hw Hl Hw' Hl'.
  pose proof (Hown _ _ Hw Hl) as H1. pose proof (Hown _ _ Hw' Hl') as H2.
  split; [congruence|done].
Qed.

Lemma mutex_excludes_witness :
  threads demo_locked !! 0 = Some WWait ∧ _m demo_locked = Some (WorkerThread 0).
Proof.
  split; [reflexivity|].
  apply (mutex_excludes 0 2 demo_prog demo_locked 0 0 WWait WWait); try reflexivity.
  apply (demo_reachable_upto 3). vm_compute. reflexivity.
Defined.

(** X3.  The notification of a [submit] can be lost.  On [lost_schedule] the
    job is in the queue, the worker waits, the destructor waits for the
    job in [f.get()], and no thread has a step left: only a spurious
    wake-up moves the pool on. *)
Theorem notification_can_be_lost :
  ∃ s : ThreadPool (V:=nat) (E:=string),
    run 0 lost_schedule short_start = Some s
    ∧ reachable 0 1 [] s
    ∧ q s = [WrapperFunc 0]
    ∧ threads s = [WBlocked]
    ∧ main s = DtorGet 0
    ∧ future_get 0 (heap s) = None
    ∧ EvNotifyOne ∈ trace s
    ∧ ∀ l, is_Some (exec 0 l s) → l = Spurious 0.
Proof.
  eexists. split; [vm_compute; reflexivity|]. split_and!; try reflexivity.
  - apply (run_reachable 0 lost_schedule 1 [] short_start); [apply rtc_refl|].
    vm_compute. reflexivity.
  - vm_compute. do 3 right. left.
  - intros [pick|[|w]|[|w]] [s' Hs']; try done; vm_compute in Hs'; done.
Qed.

(* ===================================================================== *)
(** * More about the pool: every job runs once *)
(* ===================================================================== *)

Section pool_jobs.
Context {V E : Type} (void : V).
Implicit Types (s : ThreadPool (V:=V) (E:=E)).









End pool_jobs.



(* ===================================================================== *)
(** * More about json::Node *)
(* ===================================================================== *)

(** X6.  [push] and the index by number agree.  Pushing onto an array
    succeeds; afterwards the pushed node is at the old size, every older
    element is where it was, and the index one further throws
    [out_of_range]. *)
Theorem push_then_index (array : list Json.Node) (rhs : Json.Node) :
  ∃ n', Json.push rhs (Json.Array array) = Json.Ok n'
    ∧ Json.index_at (length array) n' = Json.Ok rhs
    ∧ (∀ i v, array !! i = Some v → Json.index_at i n' = Json.Ok v)
    ∧ (∀ i, length array < i → Json.index_at i n' = Json.Throw Json.out_of_range).
Proof.
  exists (Json.Array (array ++ [rhs])). split_and!; [done| | |]; cbn.
  - by rewrite list_lookup_middle.
  - intros i v Hi. by rewrite (lookup_app_l_Some _ _ _ _ Hi).
  - intros i Hi. rewrite lookup_ge_None_2; [done|]. rewrite length_app. cbn. lia.
Qed.

(** X7.  Indexing by a key twice is indexing once.  On an object the
    index by a key never throws; a second index by the same key returns
    the same node and leaves the object as the first one left it; a key
    the object holds is read without changing the object. *)
Theorem index_key_twice (object : gmap string Json.Node) (key : string) :
  ∃ n1 v, Json.index_key key (Json.Object object) = Json.Ok (n1, v)
    ∧ Json.index_key key n1 = Json.Ok (n1, v)
    ∧ (∀ v0, object !! key = Some v0 → n1 = Json.Object object ∧ v = v0).
Proof.
  unfold Json.index_key at 1. destruct (object !! key) as [v|] eqn:Hk.
  - exists (Json.Object object), v. split_and!; [done| |].
    + cbn. by rewrite Hk.
    + by intros v0 [= <-].
  - exists (Json.Object (<[key := Json.Null]> object)), Json.Null.
    split_and!; [done| |done]. cbn. by rewrite lookup_insert_eq.
Qed.

(** X8.  The statement [x[key].push(rhs)] of [main].  On an object that
    holds an array under [key] it appends [rhs] to that array in place.
    On an object without [key] it throws "not an array push", and [x] has
    got the key all the same, with a null node.  On anything but an
    object it throws "not an object" and [x] is as it was. *)
Theorem push_at_key_spec (key : string) (rhs x : Json.Node) :
  (∀ object array, x = Json.Object object → object !! key = Some (Json.Array array) →
     JsonMain.push_at_key key rhs x
     = (Json.Object (<[key := Json.Array (array ++ [rhs])]> object), None))
  ∧ (∀ object, x = Json.Object object → object !! key = None →
       JsonMain.push_at_key key rhs x
       = (Json.Object (<[key := Json.Null]> object),
          Some (Json.runtime_error "not an array push")))
  ∧ (Json.is_object x = false →
       JsonMain.push_at_key key rhs x = (x, Some (Json.runtime_error "not an object"))).
Proof.
  split_and!.
  - intros object array -> Hk. unfold JsonMain.push_at_key. cbn. by rewrite Hk.
  - intros object -> Hk. unfold JsonMain.push_at_key. cbn. by rewrite Hk.
  - intros Hx. by destruct x.
Qed.

Lemma push_at_key_spec_witness :
  JsonMain.push_at_key "configurations" (Json.Bool true)
    (Json.Object {[ "configurations"%string := Json.Array [Json.Null] ]})
  = (Json.Object {[ "configurations"%string := Json.Array [Json.Null; Json.Bool true] ]}, None)
  ∧ JsonMain.push_at_key "configurations" (Json.Bool true) (Json.Object ∅)
    = (Json.Object {[ "configurations"%string := Json.Null ]},
       Some (Json.runtime_error "not an array push"))
  ∧ JsonMain.push_at_key "configurations" (Json.Bool true) (Json.Int 3)
    = (Json.Int 3, Some (Json.runtime_error "not an object")).
Proof.
  split_and!.
  - rewrite (proj1 (push_at_key_spec "configurations" (Json.Bool true) _) _ [Json.Null] eq_refl);
      [|reflexivity]. by rewrite insert_singleton_eq.
  - by rewrite (proj1 (proj2 (push_at_key_spec "configurations" (Json.Bool true) _)) ∅ eq_refl).
  - by apply (push_at_key_spec "configurations" (Json.Bool true) (Json.Int 3)).
Defined.

(* ===================================================================== *)
(** * The parser and the generator *)
(* ===================================================================== *)

Section json_text.
Import Json JsonParser JsonGenerator JsonText.

Context (stod : list ascii → option float).
Context (to_string_double : float → list ascii).
Implicit Types (json_str pre post rest : list ascii) (pos fuel : nat) (c : ascii).
Implicit Types (node : Node).

(** ** Reading at the cursor *)

Lemma lookup_at pre rest : (pre ++ rest) !! length pre = head rest.
Proof. rewrite lookup_app_r, Nat.sub_diag; [|lia]. by destruct rest. Qed.

Lemma at_char_at c pre rest :
  at_char c (pre ++ rest) (length pre)
  = match rest with c' :: _ => Ascii.eqb c' c | [] => false end.
Proof. unfold at_char. rewrite lookup_at. by destruct rest. Qed.

Lemma before_char_at c pre rest :
  before_char c (pre ++ rest) (length pre)
  = match rest with c' :: _ => negb (Ascii.eqb c' c) | [] => false end.
Proof. unfold before_char. rewrite lookup_at. by destruct rest. Qed.

Lemma parse_whitespace_at pre rest :
  parse_whitespace (pre ++ rest) (length pre) = length pre + span isspace rest.
Proof. unfold parse_whitespace. by rewrite drop_app_length. Qed.

Lemma substr_at pre rest n :
  substr (pre ++ rest) (length pre) n = Some (take n rest).
Proof.
  unfold substr. rewrite drop_app_length.
  destruct (decide _) as [Hlt|]; [|done]. rewrite length_app in Hlt. lia.
Qed.

Lemma span_app f (l1 l2 : list ascii) :
  Forall (λ c, f c = true) l1 →
  match l2 with c :: _ => f c = false | [] => True end →
  span f (l1 ++ l2) = length l1.
Proof.
  intros Hl1 Hl2. induction Hl1 as [|c l1 Hc _ IH]; cbn.
  - destruct l2 as [|c l2]; [done|]. cbn. by rewrite Hl2.
  - by rewrite Hc, IH.
Qed.

(** ** The keywords *)

Lemma parse_word_at word value pre post :
  parse_word word value (pre ++ String.list_ascii_of_string word ++ post) (length pre)
  = Ret (Some value) (length pre + String.length word).
Proof.
  unfold parse_word. rewrite substr_at.
  assert (String.length word = length (String.list_ascii_of_string word)) as ->.
  { induction word as [|c w IH]; cbn; [done|]. by rewrite IH. }
  rewrite take_app_length. by rewrite decide_True.
Qed.

(** ** The counter *)

Lemma parse_whitespace_ge json_str pos : pos ≤ parse_whitespace json_str pos.
Proof. unfold parse_whitespace. lia. Qed.

Lemma skip_separator_ge c json_str pos : pos ≤ skip_separator c json_str pos.
Proof.
  unfold skip_separator.
  pose proof (parse_whitespace_ge json_str pos).
  destruct (at_char _ _ _);
    [pose proof (parse_whitespace_ge json_str (S (parse_whitespace json_str pos)))
    |pose proof (parse_whitespace_ge json_str (parse_whitespace json_str pos))]; lia.
Qed.

Lemma parse_word_advances word value json_str pos node pos' :
  word ≠ ""%string →
  parse_word word value json_str pos = Ret (Some node) pos' → pos < pos'.
Proof.
  intros Hw. unfold parse_word. destruct (substr _ _ _); [|done].
  destruct (decide _); [|done]. intros [= _ <-]. destruct word; [done|]. cbn. lia.
Qed.

Lemma stoi_nonempty number i : stoi number = Some i → number ≠ [].
Proof. by intros Hi ->. Qed.

Lemma parse_number_advances json_str pos node pos' :
  parse_number stod json_str pos = Ret (Some node) pos' → pos < pos'.
Proof.
  unfold parse_number. destruct (substr _ _ _) as [number|] eqn:Hsub; [|done].
  assert (number ≠ [] → pos < pos + span is_num_char (drop pos json_str)) as Hne.
  { intros Hne. unfold substr in Hsub. destruct (decide _); [done|].
    injection Hsub as <-.
    destruct (span is_num_char (drop pos json_str)); [|lia].
    by rewrite Nat.add_0_r, Nat.sub_diag in Hne. }
  destruct (is_Float number) eqn:Hf.
  - destruct (stod number); [|done]. intros [= _ <-]. apply Hne. by intros ->.
  - destruct (stoi number) eqn:Hi; [|done]. intros [= _ <-].
    apply Hne. by eapply stoi_nonempty.
Qed.

Lemma parse_string_advances json_str pos node pos' :
  parse_string json_str pos = Ret (Some node) pos' → pos < pos'.
Proof.
  unfold parse_string. destruct (if decide _ then _ else _); [|done].
  destruct (substr _ _ _); [|done]. intros [= _ <-]. lia.
Qed.

(** A value that is returned has moved the cursor. *)
Lemma advances fuel :
  (∀ json_str pos node pos',
     parse_value stod fuel json_str pos = Ret (Some node) pos' → pos < pos')
  ∧ (∀ json_str arr pos value pos',
       array_loop stod fuel json_str arr pos = Ret value pos' → pos < pos')
  ∧ (∀ json_str obj pos value pos',
       object_loop stod fuel json_str obj pos = Ret value pos' → pos < pos').
Proof.
  induction fuel as [|fuel (IHv & IHa & IHo)]; [done|]. split_and!.
  - intros json_str pos node pos'. cbn.
    pose proof (parse_whitespace_ge json_str pos) as Hws.
    destruct (json_str !! _) as [c|]; [|done].
    repeat case_match; intros Hr.
    + apply parse_word_advances in Hr; [lia|done].
    + apply parse_word_advances in Hr; [lia|done].
    + apply parse_word_advances in Hr; [lia|done].
    + apply parse_string_advances in Hr. lia.
    + apply IHa in Hr. lia.
    + apply IHo in Hr. lia.
    + apply parse_number_advances in Hr. lia.
  - intros json_str arr pos value pos'. cbn.
    destruct (before_char _ _ _); [|intros [= _ <-]; lia].
    destruct (parse_value _ _ _ _) as [[node|] pos1| | |] eqn:Hv; try done.
    apply IHv in Hv. intros Hr%IHa.
    pose proof (skip_separator_ge "," json_str pos1). lia.
  - intros json_str obj pos value pos'. cbn.
    destruct (before_char _ _ _); [|intros [= _ <-]; lia].
    destruct (parse_value _ _ _ _) as [[key|] pos1| | |] eqn:Hk; try done.
    apply IHv in Hk.
    assert (pos < parse_whitespace json_str pos1) as Hws.
    { pose proof (parse_whitespace_ge json_str pos1). lia. }
    destruct key; try (intros [= _ <-]; lia).
    pose proof (skip_separator_ge ":" json_str pos1) as Hsep.
    destruct (parse_value _ _ _ _) as [[val|] pos2| | |] eqn:Hval; try done.
    apply IHv in Hval. intros Hr%IHo.
    pose proof (skip_separator_ge "," json_str pos2). lia.
Qed.

(** The counter does not run out when it is twice the length of what is
    left of the text, and one or two more. *)
Lemma fuel_enough fuel :
  (∀ json_str pos,
     2 * (length json_str - pos) + 1 ≤ fuel →
     parse_value stod fuel json_str pos ≠ NoFuel)
  ∧ (∀ json_str arr pos,
       2 * (length json_str - pos) + 2 ≤ fuel →
       array_loop stod fuel json_str arr pos ≠ NoFuel)
  ∧ (∀ json_str obj pos,
       2 * (length json_str - pos) + 2 ≤ fuel →
       object_loop stod fuel json_str obj pos ≠ NoFuel).
Proof.
  induction fuel as [|fuel (IHv & IHa & IHo)]; [split_and!; intros; lia|].
  split_and!.
  - intros json_str pos Hfuel. cbn.
    pose proof (parse_whitespace_ge json_str pos) as Hws.
    destruct (json_str !! _) as [c|] eqn:Hc; [|done].
    apply lookup_lt_Some in Hc.
    repeat case_match; try (unfold parse_null, parse_true, parse_false, parse_word,
      parse_string, parse_number; repeat case_match; done).
    + apply IHa. lia.
    + apply IHo. lia.
  - intros json_str arr pos Hfuel. cbn.
    destruct (before_char _ _ _) eqn:Hb; [|done].
    assert (pos < length json_str) as Hpos.
    { unfold before_char in Hb. destruct (json_str !! pos) eqn:Hc; [|done].
      by apply lookup_lt_Some in Hc. }
    destruct (parse_value _ _ _ _) as [[node|] pos1| | |] eqn:Hv; try done.
    + apply (proj1 (advances fuel)) in Hv.
      pose proof (skip_separator_ge "," json_str pos1). apply IHa. lia.
    + exfalso. eapply IHv; [|exact Hv]. lia.
  - intros json_str obj pos Hfuel. cbn.
    destruct (before_char _ _ _) eqn:Hb; [|done].
    assert (pos < length json_str) as Hpos.
    { unfold before_char in Hb. destruct (json_str !! pos) eqn:Hc; [|done].
      by apply lookup_lt_Some in Hc. }
    destruct (parse_value _ _ _ _) as [[key|] pos1| | |] eqn:Hk; try done.
    + apply (proj1 (advances fuel)) in Hk.
      destruct key; try done.
      pose proof (skip_separator_ge ":" json_str pos1) as Hsep.
      destruct (parse_value _ _ _ _) as [[val|] pos2| | |] eqn:Hval; try done.
      * apply (proj1 (advances fuel)) in Hval.
        pose proof (skip_separator_ge "," json_str pos2). apply IHo. lia.
      * exfalso. eapply IHv; [|exact Hval]. lia.
    + exfalso. eapply IHv; [|exact Hk]. lia.
Qed.

(** A run the counter did not end is the same with a higher counter. *)
Lemma fuel_mono fuel :
  (∀ fuel' json_str pos,
     fuel ≤ fuel' → parse_value stod fuel json_str pos ≠ NoFuel →
     parse_value stod fuel' json_str pos = parse_value stod fuel json_str pos)
  ∧ (∀ fuel' json_str arr pos,
       fuel ≤ fuel' → array_loop stod fuel json_str arr pos ≠ NoFuel →
       array_loop stod fuel' json_str arr pos = array_loop stod fuel json_str arr pos)
  ∧ (∀ fuel' json_str obj pos,
       fuel ≤ fuel' → object_loop stod fuel json_str obj pos ≠ NoFuel →
       object_loop stod fuel' json_str obj pos = object_loop stod fuel json_str obj pos).
Proof.
  induction fuel as [|fuel (IHv & IHa & IHo)]; [done|].
  split_and!; intros [|fuel'] json_str; try (intros; lia).
  - intros pos Hle. cbn. destruct (json_str !! _) as [c|]; [|done].
    repeat case_match; try done.
    + apply IHa. lia.
    + apply IHo. lia.
  - intros arr pos Hle. cbn. destruct (before_char _ _ _); [|done].
    destruct (parse_value stod fuel _ _) as [[node|] pos1| | |] eqn:Hv; try done;
      (rewrite (IHv fuel'), Hv; [|lia|by rewrite Hv]); [|done..].
    apply IHa. lia.
  - intros obj pos Hle. cbn. destruct (before_char _ _ _); [|done].
    destruct (parse_value stod fuel _ pos) as [[key|] pos1| | |] eqn:Hk; try done;
      (rewrite (IHv fuel'), Hk; [|lia|by rewrite Hk]); [|done..].
    destruct key; try done.
    destruct (parse_value stod fuel _ (skip_separator _ _ _))
      as [[val|] pos2| | |] eqn:Hval; try done;
      (rewrite (IHv fuel'), Hval; [|lia|by rewrite Hval]); [|done..].
    apply IHo. lia.
Qed.

(** ** Numbers *)

Lemma digits_of_uint d :
  Forall (λ c, isdigit c = true)
         (String.list_ascii_of_string (DecimalString.NilEmpty.string_of_uint d)).
Proof. induction d; cbn; by constructor. Qed.

Lemma isdigit_num_char c : isdigit c = true → is_num_char c = true.
Proof. unfold is_num_char. by intros ->. Qed.

Lemma isdigit_plain c :
  isdigit c = true →
  isspace c = false ∧ Ascii.eqb c "." = false ∧ Ascii.eqb c "e" = false
  ∧ Ascii.eqb c "n" = false ∧ Ascii.eqb c "t" = false ∧ Ascii.eqb c "f" = false
  ∧ Ascii.eqb c quote = false ∧ Ascii.eqb c "[" = false ∧ Ascii.eqb c "{" = false
  ∧ Ascii.eqb c "]" = false ∧ Ascii.eqb c "}" = false
  ∧ Ascii.eqb c "," = false ∧ Ascii.eqb c ":" = false.
Proof. by destruct c as [[] [] [] [] [] [] [] []]. Qed.

Lemma digits_not_Float number :
  Forall (λ c, isdigit c = true) number → is_Float number = false.
Proof.
  intros Hd. unfold is_Float. apply orb_false_intro.
  - induction Hd as [|c l Hc%isdigit_plain _ IH]; cbn; [done|].
    destruct Hc as (_ & -> & _). done.
  - induction Hd as [|c l Hc%isdigit_plain _ IH]; cbn; [done|].
    destruct Hc as (_ & _ & -> & _). done.
Qed.

(** The digits [std::to_string] writes for an integer that is not
    negative, and what [std::stoi] makes of them. *)
Lemma to_string_nonneg (i : Z) :
  (0 ≤ i)%Z →
  ∃ c digits, to_string i = c :: digits
    ∧ Forall (λ c, isdigit c = true) (c :: digits)
    ∧ stoi (to_string i) = if decide (i ≤ 2147483647)%Z then Some i else None.
Proof.
  intros Hi.
  assert (∃ d, d ≠ Decimal.Nil
             ∧ to_string i
               = String.list_ascii_of_string (DecimalString.NilEmpty.string_of_uint d)
             ∧ Z.of_N (N.of_uint d) = i) as (d & Hd & Hs & Hv).
  { destruct i as [|p|p]; [| |lia].
    - by exists (Decimal.D0 Decimal.Nil).
    - exists (Pos.to_uint p). split; [apply DecimalPos.Unsigned.to_uint_nonnil|].
      split.
      + unfold to_string. cbn.
        pose proof (DecimalPos.Unsigned.to_uint_nonnil p).
        by destruct (Pos.to_uint p).
      + unfold N.of_uint. by rewrite DecimalPos.Unsigned.of_to. }
  pose proof (digits_of_uint d) as Hdigits. rewrite <-Hs in Hdigits.
  assert (stoi (to_string i) = if decide (i ≤ 2147483647)%Z then Some i else None) as Hstoi.
  { unfold stoi. rewrite Hs, String.string_of_list_ascii_of_string.
    assert (DecimalString.NilZero.uint_of_string (DecimalString.NilEmpty.string_of_uint d)
            = Some d) as ->.
    { rewrite <-(DecimalString.NilZero.usu d Hd). by destruct d. }
    cbn. by rewrite Hv. }
  destruct (to_string i) as [|c digits] eqn:Hts.
  - destruct d; cbn in Hs; done.
  - by exists c, digits.
Qed.

(** A negative integer is written with a minus sign in front. *)
Lemma to_string_neg (i : Z) :
  (i < 0)%Z → ∃ digits, to_string i = "-"%char :: digits.
Proof.
  intros Hi. destruct i as [|p|p]; [lia..|]. unfold to_string. cbn. eauto.
Qed.

(** The switch of [parse_value], with the cursor on a character that is
    no blank. *)
Lemma parse_value_at fuel pre c rest :
  isspace c = false →
  parse_value stod (S fuel) (pre ++ c :: rest) (length pre)
  = let json_str := pre ++ c :: rest in
    let pos := length pre in
    if Ascii.eqb c "n" then parse_null json_str pos
    else if Ascii.eqb c "t" then parse_true json_str pos
    else if Ascii.eqb c "f" then parse_false json_str pos
    else if Ascii.eqb c quote then parse_string json_str pos
    else if Ascii.eqb c "[" then array_loop stod fuel json_str [] (S pos)
    else if Ascii.eqb c "{" then object_loop stod fuel json_str ∅ (S pos)
    else parse_number stod json_str pos.
Proof.
  intros Hc. cbn [parse_value]. rewrite parse_whitespace_at. cbn [span].
  rewrite Hc, Nat.add_0_r, lookup_at. done.
Qed.

Lemma parse_number_at pre number post :
  Forall (λ c, isdigit c = true) number →
  ends_number post = true →
  parse_number stod (pre ++ number ++ post) (length pre)
  = match stoi number with
    | Some ret => Ret (Some (Int ret)) (length pre + length number)
    | None => Ret None (length pre + length number)
    end.
Proof.
  intros Hd Hpost. unfold parse_number. rewrite drop_app_length.
  rewrite span_app; [|by eapply Forall_impl; [done|apply isdigit_num_char]|].
  - rewrite substr_at. replace (length pre + length number - length pre)
      with (length number) by lia.
    rewrite take_app_length. by rewrite digits_not_Float.
  - destruct post as [|c post]; [done|]. cbn in Hpost. by destruct (is_num_char c).
Qed.

(** ** Strings *)

Lemma length_list_ascii_of_string (str : string) :
  length (String.list_ascii_of_string str) = String.length str.
Proof. induction str as [|c str IH]; cbn; [done|]. by rewrite IH. Qed.

Lemma find_quote_free chars post :
  forallb (λ c, negb (Ascii.eqb c quote)) chars = true →
  find_quote (chars ++ quote :: post) = Some (length chars).
Proof.
  induction chars as [|c chars IH]; cbn.
  - by rewrite Ascii.eqb_refl.
  - intros [Hc Hrest]%andb_prop. apply negb_true_iff in Hc. rewrite Hc.
    by rewrite IH.
Qed.

Lemma find_quote_none chars :
  forallb (λ c, negb (Ascii.eqb c quote)) chars = true → find_quote chars = None.
Proof.
  induction chars as [|c chars IH]; cbn; [done|].
  intros [Hc Hrest]%andb_prop. apply negb_true_iff in Hc. rewrite Hc.
  by rewrite IH.
Qed.

(** [parse_string] takes the characters up to the next quote. *)
Lemma parse_string_at pre chars post :
  forallb (λ c, negb (Ascii.eqb c quote)) chars = true →
  parse_string (pre ++ quote :: chars ++ quote :: post) (length pre)
  = Ret (Some (String (String.string_of_list_ascii chars)))
        (length pre + length (quote :: chars ++ [quote])).
Proof.
  intros Hfree. unfold parse_string.
  replace (pre ++ quote :: chars ++ quote :: post)
    with ((pre ++ [quote]) ++ chars ++ quote :: post) by by rewrite <-app_assoc.
  replace (S (length pre)) with (length (pre ++ [quote]))
    by (rewrite length_app; cbn; lia).
  rewrite decide_True; [|rewrite !length_app; cbn; lia].
  rewrite drop_app_length, find_quote_free, substr_at by done.
  replace (length (pre ++ [quote]) + length chars - length (pre ++ [quote]))
    with (length chars) by lia.
  rewrite take_app_length. f_equal.
  rewrite !length_app. cbn. rewrite length_app. cbn. lia.
Qed.

Lemma parse_value_string fuel pre chars post :
  forallb (λ c, negb (Ascii.eqb c quote)) chars = true →
  parse_value stod (S fuel) (pre ++ quote :: chars ++ quote :: post) (length pre)
  = Ret (Some (String (String.string_of_list_ascii chars)))
        (length pre + length (quote :: chars ++ [quote])).
Proof.
  intros Hfree. rewrite parse_value_at by done. cbn zeta.
  change (Ascii.eqb quote "n") with false. change (Ascii.eqb quote "t") with false.
  change (Ascii.eqb quote "f") with false. rewrite Ascii.eqb_refl.
  by apply parse_string_at.
Qed.

(** ** The text the generator writes *)

(** The loops of [generate_array] and [generate_object] leave one comma
    too many, which [pop_back] removes. *)
Lemma pop_back_loop (acc : list ascii) (parts : list (list ascii)) :
  parts ≠ [] →
  pop_back (foldl (λ json_str part, (json_str ++ part) ++ [","%char]) acc parts)
  = acc ++ join [","%char] parts.
Proof.
  revert acc. induction parts as [|part parts IH]; [done|]. intros acc _.
  destruct parts as [|part' parts].
  - cbn. unfold pop_back. by rewrite removelast_last.
  - cbn [foldl join]. cbn [foldl] in IH. rewrite IH by done.
    by rewrite <-!app_assoc.
Qed.

Lemma generate_array_of_join (parts : list (list ascii)) :
  generate_array_of parts = "["%char :: join [","%char] parts ++ ["]"%char].
Proof.
  unfold generate_array_of. destruct parts as [|part parts]; [done|].
  by rewrite pop_back_loop.
Qed.

Lemma generate_object_of_join (entries : list (string * list ascii)) :
  generate_object_of entries
  = "{"%char :: join [","%char] (entry_text [":"%char] <$> entries) ++ ["}"%char].
Proof.
  unfold generate_object_of. destruct entries as [|entry entries]; [done|].
  assert (∀ acc l,
    foldl (λ json_str entry,
             (((json_str ++ generate_string entry.1) ++ [":"%char]) ++ entry.2) ++ [","%char])
          acc l
    = foldl (λ json_str part, (json_str ++ part) ++ [","%char]) acc
            (entry_text [":"%char] <$> l))
    as ->.
  { intros acc l. revert acc. induction l as [|e l IH]; intros acc; [done|].
    cbn [foldl fmap list_fmap]. rewrite IH. f_equal. unfold entry_text.
    by rewrite <-!app_assoc. }
  by rewrite pop_back_loop.
Qed.

(** ** The order a map is walked in *)

Lemma insert_entry_perm {A} (e : string * A) (l : list (string * A)) :
  insert_entry e l ≡ₚ e :: l.
Proof.
  induction l as [|e' l IH]; cbn; [done|]. destruct (String.leb _ _); [done|].
  rewrite IH. apply Permutation_swap.
Qed.

Lemma sorted_entries_perm {A} (m : gmap string A) :
  sorted_entries m ≡ₚ map_to_list m.
Proof.
  unfold sorted_entries. induction (map_to_list m) as [|e l IH]; cbn; [done|].
  by rewrite insert_entry_perm, IH.
Qed.

(** Inserting the entries of a map one by one, in any order, builds it. *)
Lemma foldl_insert_entries (entries : list (string * Node)) (obj : gmap string Node) :
  NoDup entries.*1 →
  foldl (λ obj entry, <[entry.1 := entry.2]> obj) obj entries
  = list_to_map entries ∪ obj.
Proof.
  revert obj. induction entries as [|[key val] entries IH]; intros obj Hnd.
  - cbn. by rewrite (left_id_L ∅ (∪)).
  - rewrite fmap_cons in Hnd. apply NoDup_cons in Hnd as [Hkey Hnd].
    cbn [foldl fst snd]. rewrite IH, list_to_map_cons by done.
    rewrite <-insert_union_l. symmetry. apply insert_union_r.
    by apply not_elem_of_list_to_map_1.
Qed.

Lemma sorted_entries_fmap (f : Node → list ascii) (object : gmap string Node) :
  ∃ entries, sorted_entries (f <$> object) = prod_map id f <$> entries
    ∧ entries ≡ₚ map_to_list object.
Proof.
  pose proof (sorted_entries_perm (f <$> object)) as Hperm.
  rewrite map_to_list_fmap in Hperm.
  apply Permutation_map_inv in Hperm as (entries & Heq & Hperm).
  exists entries. split; [done|]. by symmetry.
Qed.

(** ** Induction on a node by its size *)

Lemma node_size_array (array : list Node) (node : Node) :
  node ∈ array → node_size node < node_size (Array array).
Proof.
  cbn. induction 1 as [node array|node node' array _ IH]; cbn; lia.
Qed.

Lemma node_size_object (object : gmap string Node) (key : string) (node : Node) :
  object !! key = Some node → node_size node < node_size (Object object).
Proof.
  intros Hkey. cbn.
  rewrite (map_fold_delete_L _ _ key (node_size node)).
  - lia.
  - intros. lia.
  - by rewrite lookup_fmap, Hkey.
Qed.

Lemma Node_size_ind (P : Node → Prop) :
  (∀ node, (∀ node', node_size node' < node_size node → P node') → P node) →
  ∀ node, P node.
Proof.
  intros IH node. remember (node_size node) as size eqn:Hsize.
  revert node Hsize. induction (lt_wf size) as [size _ IHsize].
  intros node ->. apply IH. intros node' Hlt. by eapply IHsize.
Qed.

(** ** Between two elements *)

Lemma body_cons sep pad (part : list ascii) parts tail :
  body sep pad (part :: parts) tail = part ++ after_part sep pad parts tail.
Proof. destruct parts; cbn [body join after_part]; by rewrite <-?app_assoc. Qed.

Lemma body_app sep pad parts tail post :
  body sep pad parts tail ++ post = body sep pad parts (tail ++ post).
Proof. destruct parts; cbn [body]; by rewrite <-?app_assoc. Qed.

Lemma opens_value_inv text :
  opens_value text = true →
  ∃ c rest, text = c :: rest ∧ isspace c = false
    ∧ Ascii.eqb c "]" = false ∧ Ascii.eqb c "}" = false
    ∧ Ascii.eqb c "," = false ∧ Ascii.eqb c ":" = false.
Proof.
  destruct text as [|c rest]; [done|]. cbn. rewrite !andb_true_iff, !negb_true_iff.
  intros [[[[? ?] ?] ?] ?]. by exists c, rest.
Qed.

Lemma blank_Forall (text : list ascii) :
  blank text = true → Forall (λ c, isspace c = true) text.
Proof.
  induction text as [|c text IH]; cbn; [constructor|].
  intros [Hc Htext]%andb_prop. constructor; [done|by apply IH].
Qed.

Lemma isspace_plain c :
  isspace c = true →
  is_num_char c = false ∧ Ascii.eqb c "]" = false ∧ Ascii.eqb c "}" = false
  ∧ Ascii.eqb c "," = false ∧ Ascii.eqb c ":" = false.
Proof. by destruct c as [[] [] [] [] [] [] [] []]. Qed.

Lemma span_blank (lead rest : list ascii) :
  blank lead = true → span isspace (lead ++ rest) = length lead + span isspace rest.
Proof.
  induction lead as [|c lead IH]; cbn; [done|].
  intros [-> Hlead]%andb_prop. by rewrite IH.
Qed.

Lemma parse_whitespace_stays pre rest :
  match rest with c :: _ => isspace c = false | [] => True end →
  parse_whitespace (pre ++ rest) (length pre) = length pre.
Proof.
  intros Hrest. rewrite parse_whitespace_at. destruct rest as [|c rest]; cbn; [lia|].
  rewrite Hrest. lia.
Qed.

Lemma parse_whitespace_blank pre lead rest :
  blank lead = true →
  match rest with c :: _ => isspace c = false | [] => True end →
  parse_whitespace (pre ++ lead ++ rest) (length pre) = length (pre ++ lead).
Proof.
  intros Hlead Hrest. rewrite parse_whitespace_at, span_blank, length_app by done.
  destruct rest as [|c rest]; cbn; [lia|]. rewrite Hrest. lia.
Qed.

(** The blanks, the separator when there is one, and the blanks after it
    are skipped, up to a character that is neither. *)
Lemma skip_separator_over c (mark : bool) lead1 lead2 pre rest :
  isspace c = false → blank lead1 = true → blank lead2 = true →
  match rest with
  | c' :: _ => isspace c' = false ∧ Ascii.eqb c' c = false
  | [] => True
  end →
  skip_separator c (pre ++ lead1 ++ (if mark then [c] else []) ++ lead2 ++ rest)
                 (length pre)
  = length (pre ++ lead1 ++ (if mark then [c] else []) ++ lead2).
Proof.
  intros Hc Hlead1 Hlead2 Hrest. unfold skip_separator.
  assert (match rest with c' :: _ => isspace c' = false | [] => True end) as Hrest'.
  { destruct rest; [done|]. by destruct Hrest. }
  destruct mark.
  - rewrite parse_whitespace_blank by done.
    rewrite (app_assoc pre lead1), at_char_at. cbn [app]. rewrite Ascii.eqb_refl.
    replace ((pre ++ lead1) ++ c :: lead2 ++ rest)
      with (((pre ++ lead1) ++ [c]) ++ lead2 ++ rest) by by rewrite <-!app_assoc.
    replace (S (length (pre ++ lead1))) with (length ((pre ++ lead1) ++ [c]))
      by (rewrite (length_app _ [c]); cbn; lia).
    rewrite parse_whitespace_blank by done. by rewrite <-!app_assoc.
  - cbn [app]. rewrite (app_assoc lead1 lead2).
    assert (blank (lead1 ++ lead2) = true) as Hlead.
    { unfold blank in *. by rewrite forallb_app, Hlead1, Hlead2. }
    rewrite parse_whitespace_blank by done.
    rewrite (app_assoc pre (lead1 ++ lead2)), at_char_at.
    assert (match rest with c' :: _ => Ascii.eqb c' c | [] => false end = false) as ->.
    { destruct rest; [done|]. by destruct Hrest. }
    by rewrite parse_whitespace_stays.
Qed.

(** After a value the cursor moves over what separates it from the next
    one, or over the blanks before what closes the loop. *)
Lemma skip_separator_after close (mark : bool) pad parts pre :
  isspace close = false → Ascii.eqb close "," = false →
  blank pad = true →
  Forall (λ part, opens_value part = true) parts →
  ∃ pre',
    (∀ tail, pre ++ after_part (separator "," mark pad) pad parts tail
             = pre' ++ body (separator "," mark pad) pad parts tail)
    ∧ (∀ tail, closed_by close tail = true →
         skip_separator "," (pre ++ after_part (separator "," mark pad) pad parts tail)
                        (length pre)
         = length pre').
Proof.
  intros Hsp Hcomma Hpad Hparts. destruct parts as [|part parts].
  - exists (pre ++ pad). split; [intros tail; cbn; by rewrite <-app_assoc|].
    intros tail Htail. cbn [after_part].
    pose proof (skip_separator_over "," false pad [] pre tail eq_refl Hpad eq_refl) as Hr.
    cbn [app] in Hr. rewrite app_nil_r in Hr. apply Hr.
    destruct tail as [|c tail]; [done|]. cbn in Htail.
    apply Ascii.eqb_eq in Htail as ->. done.
  - exists (pre ++ separator "," mark pad).
    split; [intros tail; cbn [after_part]; by rewrite <-app_assoc|].
    intros tail _. cbn [after_part]. unfold separator. rewrite <-!app_assoc.
    apply skip_separator_over; [done..|].
    apply Forall_cons in Hparts
      as [(c & rest & Hpart & Hc & _ & _ & Hcm & _)%opens_value_inv _].
    rewrite body_cons, Hpart. done.
Qed.

Lemma after_part_ends_number close (mark : bool) pad parts tail :
  is_num_char close = false →
  well_spaced pad mark = true →
  closed_by close tail = true →
  ends_number (after_part (separator "," mark pad) pad parts tail) = true.
Proof.
  intros Hclose [Hpad Hmark]%andb_prop Htail.
  assert (∀ rest, ends_number rest = true → ends_number (pad ++ rest) = true) as Hrest.
  { intros rest Hr. destruct pad as [|c pad]; [done|]. cbn in *.
    apply andb_prop in Hpad as [(-> & _)%isspace_plain _]. done. }
  destruct parts as [|part parts]; cbn [after_part].
  - apply Hrest. destruct tail as [|c tail]; [done|]. cbn in *.
    apply Ascii.eqb_eq in Htail as ->. by rewrite Hclose.
  - unfold separator. rewrite <-app_assoc.
    destruct pad as [|c pad].
    + cbn in Hmark. rewrite orb_false_r in Hmark. by rewrite Hmark.
    + cbn in *. apply andb_prop in Hpad as [(-> & _)%isspace_plain _]. done.
Qed.

(** ** Runs with a higher counter *)

Lemma parse_value_fuel fuel fuel' json_str pos value pos' :
  parse_value stod fuel json_str pos = Ret value pos' → fuel ≤ fuel' →
  parse_value stod fuel' json_str pos = Ret value pos'.
Proof.
  intros Hr Hle. rewrite <-Hr. apply fuel_mono; [done|]. by rewrite Hr.
Qed.

Lemma array_loop_fuel fuel fuel' json_str arr pos value pos' :
  array_loop stod fuel json_str arr pos = Ret value pos' → fuel ≤ fuel' →
  array_loop stod fuel' json_str arr pos = Ret value pos'.
Proof.
  intros Hr Hle. rewrite <-Hr. apply fuel_mono; [done|]. by rewrite Hr.
Qed.

Lemma object_loop_fuel fuel fuel' json_str obj pos value pos' :
  object_loop stod fuel json_str obj pos = Ret value pos' → fuel ≤ fuel' →
  object_loop stod fuel' json_str obj pos = Ret value pos'.
Proof.
  intros Hr Hle. rewrite <-Hr. apply fuel_mono; [done|]. by rewrite Hr.
Qed.

(** ** The two loops on texts that read as nodes *)

(** Blanks before a value are skipped by [parse_value] itself. *)
Lemma parse_value_lead fuel pre lead rest :
  blank lead = true →
  parse_value stod fuel (pre ++ lead ++ rest) (length pre)
  = parse_value stod fuel (pre ++ lead ++ rest) (length (pre ++ lead)).
Proof.
  intros Hlead. destruct fuel as [|fuel]; [done|]. cbn [parse_value].
  rewrite parse_whitespace_at, span_blank by done.
  rewrite (app_assoc pre lead rest), parse_whitespace_at, length_app.
  by rewrite Nat.add_assoc.
Qed.

Lemma array_loop_reads (mark : bool) pad (items : list (list ascii * Node)) :
  well_spaced pad mark = true →
  Forall (λ item, opens_value item.1 = true ∧ reads stod item.1 item.2) items →
  ∀ pre tail arr, closed_by "]" tail = true →
    ∃ fuel,
      array_loop stod fuel
        (pre ++ body (separator "," mark pad) pad items.*1 tail) arr (length pre)
      = Ret (Some (Array (arr ++ items.*2)))
            (S (length (pre ++ body (separator "," mark pad) pad items.*1 []))).
Proof.
  intros Hspaced. pose proof Hspaced as [Hpad _]%andb_prop.
  induction 1 as [|[part node] items [Hopen Hnode] Hitems IH]; intros pre tail arr Htail.
  - exists 1. cbn. rewrite before_char_at, !app_nil_r.
    destruct tail as [|c tail]; [done|]. cbn in Htail. by rewrite Htail.
  - rewrite !fmap_cons. cbn [fst snd] in *.
    set (sep := separator "," mark pad) in *.
    set (parts := items.*1) in *.
    assert (Forall (λ part, opens_value part = true) parts) as Hparts.
    { apply Forall_fmap. eapply Forall_impl; [done|]. by intros ? [? _]. }
    destruct (Hnode pre (after_part sep pad parts tail)) as [f1 H1];
      [by apply (after_part_ends_number "]")|].
    rewrite <-body_cons in H1.
    destruct (skip_separator_after "]" mark pad parts (pre ++ part))
      as (pre' & Hpre' & Hskip); [done..|].
    fold sep in Hpre', Hskip. specialize (Hskip tail Htail).
    rewrite <-app_assoc, <-body_cons in Hskip.
    destruct (IH pre' tail (arr ++ [node]) Htail) as [f2 H2].
    rewrite <-(Hpre' tail), <-(Hpre' []), <-!app_assoc, <-!body_cons in H2.
    cbn [app] in H2.
    remember (pre ++ body sep pad (part :: parts) tail) as json_str eqn:Hjson.
    exists (S (f1 `max` f2)). cbn [array_loop].
    assert (before_char "]" json_str (length pre) = true) as ->.
    { rewrite Hjson, body_cons, before_char_at.
      apply opens_value_inv in Hopen as (c & rest & -> & _ & Hc & _).
      cbn. by rewrite Hc. }
    rewrite (parse_value_fuel _ _ _ _ _ _ H1) by lia. rewrite Hskip.
    by rewrite (array_loop_fuel _ _ _ _ _ _ _ H2) by lia.
Qed.

Lemma object_loop_reads (marks colons : bool) pad
    (entries : list (string * list ascii * Node)) :
  well_spaced pad marks = true →
  Forall (λ entry, quote_free entry.1.1 = true
                   ∧ opens_value entry.1.2 = true
                   ∧ reads stod entry.1.2 entry.2) entries →
  ∀ pre tail obj, closed_by "}" tail = true →
    ∃ fuel,
      object_loop stod fuel
        (pre ++ body (separator "," marks pad) pad
                     (entry_text (separator ":" colons pad) <$> entries.*1) tail)
        obj (length pre)
      = Ret (Some (Object (foldl (λ obj entry, <[entry.1.1 := entry.2]> obj)
                                 obj entries)))
            (S (length (pre ++ body (separator "," marks pad) pad
                                    (entry_text (separator ":" colons pad)
                                       <$> entries.*1) []))).
Proof.
  intros Hspaced. pose proof Hspaced as [Hpad _]%andb_prop.
  induction 1 as [|[[key text] val] entries (Hkey & Hopen & Hval) Hentries IH];
    intros pre tail obj Htail.
  - exists 1. cbn. rewrite before_char_at, !app_nil_r.
    destruct tail as [|c tail]; [done|]. cbn in Htail. by rewrite Htail.
  - rewrite !fmap_cons. cbn [fst snd foldl] in *.
    set (sep := separator "," marks pad) in *.
    set (col := separator ":" colons pad) in *.
    set (parts := entry_text col <$> entries.*1) in *.
    set (chars := String.list_ascii_of_string key).
    assert (entry_text col (key, text) = quote :: chars ++ quote :: col ++ text)
      as Hpart.
    { unfold entry_text, generate_string. cbn. by rewrite <-app_assoc. }
    assert (Forall (λ part, opens_value part = true) parts) as Hparts.
    { unfold parts. apply Forall_fmap, Forall_true. by intros []. }
    remember (pre ++ body sep pad (entry_text col (key, text) :: parts) tail)
      as json_str eqn:Hjson.
    assert (json_str = pre ++ quote :: chars ++ quote :: col ++ text
                           ++ after_part sep pad parts tail) as Hjson1.
    { rewrite Hjson, body_cons, Hpart. cbn [app].
      rewrite <-?app_assoc. cbn [app]. by rewrite <-?app_assoc. }
    set (pre1 := pre ++ quote :: chars ++ [quote]).
    assert (json_str = pre1 ++ col ++ text ++ after_part sep pad parts tail) as Hjson2.
    { rewrite Hjson1. unfold pre1. rewrite <-app_assoc. cbn [app].
      by rewrite <-app_assoc. }
    set (pre2 := pre1 ++ col).
    assert (json_str = pre2 ++ text ++ after_part sep pad parts tail) as Hjson3.
    { rewrite Hjson2. unfold pre2. by rewrite <-app_assoc. }
    destruct (skip_separator_after "}" marks pad parts (pre2 ++ text))
      as (pre' & Hpre' & Hskip); [done..|].
    fold sep in Hpre', Hskip. specialize (Hskip tail Htail).
    rewrite <-app_assoc, <-Hjson3 in Hskip.
    destruct (Hval pre2 (after_part sep pad parts tail)) as [f1 H1];
      [by apply (after_part_ends_number "}")|].
    rewrite <-Hjson3 in H1.
    destruct (IH pre' tail (<[key := val]> obj) Htail) as [f2 H2].
    rewrite <-(Hpre' tail), <-app_assoc, <-Hjson3 in H2.
    assert (length (pre' ++ body sep pad parts [])
            = length (pre ++ body sep pad (entry_text col (key, text) :: parts) []))
      as Hlen.
    { rewrite <-(Hpre' []), body_cons, Hpart. unfold pre2, pre1.
      rewrite <-?app_assoc. cbn [app]. rewrite <-?app_assoc. cbn [app].
      by rewrite <-?app_assoc. }
    rewrite Hlen in H2.
    exists (S (S (f1 `max` f2))).
    remember (S (f1 `max` f2)) as fuel eqn:Hfuel. cbn [object_loop].
    assert (before_char "}" json_str (length pre) = true) as ->.
    { by rewrite Hjson1, before_char_at. }
    assert (parse_value stod fuel json_str (length pre)
            = Ret (Some (String key)) (length pre1)) as ->.
    { rewrite Hfuel, Hjson1, parse_value_string by done. unfold chars.
      rewrite String.string_of_list_ascii_of_string. unfold pre1.
      by rewrite length_app. }
    assert (skip_separator ":" json_str (length pre1) = length pre2) as ->.
    { rewrite Hjson2. unfold col, separator, pre2. rewrite <-!app_assoc.
      apply skip_separator_over; [done..|].
      apply opens_value_inv in Hopen as (c & rest & -> & Hc & _ & _ & _ & Hcol).
      done. }
    rewrite (parse_value_fuel _ _ _ _ _ _ H1) by lia. rewrite Hskip.
    by rewrite (object_loop_fuel _ _ _ _ _ _ _ H2) by lia.
Qed.

(** ** Blanks behind the opening bracket *)

Lemma loop_lead pre lead rest close :
  blank lead = true → opens_value rest = true →
  Ascii.eqb close "]" = true ∨ Ascii.eqb close "}" = true →
  before_char close (pre ++ lead ++ rest) (length pre) = true
  ∧ before_char close (pre ++ lead ++ rest) (length (pre ++ lead)) = true.
Proof.
  intros Hlead (c & rest' & -> & _ & Harr & Hobj & _)%opens_value_inv Hclose.
  assert (Ascii.eqb c close = false) as Hc.
  { destruct Hclose as [->%Ascii.eqb_eq| ->%Ascii.eqb_eq]; done. }
  split.
  - rewrite before_char_at. destruct lead as [|c' lead]; cbn; [by rewrite Hc|].
    cbn in Hlead. apply andb_prop in Hlead as [(_ & Harr' & Hobj' & _)%isspace_plain _].
    destruct Hclose as [->%Ascii.eqb_eq| ->%Ascii.eqb_eq].
    + by rewrite Harr'.
    + by rewrite Hobj'.
  - rewrite (app_assoc pre lead), before_char_at. by rewrite Hc.
Qed.

Lemma array_loop_lead fuel pre lead rest arr :
  blank lead = true → opens_value rest = true →
  array_loop stod fuel (pre ++ lead ++ rest) arr (length pre)
  = array_loop stod fuel (pre ++ lead ++ rest) arr (length (pre ++ lead)).
Proof.
  intros Hlead Hrest. destruct fuel as [|fuel]; [done|]. cbn [array_loop].
  destruct (loop_lead pre lead rest "]" Hlead Hrest) as [-> ->]; [by left|].
  by rewrite parse_value_lead.
Qed.

Lemma object_loop_lead fuel pre lead rest obj :
  blank lead = true → opens_value rest = true →
  object_loop stod fuel (pre ++ lead ++ rest) obj (length pre)
  = object_loop stod fuel (pre ++ lead ++ rest) obj (length (pre ++ lead)).
Proof.
  intros Hlead Hrest. destruct fuel as [|fuel]; [done|]. cbn [object_loop].
  destruct (loop_lead pre lead rest "}" Hlead Hrest) as [-> ->]; [by right|].
  by rewrite parse_value_lead.
Qed.

(** ** A bracket, what is in it, and what closes it *)

Lemma body_opens_value sep pad (part : list ascii) parts tail :
  opens_value part = true → opens_value (body sep pad (part :: parts) tail) = true.
Proof.
  intros (c & rest & -> & Hc)%opens_value_inv. rewrite body_cons. cbn.
  destruct Hc as (-> & -> & -> & -> & ->). done.
Qed.

Lemma array_text_reads (mark : bool) pad (items : list (list ascii * Node)) pre tail :
  well_spaced pad mark = true →
  Forall (λ item, opens_value item.1 = true ∧ reads stod item.1 item.2) items →
  closed_by "]" tail = true →
  ∃ fuel,
    parse_value stod fuel
      (pre ++ "["%char :: match items with [] => [] | _ => pad end
           ++ body (separator "," mark pad) pad items.*1 tail) (length pre)
    = Ret (Some (Array items.*2))
          (S (length (pre ++ "["%char :: match items with [] => [] | _ => pad end
                          ++ body (separator "," mark pad) pad items.*1 []))).
Proof.
  intros Hspaced Hitems Htail. pose proof Hspaced as [Hpad _]%andb_prop.
  set (lead := match items with [] => [] | _ => pad end).
  destruct (array_loop_reads mark pad items Hspaced Hitems
              (pre ++ "["%char :: lead) tail [] Htail) as [fuel Hloop].
  exists (S fuel). rewrite parse_value_at by done. cbn zeta.
  cbn [Ascii.eqb Bool.eqb]. change (Ascii.eqb "[" quote) with false. cbv iota.
  rewrite <-!app_assoc in Hloop. cbn [app] in Hloop. rewrite <-Hloop.
  replace (S (length pre)) with (length (pre ++ ["["%char]))
    by (rewrite length_app; cbn; lia).
  replace (pre ++ "["%char :: lead ++ body (separator "," mark pad) pad items.*1 tail)
    with ((pre ++ ["["%char]) ++ lead ++ body (separator "," mark pad) pad items.*1 tail)
    by by rewrite <-app_assoc.
  replace (length (pre ++ "["%char :: lead)) with (length ((pre ++ ["["%char]) ++ lead))
    by by rewrite <-app_assoc.
  destruct items as [|[part node] items']; [by rewrite app_nil_r|].
  apply array_loop_lead; [done|]. rewrite fmap_cons.
  apply body_opens_value. by apply Forall_cons in Hitems as [[? _] _].
Qed.

Lemma object_text_reads (marks colons : bool) pad
    (entries : list (string * list ascii * Node)) pre tail :
  well_spaced pad marks = true →
  Forall (λ entry, quote_free entry.1.1 = true
                   ∧ opens_value entry.1.2 = true
                   ∧ reads stod entry.1.2 entry.2) entries →
  closed_by "}" tail = true →
  ∃ fuel,
    parse_value stod fuel
      (pre ++ "{"%char :: match entries with [] => [] | _ => pad end
           ++ body (separator "," marks pad) pad
                   (entry_text (separator ":" colons pad) <$> entries.*1) tail)
      (length pre)
    = Ret (Some (Object (foldl (λ obj entry, <[entry.1.1 := entry.2]> obj) ∅ entries)))
          (S (length (pre ++ "{"%char :: match entries with [] => [] | _ => pad end
                          ++ body (separator "," marks pad) pad
                                  (entry_text (separator ":" colons pad)
                                     <$> entries.*1) []))).
Proof.
  intros Hspaced Hentries Htail. pose proof Hspaced as [Hpad _]%andb_prop.
  set (lead := match entries with [] => [] | _ => pad end).
  set (parts := entry_text (separator ":" colons pad) <$> entries.*1).
  destruct (object_loop_reads marks colons pad entries Hspaced Hentries
              (pre ++ "{"%char :: lead) tail ∅ Htail) as [fuel Hloop].
  fold parts in Hloop.
  exists (S fuel). rewrite parse_value_at by done. cbn zeta.
  cbn [Ascii.eqb Bool.eqb]. change (Ascii.eqb "{" quote) with false. cbv iota.
  rewrite <-!app_assoc in Hloop. cbn [app] in Hloop. rewrite <-Hloop.
  replace (S (length pre)) with (length (pre ++ ["{"%char]))
    by (rewrite length_app; cbn; lia).
  replace (pre ++ "{"%char :: lead ++ body (separator "," marks pad) pad parts tail)
    with ((pre ++ ["{"%char]) ++ lead ++ body (separator "," marks pad) pad parts tail)
    by by rewrite <-app_assoc.
  replace (length (pre ++ "{"%char :: lead)) with (length ((pre ++ ["{"%char]) ++ lead))
    by by rewrite <-app_assoc.
  destruct entries as [|[[key text] val] entries']; [by rewrite app_nil_r|].
  apply object_loop_lead; [done|]. unfold parts. rewrite !fmap_cons.
  by apply body_opens_value.
Qed.

(** ** The text of a node is read back *)

Lemma scalar_reads node :
  readable node = true → is_array node = false → is_object node = false →
  opens_value (generate to_string_double node) = true
  ∧ reads stod (generate to_string_double node) node.
Proof.
  intros Hnode Harray Hobject.
  destruct node as [|b|i|f|str|array|object]; cbn [readable] in Hnode;
    try done; unfold reads.
  - (* null *)
    split; [done|]. intros pre post _. exists 1.
    change (generate to_string_double Null) with (String.list_ascii_of_string "null").
    cbn [String.list_ascii_of_string app]. rewrite parse_value_at by done. cbn zeta.
    cbn [Ascii.eqb Bool.eqb]. unfold parse_null.
    etrans; [apply (parse_word_at "null" Null pre post)|]. by rewrite length_app.
  - (* true, false *)
    split; [by destruct b|]. intros pre post _. exists 1. destruct b.
    + change (generate to_string_double (Bool true))
        with (String.list_ascii_of_string "true").
      cbn [String.list_ascii_of_string app]. rewrite parse_value_at by done. cbn zeta.
      cbn [Ascii.eqb Bool.eqb]. unfold parse_true.
      etrans; [apply (parse_word_at "true" (Bool true) pre post)|].
      by rewrite length_app.
    + change (generate to_string_double (Bool false))
        with (String.list_ascii_of_string "false").
      cbn [String.list_ascii_of_string app]. rewrite parse_value_at by done. cbn zeta.
      cbn [Ascii.eqb Bool.eqb]. unfold parse_false.
      etrans; [apply (parse_word_at "false" (Bool false) pre post)|].
      by rewrite length_app.
  - (* an integer *)
    apply bool_decide_eq_true in Hnode as [Hlo Hhi].
    destruct (to_string_nonneg i Hlo) as (c & digits & Hts & Hdigits & Hstoi).
    rewrite decide_True in Hstoi by done.
    change (generate to_string_double (Int i)) with (to_string i).
    pose proof Hdigits as [Hc _]%Forall_cons.
    apply isdigit_plain in Hc
      as (Hsp & _ & _ & Hn & Ht & Hf & Hq & Harr & Hobj & Hcarr & Hcobj & Hcm & Hcol).
    split; [rewrite Hts; cbn; by rewrite Hsp, Hcarr, Hcobj, Hcm, Hcol|].
    intros pre post Hpost. exists 1. rewrite Hts. cbn [app].
    rewrite parse_value_at by done. cbn zeta. rewrite Hn, Ht, Hf, Hq, Harr, Hobj.
    etrans; [by apply (parse_number_at pre (c :: digits) post)|].
    by rewrite <-Hts, Hstoi, length_app.
  - (* a string *)
    change (generate to_string_double (String str)) with (generate_string str).
    unfold generate_string. split; [done|]. intros pre post _. exists 1.
    cbn [app]. rewrite <-app_assoc. cbn [app]. rewrite parse_value_string by done.
    by rewrite String.string_of_list_ascii_of_string, length_app.
Qed.

Lemma body_length sep pad parts tail :
  length (body sep pad parts tail) = length (body sep pad parts []) + length tail.
Proof. destruct parts; [done|]. cbn [body]. rewrite !length_app. cbn. lia. Qed.

Lemma readable_reads_spaced pad (commas colons : bool) node :
  well_spaced pad commas = true →
  readable node = true →
  opens_value (spaced pad commas colons to_string_double node) = true
  ∧ reads stod (spaced pad commas colons to_string_double node) node.
Proof.
  intros Hspaced. induction node as [node IH] using Node_size_ind. intros Hnode.
  set (text := spaced pad commas colons to_string_double).
  destruct (is_array node) eqn:Harray; [|destruct (is_object node) eqn:Hobject].
  - (* an array *)
    destruct node as [| | | | |array|]; try done. cbn [readable] in Hnode.
    change (text (Array array)) with (spaced_array_of pad commas (text <$> array)).
    split; [done|]. intros pre post _.
    set (items := (λ node, (text node, node)) <$> array).
    assert (items.*1 = text <$> array) as Hparts.
    { unfold items. rewrite <-list_fmap_compose. by apply list_fmap_ext. }
    assert (items.*2 = array) as Helems.
    { unfold items. rewrite <-list_fmap_compose. rewrite <-(list_fmap_id array) at 2.
      by apply list_fmap_ext. }
    destruct (array_text_reads commas pad items pre ("]"%char :: post) Hspaced)
      as [fuel Hr]; [|done|].
    { unfold items. apply Forall_fmap, Forall_forall. intros elem Hin. cbn.
      apply IH.
      - by apply node_size_array.
      - rewrite forallb_forall in Hnode. by apply Hnode, list_elem_of_In. }
    rewrite Hparts, Helems in Hr. exists fuel.
    assert (spaced_array_of pad commas (text <$> array)
            = "["%char :: match items with [] => [] | _ => pad end
                ++ body (separator "," commas pad) pad (text <$> array) ["]"%char])
      as Htext.
    { unfold spaced_array_of, items. by destruct array. }
    rewrite Htext. cbn [app]. rewrite <-app_assoc, body_app. cbn [app].
    rewrite Hr. f_equal. rewrite !length_app. cbn [length].
    rewrite !length_app, (body_length _ _ _ ["]"%char]). cbn. lia.
  - (* an object *)
    destruct node as [| | | | | |object]; try done.
    change (text (Object object))
      with (spaced_object_of pad commas colons (sorted_entries (text <$> object))).
    split; [done|]. intros pre post _.
    destruct (sorted_entries_fmap text object) as (pairs & Hsorted & Hperm).
    rewrite Hsorted.
    set (entries := (λ pair : string * Node, (pair.1, text pair.2, pair.2)) <$> pairs).
    assert (entries.*1 = prod_map id text <$> pairs) as Hparts.
    { unfold entries. rewrite <-list_fmap_compose. by apply list_fmap_ext. }
    cbn [readable] in Hnode. apply bool_decide_eq_true in Hnode.
    destruct (object_text_reads commas colons pad entries pre ("}"%char :: post) Hspaced)
      as [fuel Hr]; [|done|].
    { unfold entries. apply Forall_fmap, Forall_forall. intros [key val] Hin. cbn.
      rewrite Hperm in Hin. apply elem_of_map_to_list in Hin.
      destruct (Hnode key (readable val)) as [Hkey Hval];
        [by rewrite lookup_fmap, Hin|].
      split; [done|]. apply IH; [|done]. by eapply node_size_object. }
    assert (foldl (λ obj entry, <[entry.1.1 := entry.2]> obj) ∅ entries = object)
      as Hobj.
    { unfold entries. rewrite foldl_fmap. cbn [fst snd].
      assert (NoDup pairs.*1) as Hnd.
      { rewrite Hperm. apply NoDup_fst_map_to_list. }
      rewrite foldl_insert_entries, (right_id_L ∅ (∪)) by done.
      by rewrite (list_to_map_proper _ _ Hnd Hperm), list_to_map_to_list. }
    rewrite Hparts, Hobj in Hr. exists fuel.
    assert (spaced_object_of pad commas colons (prod_map id text <$> pairs)
            = "{"%char :: match entries with [] => [] | _ => pad end
                ++ body (separator "," commas pad) pad
                        (entry_text (separator ":" colons pad)
                           <$> (prod_map id text <$> pairs)) ["}"%char])
      as Htext.
    { unfold spaced_object_of, entries. by destruct pairs. }
    rewrite Htext. cbn [app]. rewrite <-app_assoc, body_app. cbn [app].
    rewrite Hr. f_equal. rewrite !length_app. cbn [length].
    rewrite !length_app, (body_length _ _ _ ["}"%char]). cbn. lia.
  - (* null, true, false, a number, a string *)
    assert (text node = generate to_string_double node) as ->
      by by destruct node.
    by apply scalar_reads.
Qed.

(** [generate] writes the text without blanks, with every comma and
    every colon. *)
Lemma generate_spaced node :
  generate to_string_double node = spaced [] true true to_string_double node.
Proof.
  induction node as [node IH] using Node_size_ind.
  destruct node as [| | | | |array|object]; try done.
  - change (generate to_string_double (Array array))
      with (generate_array_of (generate to_string_double <$> array)).
    change (spaced [] true true to_string_double (Array array))
      with (spaced_array_of [] true (spaced [] true true to_string_double <$> array)).
    rewrite generate_array_of_join.
    assert (generate to_string_double <$> array
            = spaced [] true true to_string_double <$> array) as ->.
    { apply Forall_fmap_ext_1, Forall_forall. intros elem Hin.
      by apply IH, node_size_array. }
    unfold spaced_array_of. by destruct (_ <$> array).
  - change (generate to_string_double (Object object))
      with (generate_object_of (sorted_entries (generate to_string_double <$> object))).
    change (spaced [] true true to_string_double (Object object))
      with (spaced_object_of [] true true
              (sorted_entries (spaced [] true true to_string_double <$> object))).
    rewrite generate_object_of_join.
    assert (generate to_string_double <$> object
            = spaced [] true true to_string_double <$> object) as ->.
    { apply map_fmap_ext. intros key val Hkey. by eapply IH, node_size_object. }
    unfold spaced_object_of. by destruct (sorted_entries _).
Qed.

Lemma readable_reads_back node :
  readable node = true →
  opens_value (generate to_string_double node) = true
  ∧ reads stod (generate to_string_double node) node.
Proof.
  intros Hnode. rewrite generate_spaced. by apply readable_reads_spaced.
Qed.

(** ** The parser on a whole text *)

Lemma parse_value_any_fuel fuel fuel' json_str pos :
  parse_value stod fuel json_str pos ≠ NoFuel →
  2 * (length json_str - pos) + 1 ≤ fuel' →
  parse_value stod fuel' json_str pos = parse_value stod fuel json_str pos.
Proof.
  intros Hr Hfuel'. destruct (decide (fuel ≤ fuel')) as [Hle|Hlt].
  - by apply fuel_mono.
  - pose proof (proj1 (fuel_enough fuel') json_str pos Hfuel') as Hend.
    symmetry. apply fuel_mono; [lia|done].
Qed.

Lemma parser_from c rest fuel :
  isspace c = false →
  parse_value stod fuel (c :: rest) 0 ≠ NoFuel →
  parser stod (c :: rest) = parse_value stod fuel (c :: rest) 0.
Proof.
  intros Hc Hr. unfold parser, parse, parse_whitespace. cbn [drop span].
  rewrite Hc. cbn [Nat.add]. apply parse_value_any_fuel; [done|]. cbn [length]. lia.
Qed.

Lemma parser_at c rest fuel value pos' :
  isspace c = false →
  parse_value stod fuel (c :: rest) 0 = Ret value pos' →
  parser stod (c :: rest) = Ret value pos'.
Proof. intros Hc Hr. rewrite <-Hr. apply parser_from; [done|]. by rewrite Hr. Qed.

Lemma parser_at_end c rest fuel :
  isspace c = false →
  parse_value stod fuel (c :: rest) 0 = PastEnd →
  parser stod (c :: rest) = PastEnd.
Proof. intros Hc Hr. rewrite <-Hr. apply parser_from; [done|]. by rewrite Hr. Qed.

Lemma parser_at_throw c rest fuel e :
  isspace c = false →
  parse_value stod fuel (c :: rest) 0 = Throw e →
  parser stod (c :: rest) = Throw e.
Proof. intros Hc Hr. rewrite <-Hr. apply parser_from; [done|]. by rewrite Hr. Qed.

Lemma parser_reads_text text node blanks post :
  opens_value text = true → reads stod text node →
  blank blanks = true → ends_number post = true →
  parser stod (blanks ++ text ++ post) = Ret (Some node) (length blanks + length text).
Proof.
  intros Hopen Hnode Hblanks Hpost.
  destruct (Hnode blanks post Hpost) as [fuel Hr]. rewrite length_app in Hr.
  unfold parser, parse, parse_whitespace. rewrite drop_0. cbn [Nat.add].
  rewrite span_app; [|by apply blank_Forall|].
  - rewrite <-Hr. apply parse_value_any_fuel; [by rewrite Hr|]. lia.
  - apply opens_value_inv in Hopen as (c & rest & -> & Hc & _). done.
Qed.

Lemma parser_reads node blanks post :
  readable node = true → blank blanks = true → ends_number post = true →
  parser stod (blanks ++ generate to_string_double node ++ post)
  = Ret (Some node) (length blanks + length (generate to_string_double node)).
Proof.
  intros [Hopen Hnode]%readable_reads_back. by apply parser_reads_text.
Qed.

Lemma list_ascii_of_string_app (str1 str2 : string) :
  String.list_ascii_of_string (str1 +:+ str2)
  = String.list_ascii_of_string str1 ++ String.list_ascii_of_string str2.
Proof. induction str1 as [|c str1 IH]; [done|]. cbn. rewrite <-IH. reflexivity. Qed.

Lemma array_loop_returns_array fuel json_str arr pos value pos' :
  array_loop stod fuel json_str arr pos = Ret value pos' →
  ∃ arr', value = Some (Array (arr ++ arr')).
Proof.
  revert arr pos. induction fuel as [|fuel IH]; intros arr pos; [done|]. cbn.
  destruct (before_char _ _ _).
  - destruct (parse_value _ _ _ _) as [[node|] pos1| | |]; try done.
    intros (arr' & ->)%IH. exists (node :: arr'). by rewrite <-app_assoc.
  - intros [= <- _]. exists []. by rewrite app_nil_r.
Qed.

Lemma parse_value_at_start fuel c rest :
  isspace c = false →
  parse_value stod (S fuel) (c :: rest) 0
  = let json_str := c :: rest in
    if Ascii.eqb c "n" then parse_null json_str 0
    else if Ascii.eqb c "t" then parse_true json_str 0
    else if Ascii.eqb c "f" then parse_false json_str 0
    else if Ascii.eqb c quote then parse_string json_str 0
    else if Ascii.eqb c "[" then array_loop stod fuel json_str [] 1
    else if Ascii.eqb c "{" then object_loop stod fuel json_str ∅ 1
    else parse_number stod json_str 0.
Proof. apply (parse_value_at fuel [] c rest). Qed.

Lemma is_num_char_plain c :
  is_num_char c = true →
  isspace c = false
  ∧ Ascii.eqb c "n" = false ∧ Ascii.eqb c "t" = false ∧ Ascii.eqb c "f" = false
  ∧ Ascii.eqb c quote = false ∧ Ascii.eqb c "[" = false ∧ Ascii.eqb c "{" = false.
Proof. by destruct c as [[] [] [] [] [] [] [] []]. Qed.

Lemma parse_number_of pre number post :
  Forall (λ c, is_num_char c = true) number →
  ends_number post = true →
  parse_number stod (pre ++ number ++ post) (length pre)
  = if is_Float number then
      match stod number with
      | Some ret => Ret (Some (Float ret)) (length pre + length number)
      | None => Ret None (length pre + length number)
      end
    else
      match stoi number with
      | Some ret => Ret (Some (Int ret)) (length pre + length number)
      | None => Ret None (length pre + length number)
      end.
Proof.
  intros Hnum Hpost. unfold parse_number. rewrite drop_app_length.
  rewrite span_app; [|done|].
  - rewrite substr_at. replace (length pre + length number - length pre)
      with (length number) by lia.
    by rewrite take_app_length.
  - destruct post as [|c post]; [done|]. cbn in Hpost. by destruct (is_num_char c).
Qed.


(** ** Texts without blanks *)

Lemma body_compact parts tail :
  body (separator "," true []) [] parts tail = join [","%char] parts ++ tail.
Proof. by destruct parts. Qed.

Lemma generated_items (array : list Node) :
  forallb readable array = true →
  Forall (λ item : list ascii * Node,
            opens_value item.1 = true ∧ reads stod item.1 item.2)
         ((λ node, (generate to_string_double node, node)) <$> array).
Proof.
  intros Harray. apply Forall_fmap, Forall_forall. intros node Hin. cbn.
  apply readable_reads_back. rewrite forallb_forall in Harray.
  by apply Harray, list_elem_of_In.
Qed.

Lemma generated_entries (entries : list (string * Node)) :
  Forall (λ entry, quote_free entry.1 = true ∧ readable entry.2 = true) entries →
  Forall (λ entry : string * list ascii * Node,
            quote_free entry.1.1 = true ∧ opens_value entry.1.2 = true
            ∧ reads stod entry.1.2 entry.2)
         ((λ entry : string * Node,
             (entry.1, generate to_string_double entry.2, entry.2)) <$> entries).
Proof.
  intros Hentries. apply Forall_fmap. eapply Forall_impl; [done|].
  intros [key val] [Hkey Hval]. cbn. split; [done|]. by apply readable_reads_back.
Qed.

(** The text of an array between its brackets, closed or not. *)
Lemma compact_array_reads (array : list Node) tail :
  forallb readable array = true → closed_by "]" tail = true →
  ∃ fuel,
    parse_value stod fuel
      ("["%char :: join [","%char] (generate to_string_double <$> array) ++ tail) 0
    = Ret (Some (Array array))
          (S (S (length (join [","%char] (generate to_string_double <$> array))))).
Proof.
  intros Harray Htail.
  destruct (array_text_reads true []
              ((λ node, (generate to_string_double node, node)) <$> array) [] tail
              eq_refl (generated_items array Harray) Htail) as [fuel Hr].
  rewrite <-!list_fmap_compose in Hr.
  assert ((snd ∘ (λ node, (generate to_string_double node, node))) <$> array = array)
    as Helems.
  { rewrite <-(list_fmap_id array) at 2. by apply list_fmap_ext. }
  rewrite Helems in Hr.
  change (fst ∘ (λ node, (generate to_string_double node, node)))
    with (generate to_string_double) in Hr.
  rewrite !body_compact, app_nil_r in Hr. cbn [app length] in Hr.
  exists fuel. by destruct array.
Qed.

(** The text of entries between braces, closed or not. *)
Lemma compact_object_reads (entries : list (string * Node)) tail :
  Forall (λ entry, quote_free entry.1 = true ∧ readable entry.2 = true) entries →
  closed_by "}" tail = true →
  ∃ fuel,
    parse_value stod fuel
      ("{"%char :: join [","%char]
                     (entry_text [":"%char]
                        <$> (prod_map id (generate to_string_double) <$> entries))
                ++ tail) 0
    = Ret (Some (Object (foldl (λ obj entry, <[entry.1 := entry.2]> obj) ∅ entries)))
          (S (S (length (join [","%char]
                           (entry_text [":"%char]
                              <$> (prod_map id (generate to_string_double)
                                     <$> entries)))))).
Proof.
  intros Hentries Htail.
  destruct (object_text_reads true true []
              ((λ entry : string * Node,
                  (entry.1, generate to_string_double entry.2, entry.2)) <$> entries)
              [] tail eq_refl (generated_entries entries Hentries) Htail) as [fuel Hr].
  rewrite foldl_fmap in Hr. cbn [fst snd] in Hr.
  assert (((λ entry : string * Node,
              (entry.1, generate to_string_double entry.2, entry.2)) <$> entries).*1
          = prod_map id (generate to_string_double) <$> entries) as Hparts.
  { rewrite <-list_fmap_compose. by apply list_fmap_ext. }
  rewrite Hparts, !body_compact, app_nil_r in Hr.
  change (separator ":" true []) with [":"%char] in Hr. cbn [app length] in Hr.
  exists fuel. by destruct entries.
Qed.

Lemma readable_object_entries (object : gmap string Node) entries :
  readable (Object object) = true → entries ≡ₚ map_to_list object →
  Forall (λ entry, quote_free entry.1 = true ∧ readable entry.2 = true) entries.
Proof.
  cbn [readable]. intros Hobject%bool_decide_eq_true Hperm.
  apply Forall_forall. intros [key val] Hin. rewrite Hperm in Hin.
  apply elem_of_map_to_list in Hin. apply (Hobject key (readable val)).
  by rewrite lookup_fmap, Hin.
Qed.

(** With the later entries over the earlier ones. *)
Lemma foldl_insert_last_wins (entries : list (string * Node)) (obj : gmap string Node) :
  foldl (λ obj entry, <[entry.1 := entry.2]> obj) obj entries
  = list_to_map (reverse entries) ∪ obj.
Proof.
  revert obj. induction entries as [|[key val] entries IH]; intros obj.
  - cbn. by rewrite (left_id_L ∅ (∪)).
  - cbn [foldl fst snd]. rewrite IH, reverse_cons, list_to_map_app.
    rewrite <-(assoc_L (∪)). f_equal. cbn.
    by rewrite insert_union_singleton_l, insert_empty.
Qed.

Lemma span_all f (l : list ascii) :
  Forall (λ c, f c = true) l → span f l = length l.
Proof. intros Hl. rewrite <-(app_nil_r l) at 1. by apply span_app. Qed.

Lemma pop_back_closed (c close : ascii) (text : list ascii) :
  pop_back (c :: text ++ [close]) = c :: text.
Proof. apply (removelast_last (c :: text) close). Qed.

(** Where a value is expected and the text closes an array or an object,
    [parse_number] finds no digit. *)
Lemma parse_value_closing fuel pre lead close post :
  blank lead = true → close = "]"%char ∨ close = "}"%char →
  parse_value stod (S fuel) (pre ++ lead ++ close :: post) (length pre)
  = Ret None (length (pre ++ lead)).
Proof.
  intros Hlead Hclose. rewrite parse_value_lead, (app_assoc pre lead) by done.
  rewrite parse_value_at by (by destruct Hclose as [-> | ->]). cbn zeta.
  pose proof (parse_number_of (pre ++ lead) [] (close :: post) (Forall_nil_2 _)) as Hr.
  cbn [app length is_Float existsb orb] in Hr. rewrite Nat.add_0_r in Hr.
  destruct Hclose as [-> | ->]; by apply Hr.
Qed.

Lemma array_loop_step fuel json_str arr pos :
  array_loop stod (S fuel) json_str arr pos
  = if before_char "]" json_str pos then
      match parse_value stod fuel json_str pos with
      | Ret None _ => Throw bad_optional_access
      | Ret (Some value) pos =>
          array_loop stod fuel json_str (arr ++ [value]) (skip_separator "," json_str pos)
      | Throw e => Throw e
      | PastEnd => PastEnd
      | NoFuel => NoFuel
      end
    else Ret (Some (Array arr)) (S pos).
Proof. done. Qed.

Lemma object_loop_empty_key fuel json_str obj pos pos' :
  before_char "}" json_str pos = true →
  parse_value stod fuel json_str pos = Ret None pos' →
  object_loop stod (S fuel) json_str obj pos = Throw bad_optional_access.
Proof. intros Hb Hr. cbn [object_loop]. by rewrite Hb, Hr. Qed.

Lemma parse_value_array_start fuel rest :
  parse_value stod (S fuel) ("["%char :: rest) 0
  = array_loop stod fuel ("["%char :: rest) [] 1.
Proof. by rewrite parse_value_at_start. Qed.

Lemma parse_value_object_start fuel rest :
  parse_value stod (S fuel) ("{"%char :: rest) 0
  = object_loop stod fuel ("{"%char :: rest) ∅ 1.
Proof. by rewrite parse_value_at_start. Qed.

(** ** What the parser and the generator do *)

(** X9.  The recursive descent ends on every text.  Each value that
    [parse_value] returns has moved the cursor, so the loops of
    [parse_array] and [parse_object] run at most once for a character of
    the text; the counter [parser] starts with is never used up, and a
    higher one changes nothing. *)
Theorem parser_ends (json_str : list ascii) (fuel : nat) :
  2 * length json_str + 2 ≤ fuel →
  parser stod json_str ≠ NoFuel
  ∧ parse stod fuel json_str = parser stod json_str.
Proof.
  intros Hfuel. unfold parser, parse.
  assert (parse_value stod (2 * length json_str + 2) json_str
            (parse_whitespace json_str 0) ≠ NoFuel) as Hend.
  { apply fuel_enough. lia. }
  split; [done|]. by apply fuel_mono.
Qed.

(** X10.  [parser] reads back what [generate] wrote.  For a node without
    a [double], with integers from 0 to [INT_MAX] and without a double
    quote in a string or a key, the text of the node is parsed to the
    node itself; blanks before the text are skipped and what comes after
    it is not looked at, the cursor stays at the end of the text. *)
Theorem parser_reads_generate (node : Node) (blanks post : list ascii) :
  readable node = true → blank blanks = true → ends_number post = true →
  parser stod (blanks ++ generate to_string_double node ++ post)
  = Ret (Some node) (length blanks + length (generate to_string_double node)).
Proof. apply parser_reads. Qed.

(** X11.  Which integers come back.  The text of an integer from 0 to
    [INT_MAX] is read back as that integer.  A negative one is written
    with a minus sign, which [parse_number] does not take: the parser
    returns the empty optional without moving.  One above [INT_MAX] makes
    [std::stoi] throw, and the parser returns the empty optional behind
    the digits. *)
Theorem parser_generate_Int (i : Z) :
  parser stod (generate to_string_double (Int i))
  = if decide (0 ≤ i ≤ 2147483647)%Z then Ret (Some (Int i)) (length (to_string i))
    else if decide (i < 0)%Z then Ret None 0
    else Ret None (length (to_string i)).
Proof.
  destruct (decide (0 ≤ i ≤ 2147483647)%Z) as [Hi|Hi].
  - pose proof (parser_reads (Int i) [] []) as Hr. cbn [app length Nat.add] in Hr.
    rewrite app_nil_r in Hr. apply Hr; [|done..]. by apply bool_decide_eq_true.
  - change (generate to_string_double (Int i)) with (to_string i).
    destruct (decide (i < 0)%Z) as [Hneg|Hpos].
    + destruct (to_string_neg i Hneg) as [digits ->].
      apply (parser_at _ _ 1); [done|].
      rewrite parse_value_at_start by done. cbn zeta.
      cbn [Ascii.eqb Bool.eqb]. change (Ascii.eqb "-" quote) with false. cbv iota.
      unfold parse_number, substr. cbn. by destruct (decide _); [lia|].
    + destruct (to_string_nonneg i) as (c & digits & Hts & Hdigits & Hstoi); [lia|].
      rewrite decide_False in Hstoi by lia. rewrite Hts.
      pose proof Hdigits as [Hc _]%Forall_cons.
      apply isdigit_plain in Hc
        as (Hsp & _ & _ & Hn & Ht & Hf & Hq & Harr & Hobj & _).
      apply (parser_at _ _ 1); [done|].
      rewrite parse_value_at_start by done. cbn zeta.
      rewrite Hn, Ht, Hf, Hq, Harr, Hobj.
      pose proof (parse_number_at [] (c :: digits) [] Hdigits eq_refl) as Hr.
      rewrite app_nil_r in Hr. cbn [app length Nat.add] in Hr. rewrite Hr.
      rewrite Hts in Hstoi. by rewrite Hstoi.
Qed.

(** X12.  A double quote inside a string is written as it is, and ends
    the string when the text is read: what comes back is the part before
    the first quote. *)
Theorem parser_cuts_String_at_quote (str1 str2 : string) :
  quote_free str1 = true →
  parser stod (generate to_string_double (String (str1 +:+ String.String quote str2)))
  = Ret (Some (String str1)) (String.length str1 + 2).
Proof.
  intros Hfree.
  change (generate to_string_double (String (str1 +:+ String.String quote str2)))
    with (generate_string (str1 +:+ String.String quote str2)).
  unfold generate_string. rewrite list_ascii_of_string_app.
  cbn [String.list_ascii_of_string]. rewrite <-app_assoc. cbn [app].
  apply (parser_at _ _ 1); [done|].
  etrans; [apply (parse_value_string 0 [] _ _ Hfree)|].
  rewrite String.string_of_list_ascii_of_string. f_equal.
  cbn. rewrite length_app, length_list_ascii_of_string. cbn. lia.
Qed.

(** X13.  [parse_array] never returns the empty optional.  When it
    returns it returns an array, with the cursor moved: a value of the
    array that cannot be read ends the call with [bad_optional_access]
    instead, from line 129. *)
Theorem parse_array_returns_array fuel json_str pos value pos' :
  parse_array stod fuel json_str pos = Ret value pos' →
  ∃ arr, value = Some (Array arr) ∧ pos < pos'.
Proof.
  unfold parse_array. intros Hr.
  destruct (array_loop_returns_array _ _ _ _ _ _ Hr) as [arr ->].
  exists arr. split; [done|].
  apply (proj1 (proj2 (advances fuel))) in Hr. lia.
Qed.

(** X14.  The bracket that closes an array or an object may be missing.
    The loops of lines 127 and 143 stop at the end of the text as they do
    at the bracket, and line 136 or 161 moves the cursor on all the same:
    the text without its last character is read to the same node, and the
    cursor ends one past the end of the text. *)
Theorem parser_reads_unclosed (node : Node) :
  readable node = true → is_array node || is_object node = true →
  parser stod (pop_back (generate to_string_double node))
  = Ret (Some node) (S (length (pop_back (generate to_string_double node)))).
Proof.
  intros Hnode Hkind. destruct node as [| | | | |array|object]; try done.
  - change (generate to_string_double (Array array))
      with (generate_array_of (generate to_string_double <$> array)).
    rewrite generate_array_of_join, pop_back_closed.
    destruct (compact_array_reads array [] Hnode eq_refl) as [fuel Hr].
    rewrite app_nil_r in Hr. by apply (parser_at _ _ fuel).
  - change (generate to_string_double (Object object))
      with (generate_object_of (sorted_entries (generate to_string_double <$> object))).
    rewrite generate_object_of_join, pop_back_closed.
    destruct (sorted_entries_fmap (generate to_string_double) object)
      as (entries & -> & Hperm).
    destruct (compact_object_reads entries []
                (readable_object_entries object entries Hnode Hperm) eq_refl)
      as [fuel Hr].
    rewrite app_nil_r in Hr.
    assert (NoDup entries.*1) as Hnd.
    { rewrite Hperm. apply NoDup_fst_map_to_list. }
    rewrite foldl_insert_entries, (right_id_L ∅ (∪)) in Hr by done.
    rewrite (list_to_map_proper _ _ Hnd Hperm), list_to_map_to_list in Hr.
    by apply (parser_at _ _ fuel).
Qed.

(** X15.  On a text of blanks only, the empty text among them,
    [parse_value] reads [json_str[pos]] at the end of the text. *)
Theorem parser_blank_text (json_str : list ascii) :
  Forall (λ c, isspace c = true) json_str →
  parser stod json_str = PastEnd.
Proof.
  intros Hblank. unfold parser, parse.
  replace (2 * length json_str + 2) with (S (2 * length json_str + 1)) by lia.
  cbn [parse_value].
  assert (parse_whitespace json_str 0 = length json_str) as ->.
  { unfold parse_whitespace. rewrite drop_0. by rewrite span_all. }
  assert (parse_whitespace json_str (length json_str) = length json_str) as ->.
  { unfold parse_whitespace. rewrite drop_all. cbn. lia. }
  by rewrite lookup_ge_None_2.
Qed.

(** X16.  A string that is not closed.  The loop of line 116 tests
    [pos], not [endpos], against the size: it reads on past the end of
    the text when the text holds no second quote.  A quote that is the
    last character of the text is read as the empty string, with the
    cursor two past it. *)
Theorem parser_unclosed_String (str : string) :
  quote_free str = true →
  parser stod (quote :: String.list_ascii_of_string str)
  = if decide (str = ""%string) then Ret (Some (String ""%string)) 2 else PastEnd.
Proof.
  intros Hfree.
  assert (parse_value stod 1 (quote :: String.list_ascii_of_string str) 0
          = parse_string (quote :: String.list_ascii_of_string str) 0) as Hswitch.
  { rewrite parse_value_at_start by done. cbn zeta.
    change (Ascii.eqb quote "n") with false. change (Ascii.eqb quote "t") with false.
    change (Ascii.eqb quote "f") with false. by rewrite Ascii.eqb_refl. }
  unfold parse_string in Hswitch. cbn [app length] in Hswitch.
  destruct str as [|c str].
  - rewrite decide_True by done. by apply (parser_at _ _ 1).
  - rewrite decide_False by done. rewrite decide_True in Hswitch by (cbn; lia).
    change (drop 1 (quote :: String.list_ascii_of_string (String.String c str)))
      with (String.list_ascii_of_string (String.String c str)) in Hswitch.
    rewrite find_quote_none in Hswitch by done. by apply (parser_at_end _ _ 1).
Qed.

(** X17.  The texts of an array and of an object.  [generate_array]
    writes the texts of the elements between two brackets with a comma
    between one and the next, none after the last; [generate_object]
    does so with the entries, each a key between quotes, a colon and the
    text of the value, in the order of the keys. *)
Theorem generate_joins :
  (∀ array : list Node,
     generate_array to_string_double array
     = "["%char :: join [","%char] (generate to_string_double <$> array) ++ ["]"%char])
  ∧ (∀ object : gmap string Node,
       generate_object to_string_double object
       = "{"%char
           :: join [","%char]
                (entry_text [":"%char]
                   <$> sorted_entries (generate to_string_double <$> object))
           ++ ["}"%char]).
Proof.
  split; [intros array|intros object].
  - apply generate_array_of_join.
  - apply generate_object_of_join.
Qed.

(** X18.  A key that is no string.  When the first key of an object is
    read as a node that is not a string, [parse_object] returns the
    empty optional, from line 147, and so does [parser], with the cursor
    behind the key and the blanks after it. *)
Theorem parser_key_not_String (node : Node) (post : list ascii) :
  readable node = true → (∀ str, node ≠ String str) → ends_number post = true →
  parser stod ("{"%char :: generate to_string_double node ++ post)
  = Ret None (S (length (generate to_string_double node)) + span isspace post).
Proof.
  intros [Hopen Hnode]%readable_reads_back Hkey Hpost.
  destruct (Hnode ["{"%char] post Hpost) as [fuel Hr]. cbn [app length] in Hr.
  apply (parser_at _ _ (S (S fuel))); [done|].
  rewrite parse_value_at_start by done. cbn zeta.
  cbn [Ascii.eqb Bool.eqb]. change (Ascii.eqb "{" quote) with false. cbv iota.
  cbn [object_loop app length].
  assert (before_char "}" ("{"%char :: generate to_string_double node ++ post) 1 = true)
    as ->.
  { apply opens_value_inv in Hopen as (c & rest & -> & _ & _ & Hc & _).
    apply (f_equal negb) in Hc. exact Hc. }
  rewrite Hr.
  pose proof (parse_whitespace_at ("{"%char :: generate to_string_double node) post)
    as Hws.
  cbn [app length] in Hws. rewrite Hws.
  destruct node; try done. by destruct (Hkey s).
Qed.

(** X19.  Entries in any order, a key more than once.  A text of
    entries between braces, as [generate_object] writes them but in any
    order and with keys repeated, is read to the map that holds for each
    key the value of its last entry: line 154 assigns over what is
    there. *)
Theorem parser_last_entry_wins (entries : list (string * Node)) :
  Forall (λ entry, quote_free entry.1 = true ∧ readable entry.2 = true) entries →
  parser stod
    (generate_object_of (prod_map id (generate to_string_double) <$> entries))
  = Ret (Some (Object (list_to_map (reverse entries))))
        (length (generate_object_of
                   (prod_map id (generate to_string_double) <$> entries))).
Proof.
  intros Hentries. rewrite generate_object_of_join.
  destruct (compact_object_reads entries ["}"%char] Hentries eq_refl) as [fuel Hr].
  rewrite foldl_insert_last_wins, (right_id_L ∅ (∪)) in Hr.
  etrans; [by apply (parser_at _ _ fuel)|]. f_equal.
  cbn. rewrite length_app. cbn. lia.
Qed.

(** X20.  A text that starts with a number.  [parse_number] takes the
    digits, dots and letters e from the cursor on, as many as there are,
    and gives them to [std::stod] when a dot or an e is among them and to
    [std::stoi] when not; when the function throws, the parser returns
    the empty optional, with the cursor behind the characters. *)
Theorem parser_number (c : ascii) (number post : list ascii) :
  Forall (λ c, is_num_char c = true) (c :: number) →
  ends_number post = true →
  parser stod (c :: number ++ post)
  = if is_Float (c :: number) then
      match stod (c :: number) with
      | Some ret => Ret (Some (Float ret)) (S (length number))
      | None => Ret None (S (length number))
      end
    else
      match stoi (c :: number) with
      | Some ret => Ret (Some (Int ret)) (S (length number))
      | None => Ret None (S (length number))
      end.
Proof.
  intros Hnum Hpost. pose proof Hnum as [Hc _]%Forall_cons.
  apply is_num_char_plain in Hc as (Hsp & Hn & Ht & Hf & Hq & Harr & Hobj).
  pose proof (parse_number_of [] (c :: number) post Hnum Hpost) as Hr.
  cbn [app length Nat.add] in Hr.
  assert (parse_value stod 1 (c :: number ++ post) 0
          = parse_number stod (c :: number ++ post) 0) as Hswitch.
  { rewrite parse_value_at_start by done. cbn zeta.
    by rewrite Hn, Ht, Hf, Hq, Harr, Hobj. }
  rewrite Hr in Hswitch.
  destruct (is_Float (c :: number)).
  - destruct (stod (c :: number)); by apply (parser_at _ _ 1).
  - destruct (stoi (c :: number)); by apply (parser_at _ _ 1).
Qed.

(** X21.  A text that starts with n, t or f.  It is read as the keyword
    when it goes on as the keyword does, whatever comes after it; when
    not, the parser returns the empty optional and has not moved. *)
Theorem parser_keywords (rest : list ascii) :
  parser stod ("n"%char :: rest)
  = (if decide (take 3 rest = String.list_ascii_of_string "ull")
     then Ret (Some Null) 4 else Ret None 0)
  ∧ parser stod ("t"%char :: rest)
    = (if decide (take 3 rest = String.list_ascii_of_string "rue")
       then Ret (Some (Bool true)) 4 else Ret None 0)
  ∧ parser stod ("f"%char :: rest)
    = (if decide (take 4 rest = String.list_ascii_of_string "alse")
       then Ret (Some (Bool false)) 5 else Ret None 0).
Proof.
  assert (∀ c word value,
    isspace c = false →
    (∀ json_str, parse_value stod 1 (c :: json_str) 0
                 = parse_word (String.String c word) value (c :: json_str) 0) →
    parser stod (c :: rest)
    = if decide (take (String.length word) rest = String.list_ascii_of_string word)
      then Ret (Some value) (S (String.length word)) else Ret None 0) as Hword.
  { intros c word value Hc Hswitch. specialize (Hswitch rest).
    unfold parse_word, substr in Hswitch.
    rewrite decide_False in Hswitch by lia.
    cbn [String.length String.list_ascii_of_string drop take Nat.add] in Hswitch.
    destruct (decide (take _ rest = _)) as [Heq|Hne].
    - rewrite decide_True in Hswitch by by rewrite Heq.
      by apply (parser_at _ _ 1).
    - rewrite decide_False in Hswitch by congruence.
      by apply (parser_at _ _ 1). }
  split_and!.
  - apply (Hword "n"%char "ull"%string Null); [done|]. intros json_str.
    by rewrite parse_value_at_start.
  - apply (Hword "t"%char "rue"%string (Bool true)); [done|]. intros json_str.
    by rewrite parse_value_at_start.
  - apply (Hword "f"%char "alse"%string (Bool false)); [done|]. intros json_str.
    by rewrite parse_value_at_start.
Qed.


(** X23.  Blanks, and commas and colons that are not there.  The two
    loops skip blanks after every value, and a comma or a colon only
    when there is one.  So the text of a readable node is read back to
    the node also when the same blanks [pad] stand inside the brackets of
    every array and object that is not empty and around every comma and
    colon, and when the commas, the colons or both are left out, as long
    as blanks or commas keep the values apart. *)
Theorem parser_reads_spaced (pad : list ascii) (commas colons : bool)
    (node : Node) (blanks post : list ascii) :
  well_spaced pad commas = true →
  readable node = true → blank blanks = true → ends_number post = true →
  parser stod (blanks ++ spaced pad commas colons to_string_double node ++ post)
  = Ret (Some node)
        (length blanks + length (spaced pad commas colons to_string_double node)).
Proof.
  intros Hspaced Hnode.
  destruct (readable_reads_spaced pad commas colons node Hspaced Hnode).
  by apply parser_reads_text.
Qed.

(** X24.  Blanks between the brackets of an empty array or object.  The
    loops of lines 127 and 143 test the character behind the bracket
    before any blank is skipped; a blank there is taken for the start of
    a value, [parse_value] finds the closing bracket, returns the empty
    optional, and line 129 or 146 throws. *)
Theorem parser_blank_in_brackets (lead post : list ascii) :
  blank lead = true → lead ≠ [] →
  parser stod ("["%char :: lead ++ "]"%char :: post) = Throw bad_optional_access
  ∧ parser stod ("{"%char :: lead ++ "}"%char :: post) = Throw bad_optional_access.
Proof.
  intros Hlead Hne. destruct lead as [|c lead]; [done|].
  pose proof Hlead as [(_ & Harr & Hobj & _)%isspace_plain _]%andb_prop.
  split.
  - apply (parser_at_throw _ _ 3); [done|].
    rewrite parse_value_array_start, array_loop_step.
    pose proof (before_char_at "]" ["["%char] ((c :: lead) ++ "]"%char :: post)) as Hb.
    pose proof (parse_value_closing 0 ["["%char] (c :: lead) "]" post Hlead) as Hr.
    cbn [app length] in *. rewrite Hb, Harr. cbn [negb]. by rewrite Hr by by left.
  - apply (parser_at_throw _ _ 3); [done|].
    rewrite parse_value_object_start.
    pose proof (before_char_at "}" ["{"%char] ((c :: lead) ++ "}"%char :: post)) as Hb.
    pose proof (parse_value_closing 0 ["{"%char] (c :: lead) "}" post Hlead) as Hr.
    cbn [app length] in *. rewrite Hobj in Hb.
    eapply object_loop_empty_key; [exact Hb|]. apply Hr. by right.
Qed.

End json_text.

(* ===================================================================== *)
(** * The generator alone *)
(* ===================================================================== *)

(** X25.  Two readable nodes with the same text are the same node. *)
Theorem generate_inj (to_string_double : float → list ascii) (node1 node2 : Json.Node) :
  JsonText.readable node1 = true → JsonText.readable node2 = true →
  JsonGenerator.generate to_string_double node1
  = JsonGenerator.generate to_string_double node2 →
  node1 = node2.
Proof.
  intros H1 H2 Htext.
  pose proof (parser_reads (λ _, None) to_string_double node1 [] [] H1
                eq_refl eq_refl) as Hr1.
  pose proof (parser_reads (λ _, None) to_string_double node2 [] [] H2
                eq_refl eq_refl) as Hr2.
  rewrite Htext, Hr2 in Hr1. by injection Hr1.
Qed.

(* ===================================================================== *)
(** * The texts, checked against the theorems *)
(* ===================================================================== *)

Section json_runs.
Import Json JsonParser JsonGenerator JsonText.

Lemma parser_ends_witness :
  parser (λ _, None) (String.list_ascii_of_string "[1, [2, 3], {}]")
  = Ret (Some (Array [Int 1; Array [Int 2; Int 3]; Object ∅])) 15
  ∧ parse (λ _, None) 100 (String.list_ascii_of_string "[1, [2, 3], {}]")
    = parser (λ _, None) (String.list_ascii_of_string "[1, [2, 3], {}]").
Proof.
  split; [vm_compute; reflexivity|].
  apply (parser_ends (λ _, None) (String.list_ascii_of_string "[1, [2, 3], {}]") 100).
  cbn. lia.
Defined.

Lemma parser_reads_generate_witness :
  generate (λ _, []) sample_node
  = String.list_ascii_of_string "{" ++ generate_string "configurations"
    ++ String.list_ascii_of_string ":[true,null,7]," ++ generate_string "version"
    ++ String.list_ascii_of_string ":" ++ generate_string "1.0"
    ++ String.list_ascii_of_string "}"
  ∧ parser (λ _, None)
      (String.list_ascii_of_string "  " ++ generate (λ _, []) sample_node
         ++ String.list_ascii_of_string " and more")
    = Ret (Some sample_node) (2 + length (generate (λ _, []) sample_node)).
Proof.
  split; [vm_compute; reflexivity|].
  apply (parser_reads_generate (λ _, None) (λ _, []) sample_node).
  - vm_compute. reflexivity.
  - reflexivity.
  - reflexivity.
Defined.

Lemma parser_cuts_String_at_quote_witness :
  quote_free "ab" = true
  ∧ parser (λ _, None)
      (generate (λ _, []) (String ("ab" +:+ String.String quote "cd")))
    = Ret (Some (String "ab")) 4.
Proof.
  split; [reflexivity|].
  apply (parser_cuts_String_at_quote (λ _, None) (λ _, []) "ab" "cd"). reflexivity.
Defined.

Lemma parse_array_returns_array_witness :
  parse_array (λ _, None) 10 (String.list_ascii_of_string "[1,2]") 0
  = Ret (Some (Array [Int 1; Int 2])) 5
  ∧ ∃ arr, Some (Array [Int 1; Int 2]) = Some (Array arr) ∧ 0 < 5.
Proof.
  split; [vm_compute; reflexivity|].
  apply (parse_array_returns_array (λ _, None) 10 (String.list_ascii_of_string "[1,2]")).
  vm_compute. reflexivity.
Defined.

Lemma parser_reads_unclosed_witness :
  pop_back (generate (λ _, []) (Array [Int 1; Array []]))
  = String.list_ascii_of_string "[1,[]"
  ∧ parser (λ _, None) (pop_back (generate (λ _, []) (Array [Int 1; Array []])))
    = Ret (Some (Array [Int 1; Array []]))
          (S (length (pop_back (generate (λ _, []) (Array [Int 1; Array []]))))).
Proof.
  split; [vm_compute; reflexivity|].
  apply (parser_reads_unclosed (λ _, None) (λ _, []) (Array [Int 1; Array []]));
    reflexivity.
Defined.

Lemma parser_blank_text_witness :
  parser (λ _, None) (String.list_ascii_of_string "   ") = PastEnd.
Proof.
  apply (parser_blank_text (λ _, None) (String.list_ascii_of_string "   ")).
  repeat constructor.
Defined.

Lemma parser_unclosed_String_witness :
  quote_free "abc" = true
  ∧ parser (λ _, None) (quote :: String.list_ascii_of_string "abc") = PastEnd.
Proof.
  split; [reflexivity|].
  apply (parser_unclosed_String (λ _, None) "abc"). reflexivity.
Defined.

Lemma parser_key_not_String_witness :
  parser (λ _, None) (String.list_ascii_of_string "{1:2}") = Ret None 2.
Proof.
  apply (parser_key_not_String (λ _, None) (λ _, []) (Int 1)
           (String.list_ascii_of_string ":2}")); [reflexivity|done|reflexivity].
Defined.

Lemma parser_last_entry_wins_witness :
  parser (λ _, None)
    (generate_object_of
       (prod_map id (generate (λ _, []))
          <$> [("b"%string, Int 1); ("a"%string, Null); ("b"%string, Int 2)]))
  = Ret (Some (Object (list_to_map [("b"%string, Int 2); ("a"%string, Null)]))) 22.
Proof.
  etrans;
    [apply (parser_last_entry_wins (λ _, None) (λ _, [])
              [("b"%string, Int 1); ("a"%string, Null); ("b"%string, Int 2)]);
     repeat constructor|].
  vm_compute. reflexivity.
Defined.

Lemma parser_number_witness :
  parser (λ _, None) (String.list_ascii_of_string "42 ") = Ret (Some (Int 42)) 2
  ∧ parser (λ _, Some PrimFloat.one) (String.list_ascii_of_string "1.5e3,")
    = Ret (Some (Float PrimFloat.one)) 5.
Proof.
  split.
  - apply (parser_number (λ _, None) "4" (String.list_ascii_of_string "2")
             (String.list_ascii_of_string " ")); [repeat constructor|reflexivity].
  - apply (parser_number (λ _, Some PrimFloat.one) "1"
             (String.list_ascii_of_string ".5e3") (String.list_ascii_of_string ","));
      [repeat constructor|reflexivity].
Defined.


Lemma generate_inj_witness :
  readable sample_node = true ∧ sample_node = sample_node.
Proof.
  split; [vm_compute; reflexivity|].
  apply (generate_inj (λ _, []) sample_node sample_node); reflexivity.
Defined.

Lemma parser_reads_spaced_witness :
  spaced [" "%char] false true (λ _, []) (Array [Int 1; Array []; Bool true])
  = String.list_ascii_of_string "[ 1  []  true ]"
  ∧ parser (λ _, None)
      (spaced [" "%char] false true (λ _, []) (Array [Int 1; Array []; Bool true])
         ++ String.list_ascii_of_string ", 2")
    = Ret (Some (Array [Int 1; Array []; Bool true])) 15.
Proof.
  split; [vm_compute; reflexivity|].
  apply (parser_reads_spaced (λ _, None) (λ _, []) [" "%char] false true
           (Array [Int 1; Array []; Bool true]) [] (String.list_ascii_of_string ", 2"));
    reflexivity.
Defined.

Lemma parser_blank_in_brackets_witness :
  parser (λ _, None) (String.list_ascii_of_string "[ ]") = Throw bad_optional_access
  ∧ parser (λ _, None) (String.list_ascii_of_string "{ }") = Throw bad_optional_access.
Proof.
  apply (parser_blank_in_brackets (λ _, None) [" "%char] []); done.
Defined.

End json_runs.
